(** * A shallow embedding of the case-search RAG backend

    The development follows the Python sources under [backend/src]:
    - [components/response.py]   response formatter: parsing and citations,
    - [components/reranker.py]   cross-encoder reranker,
    - [components/llm.py]        multi-provider fallback router,
    - [components/embedding.py], [components/retrieval.py]
                                 embedding and vector-index clients,
    - [prompt_template/cot_prompt_template.py]  the prompt,
    - [pipeline/rag_pipeline.py] five-stage orchestrator,
    - [main.py]                  the HTTP handler that calls it.

    Python [str] values are lists of characters, dictionaries are finite
    maps, the floats the program compares are numbers, infinities or NaN,
    [Document] objects live in a store and are passed by reference,
    exceptions are values of an error type, and every call to an outside
    service (LLM provider, scoring model, embedding API, vector index,
    random generator, sleeping) is an event appended to a trace. The
    retry decorator of the [tenacity] library and the functions of Python's
    [re] and [random] modules are modelled after their documented
    behaviour. *)

From Stdlib Require Import ZArith QArith Ascii String List Lia Permutation Sorted.
From stdpp Require Import base option list gmap strings pretty.

Set Default Proof Using "Type".
Local Open Scope list_scope.

(** ** Python strings *)

Module PyStr.

(** A Python [str], restricted to code points below 256. *)
Definition str := list ascii.

Definition txt (s : string) : str := list_ascii_of_string s.

Definition LF : ascii := ascii_of_nat 10.
Definition CR : ascii := ascii_of_nat 13.
Definition SP : ascii := ascii_of_nat 32.

(** [py] reads a literal the way Python reads one: backslash-n,
    backslash-r and backslash-t stand for the control characters. *)
Fixpoint py_chars (s : str) : str :=
  match s with
  | b :: r =>
      match r with
      | c :: r' =>
          if Ascii.eqb b (ascii_of_nat 92) then
            if Ascii.eqb c (ascii_of_nat 110) then LF :: py_chars r'
            else if Ascii.eqb c (ascii_of_nat 114) then CR :: py_chars r'
            else if Ascii.eqb c (ascii_of_nat 116) then ascii_of_nat 9 :: py_chars r'
            else b :: py_chars r
          else b :: py_chars r
      | [] => [b]
      end
  | [] => []
  end.

Definition py (s : string) : str := py_chars (txt s).

(** [str.isspace] on one character (CPython's [Py_UNICODE_ISSPACE]); the
    regular-expression class backslash-s uses the same table. *)
Definition is_space (c : ascii) : bool :=
  let n := nat_of_ascii c in
  ((9 <=? n) && (n <=? 13)) || ((28 <=? n) && (n <=? 32))
  || (n =? 133) || (n =? 160).

Fixpoint lstrip (s : str) : str :=
  match s with
  | c :: r => if is_space c then lstrip r else s
  | [] => []
  end.

Definition rstrip (s : str) : str := rev (lstrip (rev s)).

(** [s.strip()] *)
Definition strip (s : str) : str := lstrip (rstrip s).

(** [s.replace('\r\n', '\n')] *)
Fixpoint replace_crlf (s : str) : str :=
  match s with
  | c :: r =>
      match r with
      | d :: r' =>
          if Ascii.eqb c CR && Ascii.eqb d LF then LF :: replace_crlf r'
          else c :: replace_crlf r
      | [] => [c]
      end
  | [] => []
  end.

(** [s.startswith(p)] *)
Fixpoint startswith (p s : str) : bool :=
  match p, s with
  | [], _ => true
  | a :: p', b :: s' => Ascii.eqb a b && startswith p' s'
  | _ :: _, [] => false
  end.

(** [p in s] *)
Fixpoint contains (p s : str) : bool :=
  startswith p s || match s with [] => false | _ :: s' => contains p s' end.

(** Truthiness of a string: [if s:] *)
Definition nonempty (s : str) : bool :=
  match s with [] => false | _ => true end.

(** [l[:n]] for a list and an integer bound, negative bounds counting
    from the end. *)
Definition slice_to {A} (n : Z) (l : list A) : list A :=
  if (0 <=? n)%Z then take (Z.to_nat n) l
  else take (length l - Z.to_nat (- n)) l.

End PyStr.
Export PyStr.

(** ** Regular expressions: the fragment of Python's [re] the formatter uses

    A backtracking matcher in continuation-passing style, with the
    priorities of Python's engine: alternatives left to right, greedy
    repetition longest first, lazy repetition shortest first, leftmost
    match for [re.search]. Repetition is only ever applied to a
    one-character class in the patterns of the source. *)

Module Re.

Inductive regex :=
| Eps
| Chr (p : ascii -> bool)       (* one character: a literal, a class, the dot *)
| Cat (r1 r2 : regex)
| Alt (r1 r2 : regex)           (* r1|r2 *)
| Star (p : ascii -> bool)      (* c* *)
| StarLazy (p : ascii -> bool)  (* c*? *)
| Opt (r : regex)               (* r? *)
| Group (r : regex)             (* (r), the only capturing group *)
| Ahead (r : regex)             (* (?=r) *)
| Eos.                          (* $ *)

Section Matcher.
Context {R : Type}.

Fixpoint star_greedy (p : ascii -> bool) (s : str) (k : str -> option R) : option R :=
  match s with
  | c :: s' =>
      if p c then
        match star_greedy p s' k with
        | Some x => Some x
        | None => k s
        end
      else k s
  | [] => k s
  end.

Fixpoint star_lazy (p : ascii -> bool) (s : str) (k : str -> option R) : option R :=
  match k s with
  | Some x => Some x
  | None =>
      match s with
      | c :: s' => if p c then star_lazy p s' k else None
      | [] => None
      end
  end.
End Matcher.

(** [$] without MULTILINE: the end of the text, or just before a final
    newline. *)
Definition at_end (s : str) : bool :=
  match s with
  | [] => true
  | [c] => Ascii.eqb c LF
  | _ => false
  end.

(** [mt r s g k]: match [r] at the front of [s], group 1 being [g] so
    far, then continue with [k] on what is left. *)
Fixpoint mt {R : Type} (r : regex) (s : str) (g : option str)
    (k : str -> option str -> option R) : option R :=
  match r with
  | Eps => k s g
  | Chr p =>
      match s with
      | c :: s' => if p c then k s' g else None
      | [] => None
      end
  | Cat r1 r2 => mt r1 s g (fun s' g' => mt r2 s' g' k)
  | Alt r1 r2 =>
      match mt r1 s g k with
      | Some x => Some x
      | None => mt r2 s g k
      end
  | Star p => star_greedy p s (fun s' => k s' g)
  | StarLazy p => star_lazy p s (fun s' => k s' g)
  | Opt r1 =>
      match mt r1 s g k with
      | Some x => Some x
      | None => k s g
      end
  | Group r1 =>
      mt r1 s g (fun s' _ => k s' (Some (take (length s - length s') s)))
  | Ahead r1 =>
      match mt r1 s g (fun _ g' => Some g') with
      | Some g' => k s g'
      | None => None
      end
  | Eos => if at_end s then k s g else None
  end.

(** A match object: the text before the match, the text after it, and
    [group(1)]. *)
Record match_obj := MatchObj {
  m_before : str;
  m_after : str;
  m_group1 : option str
}.

Definition match_here (r : regex) (s : str) : option (str * option str) :=
  mt r s None (fun s' g => Some (s', g)).

(** [re.search]: the leftmost start at which the pattern matches. [pre]
    is the text already passed, reversed. *)
Fixpoint search_from (r : regex) (pre : str) (s : str) : option match_obj :=
  match match_here r s with
  | Some (s', g) => Some (MatchObj (rev pre) s' g)
  | None =>
      match s with
      | c :: s' => search_from r (c :: pre) s'
      | [] => None
      end
  end.

Definition search (r : regex) (s : str) : option match_obj := search_from r [] s.

(** [re.split(r, s, maxsplit=1)] for a pattern without groups: one or two
    parts. *)
Definition split1 (r : regex) (s : str) : list str :=
  match search r s with
  | Some m => [m_before m; m_after m]
  | None => [s]
  end.

(** [re.sub(r, '', s)] for a pattern that cannot match the empty text:
    every match, left to right, is deleted. *)
Fixpoint sub_empty_fuel (n : nat) (r : regex) (s : str) : str :=
  match n with
  | 0 => s
  | S n' =>
      match match_here r s with
      | Some (s', _) =>
          if length s' <? length s then sub_empty_fuel n' r s'
          else match s with
               | c :: t => c :: sub_empty_fuel n' r t
               | [] => []
               end
      | None =>
          match s with
          | c :: t => c :: sub_empty_fuel n' r t
          | [] => []
          end
      end
  end.

Definition sub_empty (r : regex) (s : str) : str :=
  sub_empty_fuel (S (length s)) r s.

(** Pattern building blocks. *)
Definition lower (c : ascii) : ascii :=
  let n := nat_of_ascii c in
  if (65 <=? n) && (n <=? 90) then ascii_of_nat (n + 32) else c.

Definition chr_eq (c : ascii) : ascii -> bool := fun d => Ascii.eqb c d.
Definition chr_eq_nocase (c : ascii) : ascii -> bool :=
  fun d => Ascii.eqb (lower c) (lower d).
Definition chr_not_nocase (c : ascii) : ascii -> bool :=
  fun d => negb (Ascii.eqb (lower c) (lower d)).
Definition chr_any : ascii -> bool := fun _ => true.

(** A literal, case-sensitive or (under IGNORECASE) not. *)
Definition lit (s : str) : regex :=
  fold_right (fun c r => Cat (Chr (chr_eq c)) r) Eps s.
Definition lit_nocase (s : str) : regex :=
  fold_right (fun c r => Cat (Chr (chr_eq_nocase c)) r) Eps s.

Fixpoint cats (rs : list regex) : regex :=
  match rs with
  | [] => Eps
  | [r] => r
  | r :: rs' => Cat r (cats rs')
  end.

End Re.
Export Re.

(** ** Data model (components/retrieval.py, config_params.py) *)

Module Data.

(** A Python [float]: a number, an infinity, or not-a-number. *)
Inductive pyfloat :=
| Num (x : Q)
| PosInf
| NegInf
| NaN.

Definition is_nan (x : pyfloat) : bool :=
  match x with NaN => true | _ => false end.

(** A metadata value: text or a float. *)
Inductive value :=
| VStr (s : str)
| VFloat (x : pyfloat).

(** [@dataclass class Document]: [metadata] may be [None]. *)
Record Document := mkDocument {
  content : str;
  metadata : option (gmap string value);
  score : option Q
}.

(** [doc.metadata or {}] *)
Definition metadata_or_empty (d : Document) : gmap string value :=
  match metadata d with
  | Some md => md
  | None => ∅
  end.

(** [metadata.get(key, '')] for a text-valued key. *)
Definition get_text (md : gmap string value) (key : string) : str :=
  match md !! key with
  | Some (VStr s) => s
  | _ => []
  end.

(** The text-valued keys hold text when they are present. *)
Definition text_key_ok (md : gmap string value) (key : string) : bool :=
  match md !! key with
  | Some (VFloat _) => false
  | _ => true
  end.

Definition text_keys_ok (d : Document) : bool :=
  text_key_ok (metadata_or_empty d) "case_title"
  && text_key_ok (metadata_or_empty d) "media_neutral_citation".

(** Exceptions. [RuntimeError msg e] is [raise RuntimeError(f"{msg}: {e}")]
    inside [except Exception as e]; [RetryError e] is what the retry
    decorator raises when it gives up, [e] being the failure of its last
    attempt; [ServiceError] is an exception coming out of a client
    library. *)
Inductive exn :=
| ValueError (msg : str)
| RuntimeError (msg : string) (e : exn)
| RuntimeErrorMsg (msg : string)
| RetryError (last : exn)
| AttributeError (msg : string)
| IndexError (msg : string)
| ServiceError (msg : str).

Record RerankerConfig := { reranker_model_name : str; top_n : Z }.
Record ResponseConfig := { max_citations : Z }.
Record RetrievalConfig := { pinecone_index_name : str; retrieval_top_k : Z }.
Record EmbeddingConfig := { embedding_model_name : str }.
(** One entry of [LLMConfig.providers]: [{'provider': .., 'model_name': ..}] *)
Record provider_config := { provider : str; model_name : str }.
Record LLMConfig := { providers : list provider_config }.

End Data.
Export Data.

(** ** Response formatter (components/response.py) *)

Module Response.

(** [r'\n\s*Final Answer:\s*\n'] *)
Definition re_final_answer_line : regex :=
  cats [Chr (chr_eq LF); Star is_space; lit (txt "Final Answer:");
        Star is_space; Chr (chr_eq LF)].

(** [(?:Final Answer|Answer|Conclusion)] under IGNORECASE *)
Definition re_answer_words : regex :=
  Alt (lit_nocase (txt "Final Answer"))
      (Alt (lit_nocase (txt "Answer")) (lit_nocase (txt "Conclusion"))).

(** [r'(?:Final Answer|Answer|Conclusion):?\s*\n?(.*?)(?:\n\s*$|\n\s*[^R])']
    with DOTALL and IGNORECASE *)
Definition re_fallback_answer : regex :=
  cats [re_answer_words; Opt (Chr (chr_eq (ascii_of_nat 58)));
        Star is_space; Opt (Chr (chr_eq LF));
        Group (StarLazy chr_any);
        Alt (cats [Chr (chr_eq LF); Star is_space; Eos])
            (cats [Chr (chr_eq LF); Star is_space;
                   Chr (chr_not_nocase (ascii_of_nat 82))])].

(** [r'(?:Reasoning|Analysis):?\s*\n?(.*?)(?=(?:Final Answer|Answer|Conclusion):|\n\s*$)']
    with DOTALL and IGNORECASE *)
Definition re_fallback_reasoning : regex :=
  cats [Alt (lit_nocase (txt "Reasoning")) (lit_nocase (txt "Analysis"));
        Opt (Chr (chr_eq (ascii_of_nat 58)));
        Star is_space; Opt (Chr (chr_eq LF));
        Group (StarLazy chr_any);
        Ahead (Alt (Cat re_answer_words (Chr (chr_eq (ascii_of_nat 58))))
                   (cats [Chr (chr_eq LF); Star is_space; Eos]))].

(** [r'\*{2,}'] *)
Definition re_stars : regex :=
  let star := chr_eq (ascii_of_nat 42) in
  cats [Chr star; Chr star; Star star].

Definition no_answer_sentinel : str :=
  txt "No conclusive answer could be extracted from the LLM output due to formatting issues.".

Definition group1 (m : match_obj) : str :=
  match m_group1 m with
  | Some g => g
  | None => []
  end.

(** [re.sub(r'\*{2,}', '', x).strip()] *)
Definition clean_markdown (x : str) : str := strip (sub_empty re_stars x).

(** [ResponseService._parse_llm_output]: (reasoning, final_answer). *)
Definition _parse_llm_output (llm_output : str) : str * str :=
  let llm_output := strip (replace_crlf llm_output) in
  let parts := split1 re_final_answer_line llm_output in
  let '(reasoning, final_answer) :=
    match parts with
    | [p0; p1] =>
        let reasoning := strip p0 in
        let reasoning :=
          if startswith (txt "Reasoning:") reasoning
          then strip (drop (length (txt "Reasoning:")) reasoning)
          else reasoning in
        (reasoning, strip p1)
    | _ =>
        let final_answer_match := search re_fallback_answer llm_output in
        let reasoning_match := search re_fallback_reasoning llm_output in
        (match reasoning_match with
         | Some m => strip (group1 m)
         | None => strip llm_output
         end,
         match final_answer_match with
         | Some m => strip (group1 m)
         | None => no_answer_sentinel
         end)
    end in
  (clean_markdown reasoning, clean_markdown final_answer).

(** The loop body shared by the two passes of [_extract_citations];
    the state is [(citations, seen_citations)]. *)
Definition citation_of (case_title media_neutral : str) : str :=
  case_title ++ SP :: media_neutral.

Definition cite_state := (list str * gset str)%type.

Definition first_pass_step (llm_output : str) (st : cite_state) (doc : Document)
    : cite_state :=
  let '(citations, seen_citations) := st in
  let metadata := metadata_or_empty doc in
  let case_title := get_text metadata "case_title" in
  let media_neutral := get_text metadata "media_neutral_citation" in
  if nonempty case_title && nonempty media_neutral
     && bool_decide (media_neutral ∉ seen_citations) then
    let citation := citation_of case_title media_neutral in
    if contains citation llm_output || contains case_title llm_output then
      (citations ++ [citation], seen_citations ∪ {[media_neutral]})
    else st
  else st.

Definition fallback_step (st : cite_state) (doc : Document) : cite_state :=
  let '(citations, seen_citations) := st in
  let metadata := metadata_or_empty doc in
  let case_title := get_text metadata "case_title" in
  let media_neutral := get_text metadata "media_neutral_citation" in
  if nonempty case_title && nonempty media_neutral
     && bool_decide (media_neutral ∉ seen_citations) then
    (citations ++ [citation_of case_title media_neutral],
     seen_citations ∪ {[media_neutral]})
  else st.

(** [ResponseService._extract_citations] *)
Definition _extract_citations (documents : list Document) (llm_output : str)
    : list str :=
  let st := fold_left (first_pass_step llm_output) documents ([], ∅) in
  let st :=
    match st.1 with
    | [] => fold_left fallback_step documents st
    | _ => st
    end in
  st.1.

(** The dictionary [generate_response] returns. *)
Record response := mkResponse {
  r_query : str;
  r_final_answer : str;
  r_citations : list str
}.

(** The body of [ResponseService.generate_response], one attempt. Parsing
    and citation extraction cannot raise on text, so the handler that
    wraps their failure never runs. *)
Definition generate_response_body (config : ResponseConfig)
    (query llm_output : str) (documents : list Document) : exn + response :=
  if negb (nonempty query) then
    inl (ValueError (txt "Query must be a non-empty string."))
  else if negb (nonempty llm_output) then
    inl (ValueError (txt "LLM output must be a non-empty string."))
  else if match documents with [] => true | _ => false end then
    inl (ValueError (txt "Documents must be a non-empty list of Document objects."))
  else
    let '(reasoning, final_answer) := _parse_llm_output llm_output in
    let citations := _extract_citations documents llm_output in
    inr (mkResponse query final_answer
           (slice_to (max_citations config) citations)).

End Response.
Export Response.

(** ** Effects: the outside world, the object store, exceptions, retries *)

Module Effects.

(** Documents are objects; lists hold references to them. *)
Definition loc := nat.

(** A match returned by the vector index. *)
Record index_match := { match_metadata : option (gmap string value); match_score : Q }.

(** What a provider call can do: raise, or return the text of the
    completion ([None] when the client returns no content). *)
Inductive reply :=
| Raises (e : exn)
| Returns (response : option str).

(** Everything the program does to the outside, in order. *)
Inductive event :=
| Sleep (seconds : nat)
| RandBelow (bound : nat) (drawn : nat)
| ProviderCall (p : provider_config) (system_prompt user_prompt : str) (max_tokens : Z)
| Predict (pairs : list (str * str))
| EmbedCall (texts : list str) (input_type : str)
| IndexQuery (vector : list Q) (top_k : Z).

(** The outside services. Each answer may depend on everything that
    happened before (the trace, latest event first) and on the request. *)
Record env := {
  env_randbelow : list event -> nat -> nat;
  env_provider : list event -> provider_config -> str -> str -> Z -> reply;
  env_predict : list event -> list (str * str) -> exn + list pyfloat;
  env_embed : list event -> list str -> str -> exn + list (list Q);
  env_index_query : list event -> list Q -> Z -> exn + list index_match;
  (** [os.getenv], and whether building a provider's client raises *)
  env_getenv : str -> option str;
  env_client_init : str -> option exn;
  (** [str(x)] for a float, and the constant parts of the prompt template *)
  env_float_repr : pyfloat -> str;
  env_template : str * str * str;
  (** the order [sorted] leaves a list in when NaN is among its keys *)
  env_sorted_nan : list pyfloat -> list nat
}.

Record world := mkWorld {
  w_trace : list event;
  w_heap : loc -> Document;
  w_next : loc
}.

Definition log (ev : event) (w : world) : world :=
  mkWorld (ev :: w_trace w) (w_heap w) (w_next w).

Definition store (l : loc) (d : Document) (w : world) : world :=
  mkWorld (w_trace w) (fun l' => if Nat.eqb l' l then d else w_heap w l') (w_next w).

(** A computation: runs in a world, ends by returning or by raising. *)
Definition M (A : Type) : Type := world -> (exn + A) * world.

Definition ret {A} (a : A) : M A := fun w => (inr a, w).
Definition raise {A} (e : exn) : M A := fun w => (inl e, w).
Definition bind {A B} (m : M A) (f : A -> M B) : M B :=
  fun w =>
    match m w with
    | (inr a, w') => f a w'
    | (inl e, w') => (inl e, w')
    end.
(** [try: m except Exception as e: h e] *)
Definition try_except {A} (m : M A) (h : exn -> M A) : M A :=
  fun w =>
    match m w with
    | (inr a, w') => (inr a, w')
    | (inl e, w') => h e w'
    end.
Definition lift {A} (r : exn + A) : M A := fun w => (r, w).
Definition get_world : M world := fun w => (inr w, w).

Declare Scope m_scope.
Delimit Scope m_scope with M.
Notation "x <- m ;; k" := (bind m (fun x => k))
  (at level 100, m at next level, right associativity) : m_scope.
Notation "m ;;; k" := (bind m (fun _ => k))
  (at level 100, right associativity) : m_scope.
Local Open Scope m_scope.

(** *** The retry decorator (tenacity)

    [@retry(stop=stop_after_attempt(n), wait=w)] with no [retry=] and no
    [reraise=]: the body is retried on any exception; between attempts
    the decorator sleeps [w attempt_number]; when attempt [n] fails it
    raises [RetryError] holding that last failure. *)
Fixpoint retry_from {A} (wait : nat -> nat) (attempt_number more : nat) (body : M A)
    : M A :=
  fun w =>
    match body w with
    | (inr a, w') => (inr a, w')
    | (inl e, w') =>
        match more with
        | 0 => (inl (RetryError e), w')
        | S more' =>
            retry_from wait (S attempt_number) more' body
              (log (Sleep (wait attempt_number)) w')
        end
    end.

Definition retry {A} (stop_after_attempt : nat) (wait : nat -> nat) (body : M A) : M A :=
  retry_from wait 1 (stop_after_attempt - 1) body.

(** [wait_fixed(2)] *)
Definition wait_fixed (seconds : nat) : nat -> nat := fun _ => seconds.

(** [wait_exponential(multiplier=1, min=2, max=10)]:
    [max(min, min(multiplier * 2 ** (attempt_number - 1), max))] *)
Definition wait_exponential (multiplier min max : nat) : nat -> nat :=
  fun attempt_number =>
    Nat.max min (Nat.min (multiplier * 2 ^ (attempt_number - 1)) max).

(** Trace observations. *)
Definition is_provider_call (ev : event) : bool :=
  match ev with ProviderCall _ _ _ _ => true | _ => false end.

End Effects.
Export Effects.
Local Open Scope m_scope.

(** ** Reranker (components/reranker.py) *)

Module Reranker.

(** [x.metadata.get('rerank_score', 0)], the sort key. Every document
    that reaches the sort has just been given a float under that key. *)
Definition rerank_key (d : Document) : pyfloat :=
  match metadata_or_empty d !! "rerank_score" with
  | Some (VFloat x) => x
  | _ => Num 0
  end.

Definition Qlt_bool (x y : Q) : bool := negb (Qle_bool y x).

(** [a < b] on floats: false as soon as one of them is NaN. *)
Definition float_lt (a b : pyfloat) : bool :=
  match a, b with
  | NaN, _ | _, NaN => false
  | Num x, Num y => Qlt_bool x y
  | _, NegInf => false
  | NegInf, _ => true
  | PosInf, _ => false
  | _, PosInf => true
  end.

(** Insertion from the right by descending key: [x], which stood before
    the elements of [l], goes in front of the first element whose key is
    not greater than its own. *)
Fixpoint insert_desc {A} (key : A -> pyfloat) (x : A) (l : list A) : list A :=
  match l with
  | [] => [x]
  | y :: r => if float_lt (key x) (key y) then y :: insert_desc key x r else x :: l
  end.

(** The elements of [l] in the order [picks] takes them in: each pick is
    the position, among the elements not yet taken, of the next one. *)
Fixpoint rearrange {A} (n : nat) (picks : list nat) (l : list A) : list A :=
  match n with
  | 0 => l
  | S n' =>
      let i := hd 0 picks mod length l in
      match l !! i with
      | Some x => x :: rearrange n' (tl picks) (delete i l)
      | None => l
      end
  end.

(** [sorted(l, key=key, reverse=True)]. Python's sort is stable, also
    with [reverse=True]. When no key is NaN the keys are totally
    preordered by [<], the stable sort of a list is unique, and insertion
    from the right computes it. With a NaN among the keys [<] is not an
    ordering: the result is then some rearrangement of [l], which depends
    on the steps of the sorting algorithm; [order] stands for it. *)
Definition sorted_reverse {A} (order : list pyfloat -> list nat) (key : A -> pyfloat)
    (l : list A) : list A :=
  if existsb is_nan (map key l) then rearrange (length l) (order (map key l)) l
  else fold_right (insert_desc key) [] l.

Section WithEnv.
Context (E : env).

(** [self.model.predict(pairs, show_progress_bar=False)] *)
Definition predict (pairs : list (str * str)) : M (list pyfloat) :=
  fun w => (env_predict E (w_trace w) pairs, log (Predict pairs) w).

(** [doc.metadata = doc.metadata or {};
     doc.metadata['rerank_score'] = float(score)]
    Every passage is taken to have a metadata dictionary of its own, as
    the passages the retriever builds have. *)
Definition set_rerank_score (l : loc) (x : pyfloat) : M unit :=
  fun w =>
    let d := w_heap w l in
    (inr tt,
     store l (mkDocument (content d)
                (Some (<["rerank_score" := VFloat x]> (metadata_or_empty d)))
                (score d)) w).

(** [for doc, score in zip(documents, scores): ...; reranked_docs.append(doc)] *)
Fixpoint update_scores (zipped : list (loc * pyfloat)) : M (list loc) :=
  match zipped with
  | [] => ret []
  | (l, x) :: rest =>
      set_rerank_score l x ;;;
      (ds <- update_scores rest ;; ret (l :: ds))
  end.

(** The body of [RerankerService.rerank], one attempt. *)
Definition rerank_body (config : RerankerConfig) (query : str) (documents : list loc)
    : M (list loc) :=
  if negb (nonempty query) then
    raise (ValueError (txt "Query must be a non-empty string."))
  else
    match documents with
    | [] => ret []
    | _ =>
        try_except
          (w <- get_world ;;
           let pairs := map (fun l => (query, content (w_heap w l))) documents in
           scores <- predict pairs ;;
           reranked_docs <- update_scores (zip documents scores) ;;
           w' <- get_world ;;
           let reranked_docs :=
             sorted_reverse (env_sorted_nan E)
               (fun l => rerank_key (w_heap w' l)) reranked_docs in
           ret (slice_to (top_n config) reranked_docs))
          (fun e => raise (RuntimeError "Reranking failed" e))
    end.

(** [@retry(stop=stop_after_attempt(3),
            wait=wait_exponential(multiplier=1, min=2, max=10))] *)
Definition rerank (config : RerankerConfig) (query : str) (documents : list loc)
    : M (list loc) :=
  retry 3 (wait_exponential 1 2 10) (rerank_body config query documents).
End WithEnv.

End Reranker.
Export Reranker.

(** ** LLM fallback router (components/llm.py) *)

Module LLM.

(** The providers [_initialize_clients] recognizes. *)
Inductive provider_kind := Groq | Together | OpenAI | Anthropic.

Definition kind_of (provider : str) : option provider_kind :=
  if bool_decide (provider = txt "groq") then Some Groq
  else if bool_decide (provider = txt "together") then Some Together
  else if bool_decide (provider = txt "openai") then Some OpenAI
  else if bool_decide (provider = txt "anthropic") then Some Anthropic
  else None.

Definition kind_name (k : provider_kind) : str :=
  match k with
  | Groq => txt "groq"
  | Together => txt "together"
  | OpenAI => txt "openai"
  | Anthropic => txt "anthropic"
  end.

(** An entry of [self.providers]. Entries are appended only in the four
    recognized branches, so the provider of an entry is one of the four. *)
Record registered := { reg_model_name : str; reg_provider : provider_kind }.

Definition entry_config (p : registered) : provider_config :=
  {| provider := kind_name (reg_provider p); model_name := reg_model_name p |}.

Definition upper (s : str) : str :=
  map (fun c => let n := nat_of_ascii c in
                if (97 <=? n) && (n <=? 122) then ascii_of_nat (n - 32) else c) s.

Definition truthy (o : option str) : bool :=
  match o with
  | Some s => nonempty s
  | None => false
  end.

Definition all_failed_msg : string :=
  "All LLM providers failed. Check API keys and configurations.".

Section WithEnv.
Context (E : env).

(** The loop of [_initialize_clients]. *)
Fixpoint register_clients (configs : list provider_config) (acc : list registered)
    : list registered :=
  match configs with
  | [] => acc
  | c :: rest =>
      if negb (truthy (env_getenv E (upper (provider c) ++ txt "_API_KEY"))) then
        register_clients rest acc
      else
        match kind_of (provider c) with
        | None => register_clients rest acc
        | Some k =>
            match env_client_init E (provider c) with
            | Some _ => register_clients rest acc
            | None =>
                register_clients rest
                  (acc ++ [{| reg_model_name := model_name c; reg_provider := k |}])
            end
        end
  end.

(** [LLMService.__init__]: the registry, or the error raised when it
    would be empty. *)
Definition _initialize_clients (config : LLMConfig) : exn + list registered :=
  match register_clients (providers config) [] with
  | [] => inl (ValueError (txt "No valid LLM providers configured. Check .env and config.yaml."))
  | ps => inr ps
  end.

(** [random.shuffle]: for [i] from [len(x) - 1] down to 1, exchange
    [x[i]] with [x[randbelow(i + 1)]]. *)
Definition randbelow (n : nat) : M nat :=
  fun w =>
    let j := env_randbelow E (w_trace w) n mod n in
    (inr j, log (RandBelow n j) w).

Definition swap {A} (i j : nat) (x : list A) : list A :=
  match x !! i, x !! j with
  | Some a, Some b => <[j := a]> (<[i := b]> x)
  | _, _ => x
  end.

Fixpoint shuffle_from {A} (i : nat) (x : list A) : M (list A) :=
  match i with
  | 0 => ret x
  | S i' => j <- randbelow (S i) ;; shuffle_from i' (swap i j x)
  end.

Definition shuffle {A} (x : list A) : M (list A) := shuffle_from (length x - 1) x.

(** One call of a provider's completion API. The four call shapes
    differ in how the prompts are packed and the text is unpacked; each
    is one request to the provider named by the entry. *)
Definition call_provider (p : registered) (system_prompt user_prompt : str)
    (max_tokens : Z) : world -> reply * world :=
  fun w =>
    (env_provider E (w_trace w) (entry_config p) system_prompt user_prompt max_tokens,
     log (ProviderCall (entry_config p) system_prompt user_prompt max_tokens) w).

(** [for provider_config in providers: ...] and what follows the loop. *)
Fixpoint try_providers (providers : list registered)
    (system_prompt user_prompt : str) (max_tokens : Z)
    (best_response : option str) : M str :=
  match providers with
  | [] =>
      match best_response with
      | Some r => if nonempty r then ret r else raise (RuntimeErrorMsg all_failed_msg)
      | None => raise (RuntimeErrorMsg all_failed_msg)
      end
  | p :: rest =>
      fun w =>
        let continue := try_providers rest system_prompt user_prompt max_tokens in
        match call_provider p system_prompt user_prompt max_tokens w with
        | (Raises _, w') => continue best_response w'
        | (Returns None, w') => continue best_response w'
        | (Returns (Some response), w') =>
            if negb (nonempty response) then continue best_response w'
            else if contains (txt "Final Answer:") response then (inr response, w')
            else
              continue
                (if negb (truthy best_response) then Some response else best_response)
                w'
        end
  end.

(** [f"Document {i+1} (Score: {doc.metadata.get('rerank_score', 'N/A')}):\n{doc.content}"];
    [doc.metadata] being [None] raises. *)
Definition show_value (v : value) : str :=
  match v with
  | VStr s => s
  | VFloat x => env_float_repr E x
  end.

Definition context_entry (i : nat) (d : Document) : exn + str :=
  match metadata d with
  | None => inl (AttributeError "'NoneType' object has no attribute 'get'")
  | Some md =>
      let sc := match md !! "rerank_score" with
                | Some v => show_value v
                | None => txt "N/A"
                end in
      inr (txt "Document " ++ txt (pretty (i + 1)) ++ txt " (Score: " ++ sc
           ++ txt "):" ++ LF :: content d)
  end.

Fixpoint context_entries (i : nat) (ds : list Document) : exn + list str :=
  match ds with
  | [] => inr []
  | d :: rest =>
      match context_entry i d with
      | inl e => inl e
      | inr x =>
          match context_entries (S i) rest with
          | inl e => inl e
          | inr xs => inr (x :: xs)
          end
      end
  end.

(** [sep.join(xs)] *)
Fixpoint join (sep : str) (xs : list str) : str :=
  match xs with
  | [] => []
  | [x] => x
  | x :: rest => x ++ sep ++ join sep rest
  end.

Definition no_provider_configured (model_id : str) : exn :=
  ValueError (txt "No provider configured for model_id '" ++ model_id ++ txt "'.").
Definition no_provider_found (model_id : str) : exn :=
  ValueError (txt "No provider found for model_id '" ++ model_id ++ txt "'.").

Definition serves (model_id : str) (p : registered) : bool :=
  bool_decide (reg_model_name p = model_id).

(** [[p for p in self.providers if p['model_name'] == model_id]] *)
Definition candidates (registry : list registered) (model_id : str) : list registered :=
  filter (fun p => serves model_id p = true) registry.

Definition system_prompt_of (context : str) : str :=
  txt "You are a helpful assistant. Use the provided context to answer the query accurately and concisely."
  ++ LF :: LF :: txt "Context:" ++ LF :: context.

Definition user_prompt_of (query : str) : str := txt "Query: " ++ query.

(** The body of [LLMService.generate], one attempt. [registry] is
    [self.providers]. *)
Definition generate_body (registry : list registered)
    (query : str) (documents : list loc) (model_id : str) (max_tokens : Z) : M str :=
  if negb (nonempty query) then
    raise (ValueError (txt "Query must be a non-empty string."))
  else if negb (nonempty model_id) then
    raise (ValueError (txt "Model_id must be a non-empty string."))
  else if (max_tokens <=? 0)%Z then
    raise (ValueError (txt "max_tokens must be a positive integer."))
  else if negb (existsb (serves model_id) registry) then
    raise (no_provider_configured model_id)
  else
    w <- get_world ;;
    entries <- lift (context_entries 0 (map (w_heap w) documents)) ;;
    let context := join [LF; LF] entries in
    let system_prompt := system_prompt_of context in
    let user_prompt := user_prompt_of query in
    let providers := candidates registry model_id in
    match providers with
    | [] => raise (no_provider_found model_id)
    | _ =>
        providers <- shuffle providers ;;
        try_providers providers system_prompt user_prompt max_tokens None
    end.

(** [@retry(stop=stop_after_attempt(3),
            wait=wait_exponential(multiplier=1, min=2, max=10))] *)
Definition generate (registry : list registered)
    (query : str) (documents : list loc) (model_id : str) (max_tokens : Z) : M str :=
  retry 3 (wait_exponential 1 2 10)
    (generate_body registry query documents model_id max_tokens).
End WithEnv.

End LLM.
Export LLM.

(** ** The decorated formatter, the embedding and retrieval clients, the prompt *)

Module Services.

(** [@retry(stop=stop_after_attempt(3), wait=wait_fixed(2))] on
    [ResponseService.generate_response]. *)
Definition generate_response (config : ResponseConfig)
    (query llm_output : str) (documents : list loc) : M response :=
  retry 3 (wait_fixed 2)
    (w <- get_world ;;
     lift (generate_response_body config query llm_output (map (w_heap w) documents))).

Section WithEnv.
Context (E : env).

(** The body of [EmbeddingService.embed]. *)
Definition embed_body (config : EmbeddingConfig) (texts : list str) (input_type : str)
    : M (list (list Q)) :=
  if match texts with [] => true | _ => false end
     || negb (forallb (fun t => nonempty (strip t)) texts) then
    raise (ValueError (txt "Input 'texts' must be a non-empty list of non-empty strings."))
  else if negb (bool_decide (input_type = txt "query")
                || bool_decide (input_type = txt "document")) then
    raise (ValueError (txt "Input 'input_type' must be either 'query' or 'document'."))
  else
    try_except
      (fun w => (env_embed E (w_trace w) texts input_type,
                 log (EmbedCall texts input_type) w))
      (fun e => raise (RuntimeError "Embedding failed" e)).

Definition embed (config : EmbeddingConfig) (texts : list str) (input_type : str)
    : M (list (list Q)) :=
  retry 3 (wait_exponential 1 2 10) (embed_body config texts input_type).

(** [Document(...)] creates a new object. *)
Definition new_document (d : Document) : M loc :=
  fun w => (inr (w_next w),
            mkWorld (w_trace w)
              (fun l => if Nat.eqb l (w_next w) then d else w_heap w l)
              (S (w_next w))).

Definition has_metadata (m : index_match) : bool :=
  match match_metadata m with
  | Some md => negb (bool_decide (md = ∅))
  | None => false
  end.

Fixpoint new_documents (ms : list index_match) : M (list loc) :=
  match ms with
  | [] => ret []
  | m :: rest =>
      if has_metadata m then
        l <- new_document
               (mkDocument
                  (get_text (default ∅ (match_metadata m)) "text")
                  (match_metadata m) (Some (match_score m))) ;;
        ls <- new_documents rest ;;
        ret (l :: ls)
      else new_documents rest
  end.

(** The body of [RetrievalService.retrieve]. *)
Definition retrieve_body (config : RetrievalConfig) (query_embedding : list Q)
    : M (list loc) :=
  match query_embedding with
  | [] => raise (ValueError (txt "query_embedding must be a non-empty list of numbers."))
  | _ =>
      try_except
        (matches <- (fun w =>
                       (env_index_query E (w_trace w) query_embedding
                          (retrieval_top_k config),
                        log (IndexQuery query_embedding (retrieval_top_k config)) w)) ;;
         new_documents matches)
        (fun e => raise (RuntimeError "Retrieval failed" e))
  end.

Definition retrieve (config : RetrievalConfig) (query_embedding : list Q) : M (list loc) :=
  retry 3 (wait_exponential 1 2 10) (retrieve_body config query_embedding).

(** [CoTPromptTemplate._format_context_string] and [format]; the
    template is [pre {context} mid {query} post]. *)
Definition get_shown (md : gmap string value) (key : string) (dflt : str) : str :=
  match md !! key with
  | Some v => show_value E v
  | None => dflt
  end.

Definition context_block (d : Document) : str :=
  let md := metadata_or_empty d in
  let case_title := get_shown md "case_title" (txt "Unknown Case") in
  let media_neutral := get_shown md "media_neutral_citation" (txt "No Citation") in
  let chunk_sequence := get_shown md "chunk_sequence" (txt "N/A") in
  [LF; LF] ++ txt "--- Start of Context from Case: " ++ case_title ++ SP :: media_neutral
    ++ txt " ---" ++ [LF]
  ++ [LF] ++ txt "[Chunk " ++ chunk_sequence ++ txt "]" ++ LF :: content d ++ [LF]
  ++ txt "--- End of Context from Case: " ++ case_title ++ SP :: media_neutral
    ++ txt " ---" ++ [LF].

Definition _format_context_string (documents : list Document) : str :=
  strip (concat (map context_block documents)).

Definition cot_format (query : str) (documents : list Document) : str :=
  let '(pre, mid, post) := env_template E in
  pre ++ _format_context_string documents ++ mid ++ query ++ post.
End WithEnv.

End Services.
Export Services.

(** ** Pipeline orchestrator (pipeline/rag_pipeline.py) *)

Module Pipeline.

(** The five stages, in order. *)
Inductive stage := StEmbed | StRetrieve | StRerank | StGenerate | StFormat.

(** The message each stage puts in front of the failure it wraps. *)
Definition stage_failure (s : stage) : string :=
  match s with
  | StEmbed => "Embedding failed"
  | StRetrieve => "Retrieval failed"
  | StRerank => "Reranking failed"
  | StGenerate => "Generation failed"
  | StFormat => "Response formatting failed"
  end.

(** What [__init__] leaves in [self]. *)
Record pipeline := {
  embedding_config : EmbeddingConfig;
  retrieval_config : RetrievalConfig;
  reranker_config : RerankerConfig;
  response_config : ResponseConfig;
  llm_registry : list registered;
  model_id : str;
  max_tokens : Z
}.

(** One entry of ["documents"] in the result. *)
Record doc_view := {
  v_content : str;
  v_metadata : option (gmap string value);
  v_score : option Q
}.

(** The dictionary [run] returns. *)
Record result := mkResult {
  res_query : str;
  res_embedding : list Q;
  res_documents : list doc_view;
  res_final_answer : str;
  res_citations : list str
}.

Section WithEnv.
Context (E : env) (self : pipeline).

Definition stage_retry {A} (body : M A) : M A := retry 3 (wait_fixed 2) body.

Definition run_embedding (query : str) : M (list Q) :=
  stage_retry
    (if negb (nonempty query) then
       raise (ValueError (txt "Query must be a non-empty string."))
     else
       try_except
         (query_embedding <- embed E (embedding_config self) [query] (txt "query") ;;
          match query_embedding with
          | v :: _ => ret v
          | [] => raise (IndexError "list index out of range")
          end)
         (fun e => raise (RuntimeError (stage_failure StEmbed) e))).

Definition run_retrieval (query_embedding : list Q) : M (list loc) :=
  stage_retry
    (try_except
       (retrieve E (retrieval_config self) query_embedding)
       (fun e => raise (RuntimeError (stage_failure StRetrieve) e))).

Definition run_reranking (query : str) (documents : list loc) : M (list loc) :=
  stage_retry
    (try_except
       (rerank E (reranker_config self) query documents)
       (fun e => raise (RuntimeError (stage_failure StRerank) e))).

Definition run_generation (query : str) (documents : list loc) : M str :=
  stage_retry
    (try_except
       (w <- get_world ;;
        let prompt := cot_format E query (map (w_heap w) documents) in
        generate E (llm_registry self) prompt documents (model_id self) (max_tokens self))
       (fun e => raise (RuntimeError (stage_failure StGenerate) e))).

Definition run_response_formatting (query llm_output : str) (documents : list loc)
    : M response :=
  stage_retry
    (try_except
       (generate_response (response_config self) query llm_output documents)
       (fun e => raise (RuntimeError (stage_failure StFormat) e))).

Definition view (d : Document) : doc_view :=
  {| v_content := content d; v_metadata := metadata d; v_score := score d |}.

(** [EmbeddingRetrievalPipeline.run] *)
Definition run (query : str) : M result :=
  try_except
    (embedding <- run_embedding query ;;
     documents <- run_retrieval embedding ;;
     reranked_docs <- run_reranking query documents ;;
     llm_output <- run_generation query reranked_docs ;;
     formatted_response <- run_response_formatting query llm_output reranked_docs ;;
     w <- get_world ;;
     ret (mkResult (r_query formatted_response) embedding
            (map (fun l => view (w_heap w l)) reranked_docs)
            (r_final_answer formatted_response)
            (r_citations formatted_response)))
    (fun e => raise (RuntimeError "Pipeline failed" e)).
End WithEnv.

End Pipeline.
Export Pipeline.

(** ** The HTTP endpoint (main.py)

    The handler of [POST /api/query] and the user check it calls. The
    database client is an outside service like the others: its answers
    are read from an oracle and every request is recorded. Request
    validation and the resolution of the API-key dependency belong to
    the web framework and are not part of the handler's body. *)

Module Api.

(** What the handler can raise: [HTTPException], which the framework
    turns into an HTTP error, or any other exception. *)
Inductive api_exn :=
| HTTPException (status_code : nat) (detail : string)
| Raised (e : exn).

Record QueryRequest := { req_query : str; req_user_id : str }.

Record QueryResponse := mkQueryResponse {
  qr_final_answer : str;
  qr_citations : list str;
  qr_error : option str
}.

(** The row written to [chat_history]. *)
Record chat_data := mkChat {
  chat_user_id : str;
  chat_query : str;
  chat_response : str;
  chat_citations : list str;
  chat_tags : list str;
  chat_timestamp : str
}.

Inductive db_event :=
| SelectUser (user_id : str)
| InsertChat (row : chat_data).

(** The database: the rows a select of [users] returns (or the
    exception it raises), whether an insert raises; and [str(e)]. *)
Record api_env := {
  api_select_user : list db_event -> str -> exn + list str;
  api_insert_chat : list db_event -> chat_data -> option exn;
  api_str : exn -> str
}.

Record api_world := mkApiWorld {
  aw_world : world;
  aw_db : list db_event
}.

Section WithEnv.
Context (E : env) (A : api_env) (pipeline : Pipeline.pipeline).

(** [verify_user]: the 404 is raised inside the [try] block, whose
    handler catches every exception. *)
Definition verify_user (user_id : str) (aw : api_world) : (api_exn + str) * api_world :=
  let attempt : api_exn + str :=
    match api_select_user A (aw_db aw) user_id with
    | inl e => inl (Raised e)
    | inr data =>
        match data with
        | [] => inl (HTTPException 404 "User not found")
        | row :: _ => inr row
        end
    end in
  (match attempt with
   | inr row => inr row
   | inl _ => inl (HTTPException 500 "Internal server error")
   end,
   mkApiWorld (aw_world aw) (SelectUser user_id :: aw_db aw)).

(** [process_query], the handler's body. *)
Definition process_query (request : QueryRequest) (aw : api_world)
    : (api_exn + QueryResponse) * api_world :=
  let attempt : (api_exn + QueryResponse) * api_world :=
    match verify_user (req_user_id request) aw with
    | (inl e, aw1) => (inl e, aw1)
    | (inr _, aw1) =>
        match run E pipeline (req_query request) (aw_world aw1) with
        | (inl e, w2) => (inl (Raised e), mkApiWorld w2 (aw_db aw1))
        | (inr result, w2) =>
            let final_answer := res_final_answer result in
            let citations := res_citations result in
            let chat := mkChat (req_user_id request) (req_query request)
                          final_answer citations [] (txt "now()") in
            let aw3 := mkApiWorld w2 (InsertChat chat :: aw_db aw1) in
            match api_insert_chat A (aw_db aw1) chat with
            | Some e => (inl (Raised e), aw3)
            | None => (inr (mkQueryResponse final_answer citations None), aw3)
            end
        end
    end in
  match attempt with
  | (inr response, aw') => (inr response, aw')
  | (inl (HTTPException status_code detail), aw') =>
      (inl (HTTPException status_code detail), aw')
  | (inl (Raised e), aw') => (inr (mkQueryResponse [] [] (Some (api_str A e))), aw')
  end.
End WithEnv.

End Api.

(** ** Vocabulary of the specification

    The definitions below say, in the words of the specification, what
    the properties proved further down are about. *)

(** Text made of white space only. *)
Definition all_space (w : str) : Prop := Forall (fun c => is_space c = true) w.

(** The header that separates the reasoning from the final answer. *)
Definition HDR : str := txt "Final Answer:".

(** White space up to a line feed. *)
Fixpoint line_ends (s : str) : bool :=
  match s with
  | c :: r => Ascii.eqb c LF || (is_space c && line_ends r)
  | [] => false
  end.

(** [s] begins with a line that holds only the header: a line feed, the
    header with nothing but white space around it, and a line feed. *)
Definition header_line_here (s : str) : bool :=
  match s with
  | c :: r =>
      Ascii.eqb c LF && startswith HDR (lstrip r)
      && line_ends (drop (length HDR) (lstrip r))
  | [] => false
  end.

(** Some line of [s], not the first, holds only the header and is
    followed by a line feed. *)
Fixpoint has_header_line (s : str) : bool :=
  header_line_here s
  || match s with
     | _ :: r => has_header_line r
     | [] => false
     end.

(** The reasoning segment with a leading label removed. *)
Definition strip_label (x : str) : str :=
  if startswith (txt "Reasoning:") x
  then strip (drop (length (txt "Reasoning:")) x)
  else x.

(** Deleting the runs of two or more stars: [n] stars of the current run
    have been read; a run of exactly one star is kept. *)
Definition star : ascii := ascii_of_nat 42.
Definition is_star (c : ascii) : bool := chr_eq star c.

Fixpoint drop_star_runs (n : nat) (s : str) : str :=
  match s with
  | [] => if n =? 1 then [star] else []
  | c :: r =>
      if is_star c then drop_star_runs (S n) r
      else (if n =? 1 then [star] else []) ++ c :: drop_star_runs 0 r
  end.

Fixpoint skip_stars (s : str) : str :=
  match s with
  | c :: r => if is_star c then skip_stars r else s
  | [] => []
  end.

(** A passage's case title, its citation string (the citation
    identifier), and the citation text built from the two. *)
Definition case_title_of (d : Document) : str :=
  get_text (metadata_or_empty d) "case_title".
Definition citation_string_of (d : Document) : str :=
  get_text (metadata_or_empty d) "media_neutral_citation".
Definition citation (d : Document) : str :=
  citation_of (case_title_of d) (citation_string_of d).

(** A passage can be cited when it has both a title and a citation string. *)
Definition citable (d : Document) : bool :=
  nonempty (case_title_of d) && nonempty (citation_string_of d).

(** The model referenced a passage: its citation text or its case title
    occurs in the raw output. *)
Definition referenced (llm_output : str) (d : Document) : bool :=
  contains (citation d) llm_output || contains (case_title_of d) llm_output.

(** Keep, for each citation string, the first passage that carries it. *)
Fixpoint first_per_citation (ds : list Document) : list Document :=
  match ds with
  | [] => []
  | d :: rest =>
      d :: filter (fun e => citation_string_of e <> citation_string_of d)
             (first_per_citation rest)
  end.

(** The passages whose citations are listed: the referenced ones, or all
    of them when none is referenced. *)
Definition cited_passages (llm_output : str) (documents : list Document)
    : list Document :=
  match first_per_citation
          (filter (fun d => citable d && referenced llm_output d = true) documents) with
  | [] => first_per_citation (filter (fun d => citable d = true) documents)
  | mentioned => mentioned
  end.

(** One pass of the citation loop, for a selection test [sel]. *)
Definition pass_step (sel : Document -> bool) (st : cite_state) (d : Document)
    : cite_state :=
  if citable d && bool_decide (citation_string_of d ∉ st.2) && sel d
  then (st.1 ++ [citation d], st.2 ∪ {[citation_string_of d]})
  else st.

(** [a <= b] and [a == b] on floats. *)
Definition float_le (a b : pyfloat) : bool :=
  match a, b with
  | NaN, _ | _, NaN => false
  | Num x, Num y => Qle_bool x y
  | NegInf, _ => true
  | _, PosInf => true
  | _, _ => false
  end.

Definition float_eq (a b : pyfloat) : bool :=
  match a, b with
  | Num x, Num y => Qeq_bool x y
  | PosInf, PosInf => true
  | NegInf, NegInf => true
  | _, _ => false
  end.

(** Descending order of scores, and the passages of one score. *)
Definition desc {A} (key : A -> pyfloat) (x y : A) : Prop :=
  float_le (key y) (key x) = true.
Definition has_key {A} (key : A -> pyfloat) (v : pyfloat) (x : A) : Prop :=
  float_eq (key x) v = true.

#[global] Instance has_key_dec {A} (key : A -> pyfloat) v x : Decision (has_key key v x).
Proof. unfold has_key. apply _. Defined.

(** None of the scores is NaN. *)
Definition numbers {A} (key : A -> pyfloat) (l : list A) : Prop :=
  Forall (fun x => is_nan (key x) = false) l.

(** A passage carries [metadata.rerank_score] as a float. *)
Definition scored (d : Document) : Prop :=
  exists md x, metadata d = Some md /\ md !! "rerank_score" = Some (VFloat x).

(** The pairs handed to the scoring model. *)
Definition pairs_of (query : str) (documents : list loc) (w : world)
    : list (str * str) :=
  map (fun l => (query, content (w_heap w l))) documents.

(** The world after two sleeps of two seconds. *)
Definition slept_twice (w : world) : world := log (Sleep 2) (log (Sleep 2) w).

Definition is_rand (ev : event) : bool :=
  match ev with RandBelow _ _ => true | _ => false end.

(** The arguments of [generate] pass its own checks. *)
Definition valid_call (query model_id : str) (max_tokens : Z) : Prop :=
  nonempty query = true /\ nonempty model_id = true /\ (0 < max_tokens)%Z.

Definition call_event (p : registered) (sys usr : str) (mt : Z) : event :=
  ProviderCall (entry_config p) sys usr mt.

(** The world after the candidates [ps] have been called in turn. *)
Definition called (ps : list registered) (sys usr : str) (mt : Z) (w : world) : world :=
  fold_left (fun w p => log (call_event p sys usr mt) w) ps w.

(** A non-empty response. *)
Definition usable (rp : reply) : option str :=
  match rp with
  | Returns (Some r) => if nonempty r then Some r else None
  | _ => None
  end.

(** A non-empty response that contains the header. *)
Definition accepted (rp : reply) : option str :=
  match usable rp with
  | Some r => if contains (txt "Final Answer:") r then Some r else None
  | None => None
  end.

(** Position and text of the first accepted response. *)
Fixpoint first_accepted (rs : list reply) : option (nat * str) :=
  match rs with
  | [] => None
  | rp :: rest =>
      match accepted rp with
      | Some r => Some (0, r)
      | None =>
          match first_accepted rest with
          | Some (i, r) => Some (S i, r)
          | None => None
          end
      end
  end.

(** The first non-empty response. *)
Fixpoint first_usable (rs : list reply) : option str :=
  match rs with
  | [] => None
  | rp :: rest =>
      match usable rp with
      | Some r => Some r
      | None => first_usable rest
      end
  end.

Section Observations.
Context (E : env).

(** The reply each candidate gives when the candidates are called one
    after the other, starting from trace [tr]. *)
Fixpoint reply_seq (ps : list registered) (sys usr : str) (mt : Z) (tr : list event)
    : list reply :=
  match ps with
  | [] => []
  | p :: rest =>
      env_provider E tr (entry_config p) sys usr mt
        :: reply_seq rest sys usr mt (call_event p sys usr mt :: tr)
  end.

(** One traversal of the candidates as the specification describes it:
    stop at the first accepted response; otherwise call every candidate
    and fall back on the first non-empty response. *)
Definition traversal (ps : list registered) (sys usr : str) (mt : Z)
    (best : option str) (w : world) : (exn + str) * world :=
  let rs := reply_seq ps sys usr mt (w_trace w) in
  match first_accepted rs with
  | Some (i, r) => (inr r, called (take (S i) ps) sys usr mt w)
  | None =>
      (match (if truthy best then best else first_usable rs) with
       | Some r => inr r
       | None => inl (RuntimeErrorMsg all_failed_msg)
       end,
       called ps sys usr mt w)
  end.

Context (self : pipeline).

(** How far a run of the pipeline gets. *)
Inductive progress :=
| FailedAt (s : stage)
| Completed (embedding : list Q) (reranked_docs : list loc)
    (formatted_response : response) (w' : world).

Definition progress_of (query : str) (w : world) : progress :=
  match run_embedding E self query w with
  | (inl _, _) => FailedAt StEmbed
  | (inr embedding, w1) =>
      match run_retrieval E self embedding w1 with
      | (inl _, _) => FailedAt StRetrieve
      | (inr documents, w2) =>
          match run_reranking E self query documents w2 with
          | (inl _, _) => FailedAt StRerank
          | (inr reranked_docs, w3) =>
              match run_generation E self query reranked_docs w3 with
              | (inl _, _) => FailedAt StGenerate
              | (inr llm_output, w4) =>
                  match run_response_formatting self query llm_output reranked_docs w4 with
                  | (inl _, _) => FailedAt StFormat
                  | (inr formatted_response, w5) =>
                      Completed embedding reranked_docs formatted_response w5
                  end
              end
          end
      end
  end.
End Observations.

(** The failure [run] raises names stage [s]: it wraps what the retry
    decorator of that stage raised, which wraps the stage's own failure. *)
Definition names_stage (s : stage) (e : exn) : Prop :=
  exists cause,
    e = RuntimeError "Pipeline failed" (RetryError (RuntimeError (stage_failure s) cause)).

(** ** Further vocabulary *)

(** [w'] is [w] after more events, each of them satisfying [P]; the
    store is the same. *)
Definition extends (P : event -> Prop) (w w' : world) : Prop :=
  exists evs, w_trace w' = evs ++ w_trace w /\ Forall P evs /\
    w_heap w' = w_heap w /\ w_next w' = w_next w.

(** The context [generate] puts in the system prompt ([] when building
    it raises). *)
Definition context_of (E : env) (ds : list Document) : str :=
  match context_entries E 0 ds with
  | inr entries => join [LF; LF] entries
  | inl _ => []
  end.

(** What [generate] may do to the outside: sleep, draw random numbers,
    and call a registered provider of [model_id] with the given prompts. *)
Definition router_event (registry : list registered) (model_id sys usr : str) (mt : Z)
    (ev : event) : Prop :=
  match ev with
  | Sleep _ | RandBelow _ _ => True
  | ProviderCall p s u m =>
      (exists r, r ∈ registry /\ reg_model_name r = model_id /\ p = entry_config r)
      /\ s = sys /\ u = usr /\ m = mt
  | _ => False
  end.

(** The provider calls and the sleeps of a trace. *)
Definition provider_calls (tr : list event) : list event := List.filter is_provider_call tr.
Definition is_sleep (ev : event) : bool :=
  match ev with Sleep _ => true | _ => false end.
Definition sleeps (tr : list event) : list event := List.filter is_sleep tr.

(** A configuration entry [_initialize_clients] can use: its API key is
    set, its provider is one of the four, and its client could be built. *)
Definition configured (E : env) (c : provider_config) : bool :=
  truthy (env_getenv E (upper (provider c) ++ txt "_API_KEY"))
  && match kind_of (provider c) with Some _ => true | None => false end
  && match env_client_init E (provider c) with None => true | Some _ => false end.

Definition no_valid_providers : exn :=
  ValueError (txt "No valid LLM providers configured. Check .env and config.yaml.").

(** A passage after the reranker has written score [x] into it. *)
Definition scored_with (d : Document) (x : pyfloat) : Document :=
  mkDocument (content d)
    (Some (<["rerank_score" := VFloat x]> (metadata_or_empty d))) (score d).

(** The score the loop over [zip(documents, scores)] leaves in the
    passage at [l]: the one of its last occurrence. *)
Fixpoint score_of (zipped : list (loc * pyfloat)) (l : loc) : option pyfloat :=
  match zipped with
  | [] => None
  | (l', x) :: rest =>
      match score_of rest l with
      | Some y => Some y
      | None => if Nat.eqb l l' then Some x else None
      end
  end.

(** The number of passages Python's [l[:n]] keeps of [m]. *)
Definition slice_length (n m : Z) : Z :=
  if (0 <=? n)%Z then Z.min n m else Z.max 0 (m + n).

(** A text as the formatter hands it out: no white space around it and
    no two stars in a row. *)
Definition tidy (s : str) : Prop :=
  strip s = s /\ contains (txt "**") s = false.

(** The same text with Windows line ends: every line feed becomes
    carriage return, line feed. *)
Fixpoint to_crlf (s : str) : str :=
  match s with
  | [] => []
  | c :: r => if Ascii.eqb c LF then CR :: LF :: to_crlf r else c :: to_crlf r
  end.

(** The letter R, in either case: what the fallback pattern does not
    accept as the first character after the answer's line. *)
Definition is_letter_r (c : ascii) : bool :=
  Ascii.eqb c "R"%char || Ascii.eqb c "r"%char.

(** The passage [retrieve] builds from a match of the index. *)
Definition passage_of (m : index_match) : Document :=
  mkDocument (get_text (default ∅ (match_metadata m)) "text")
    (match_metadata m) (Some (match_score m)).

(** An entry of ["documents"] in the result, read as a passage. *)
Definition doc_of_view (v : doc_view) : Document :=
  mkDocument (v_content v) (v_metadata v) (v_score v).

(** What the embedding stage raises for an input the embedding client
    rejects. *)
Definition texts_rejected : exn :=
  ValueError (txt "Input 'texts' must be a non-empty list of non-empty strings.").

(** The world after [n] more sleeps of two seconds. *)
Definition slept (n : nat) (w : world) : world := Nat.iter n (log (Sleep 2)) w.

(** The events of one call of the embedding client when the service
    fails three times, latest first. *)
Definition failed_embed_attempts (query : str) : list event :=
  let call := EmbedCall [query] (txt "query") in
  [call; Sleep 2; call; Sleep 2; call].

Definition any_event : event -> Prop := fun _ => True.

(** The scoring model never returns NaN. *)
Definition scores_are_numbers (E : env) : Prop :=
  forall tr pairs scores,
    env_predict E tr pairs = inr scores -> Forall (fun x => is_nan x = false) scores.

(** [self.model_id] as [EmbeddingRetrievalPipeline.__init__] sets it: the
    model name of the first entry of the configuration, whether or not
    that entry could be registered; [None] when [__init__] raises for
    want of one. *)
Definition configured_model_id (config : LLMConfig) : option str :=
  match providers config with
  | c :: _ => if nonempty (model_name c) then Some (model_name c) else None
  | [] => None
  end.

Definition dash : ascii := "-"%char.

(** A text that starts with two line feeds and a dash and ends with a
    dash and a line feed. *)
Definition framed (l : str) : Prop :=
  exists body, l = [LF; LF] ++ (dash :: body ++ [dash]) ++ [LF].

(** ** A concrete scenario

    Five passages in the index, a reranker keeping three, two providers
    registered for one model; the first provider call of a run times
    out, later calls answer with both headers. *)

Module Scenario.

Definition meta (title cite : string) : gmap string value :=
  <["case_title" := VStr (txt title)]>
    (<["media_neutral_citation" := VStr (txt cite)]>
       (<["text" := VStr (txt title)]> ∅)).

Definition doc (title cite : string) : Document :=
  mkDocument (txt title) (Some (meta title cite)) None.

Definition hit (title cite : string) (s : Q) : index_match :=
  {| match_metadata := Some (meta title cite); match_score := s |}.

Definition index0 : list index_match :=
  [hit "Foss v Harbottle" "[1843] 67 ER 189" (9 # 10);
   hit "Edwards v Halliwell" "[1950] 2 All ER 1064" (8 # 10);
   hit "Burland v Earle" "[1902] AC 83" (7 # 10);
   {| match_metadata := None; match_score := 6 # 10 |};
   hit "Prudential v Newman" "[1982] Ch 204" (5 # 10);
   hit "Smith v Croft" "[1988] Ch 114" (4 # 10)].

Definition answer0 : str :=
  py "Reasoning:\nIn Edwards v Halliwell the court set out the **exceptions**.\nFinal Answer:\nFraud on the minority is the exception, see Foss v Harbottle [1843] 67 ER 189.".

Definition groq_m : registered := {| reg_model_name := txt "m"; reg_provider := Groq |}.
Definition openai_m : registered := {| reg_model_name := txt "m"; reg_provider := OpenAI |}.
Definition together_n : registered := {| reg_model_name := txt "n"; reg_provider := Together |}.
Definition registry0 : list registered := [groq_m; together_n; openai_m].

Definition env0 : env := {|
  env_randbelow := fun _ _ => 0;
  env_provider := fun tr _ _ _ _ =>
    if existsb is_provider_call tr then Returns (Some answer0)
    else Raises (ServiceError (txt "timeout"));
  env_predict := fun _ pairs =>
    inr (take (length pairs) [Num (1 # 2); Num 3; Num 3; Num 2; Num (1 # 3)]);
  env_embed := fun _ texts _ => inr (map (fun _ => [1 # 1; 0 # 1]) texts);
  env_index_query := fun _ _ _ => inr index0;
  env_getenv := fun _ => Some (txt "key");
  env_client_init := fun _ => None;
  env_float_repr := fun _ => txt "1.0";
  env_template := (txt "CONTEXT: ", txt " QUERY: ", txt " END");
  env_sorted_nan := fun _ => []
|}.

(** Four passages already in the store, at references 0 to 3. *)
Definition heap0 : loc -> Document :=
  fun l =>
    match l with
    | 0 => doc "Foss v Harbottle" "[1843] 67 ER 189"
    | 1 => doc "Edwards v Halliwell" "[1950] 2 All ER 1064"
    | 2 => doc "Burland v Earle" "[1902] AC 83"
    | 3 => doc "Edwards v Halliwell" "[1950] 2 All ER 1064"
    | _ => mkDocument [] None None
    end.

Definition w0 : world := mkWorld [] heap0 4.

Definition pipeline0 : pipeline := {|
  embedding_config := {| embedding_model_name := txt "voyage-law-2" |};
  retrieval_config := {| pinecone_index_name := txt "cases"; retrieval_top_k := 5 |};
  reranker_config := {| reranker_model_name := txt "cross-encoder"; top_n := 3 |};
  response_config := {| max_citations := 2 |};
  llm_registry := registry0;
  model_id := txt "m";
  max_tokens := 2048
|}.

Definition query0 : str := txt "What is the exception to the rule in Foss v Harbottle?".

(** The prompts [generate] builds for the passages at references 0 and 1. *)
Definition entries0 : list str :=
  match context_entries env0 0 (map heap0 [0; 1]) with
  | inr x => x
  | inl _ => []
  end.
Definition sys0 : str := system_prompt_of (join [LF; LF] entries0).
Definition usr0 : str := user_prompt_of query0.

End Scenario.

(** ** Further cases

    The scenario with every outside service down, the scenario with an
    index whose matches have no metadata, a configuration whose first
    entry has no API key, and a database with one user. *)

Module Cases.
Import Scenario.

Definition down : exn := ServiceError (txt "down").

Definition env_down : env := {|
  env_randbelow := fun _ _ => 0;
  env_provider := fun _ _ _ _ _ => Raises down;
  env_predict := fun _ _ => inl down;
  env_embed := fun _ _ _ => inl down;
  env_index_query := fun _ _ _ => inl down;
  env_getenv := fun name =>
    if bool_decide (name = txt "OPENAI_API_KEY") then Some (txt "key") else None;
  env_client_init := fun _ => None;
  env_float_repr := fun _ => txt "1.0";
  env_template := (txt "CONTEXT: ", txt " QUERY: ", txt " END");
  env_sorted_nan := fun _ => []
|}.

Definition env_bare : env := {|
  env_randbelow := env_randbelow env0;
  env_provider := env_provider env0;
  env_predict := env_predict env0;
  env_embed := env_embed env0;
  env_index_query := fun _ _ _ =>
    inr [{| match_metadata := None; match_score := 9 # 10 |};
         {| match_metadata := Some ∅; match_score := 8 # 10 |}];
  env_getenv := env_getenv env0;
  env_client_init := env_client_init env0;
  env_float_repr := env_float_repr env0;
  env_template := env_template env0;
  env_sorted_nan := env_sorted_nan env0
|}.

Definition scores0 : list pyfloat := [Num (1 # 2); Num 3; Num 3; Num 2].

(** The scenario with a scoring model whose second score is NaN; for the
    keys 1, NaN, 2 [sorted] leaves the list as it is. *)
Definition env_nan : env := {|
  env_randbelow := env_randbelow env0;
  env_provider := env_provider env0;
  env_predict := fun _ pairs => inr (take (length pairs) [Num 1; NaN; Num 2]);
  env_embed := env_embed env0;
  env_index_query := env_index_query env0;
  env_getenv := env_getenv env0;
  env_client_init := env_client_init env0;
  env_float_repr := env_float_repr env0;
  env_template := env_template env0;
  env_sorted_nan := fun _ => []
|}.

Definition config_ab : LLMConfig := {|
  providers := [{| provider := txt "groq"; model_name := txt "a" |};
                {| provider := txt "openai"; model_name := txt "b" |}]
|}.

Definition openai_b : registered := {| reg_model_name := txt "b"; reg_provider := OpenAI |}.

Definition db0 : Api.api_env := {|
  Api.api_select_user := fun _ user_id =>
    inr (if bool_decide (user_id = txt "u1") then [user_id] else []);
  Api.api_insert_chat := fun _ _ => None;
  Api.api_str := fun _ => txt "error"
|}.

Definition aw0 : Api.api_world := Api.mkApiWorld w0 [].

End Cases.

(** * Properties *)

Section StringFacts.
Implicit Types s w : str.

Lemma lstrip_app_space w s : all_space w -> lstrip (w ++ s) = lstrip s.
Proof. induction 1 as [|c w Hc _ IH]; simpl; [done|]. by rewrite Hc. Qed.

Lemma lstrip_all_space w : all_space w -> lstrip w = [].
Proof. intros H. rewrite <- (app_nil_r w). rewrite lstrip_app_space; done. Qed.

Lemma all_space_rev w : all_space w -> all_space (rev w).
Proof. apply List.Forall_rev. Qed.

Lemma rstrip_app_space s w : all_space w -> rstrip (s ++ w) = rstrip s.
Proof.
  intros H. unfold rstrip. rewrite rev_app_distr.
  rewrite lstrip_app_space; [done | by apply all_space_rev].
Qed.

Lemma lstrip_cases s :
  lstrip s = [] /\ all_space s \/
  exists w c r, s = w ++ c :: r /\ all_space w /\ is_space c = false /\ lstrip s = c :: r.
Proof.
  induction s as [|c s IH]; simpl.
  - left. split; [done | constructor].
  - destruct (is_space c) eqn:Hc.
    + destruct IH as [[H1 H2] | (w & d & r & -> & Hw & Hd & Hl)].
      * left. split; [done | by constructor].
      * right. exists (c :: w), d, r. split_and!; try done. by constructor.
    + right. exists [], c, s. split_and!; try done. constructor.
Qed.

Lemma rstrip_app_nonspace w s :
  rstrip s <> [] -> rstrip (w ++ s) = w ++ rstrip s.
Proof.
  unfold rstrip. intros Hne. rewrite rev_app_distr.
  destruct (lstrip_cases (rev s)) as [[H1 _] | (u & c & r & Hs & Hu & Hc & Hl)].
  - rewrite H1 in Hne. done.
  - rewrite Hl. rewrite Hs.
    replace ((u ++ c :: r) ++ rev w) with (u ++ (c :: r ++ rev w))
      by (by rewrite <- app_assoc).
    rewrite lstrip_app_space by done. simpl. rewrite Hc.
    change (c :: r ++ rev w) with ((c :: r) ++ rev w).
    rewrite rev_app_distr, rev_involutive. done.
Qed.

Lemma rstrip_all_space w : all_space w -> rstrip w = [].
Proof. intros H. unfold rstrip. rewrite lstrip_all_space; [done | by apply all_space_rev]. Qed.

Lemma strip_app_space_r s w : all_space w -> strip (s ++ w) = strip s.
Proof. intros H. unfold strip. by rewrite rstrip_app_space. Qed.

Lemma strip_app_space_l w s : all_space w -> strip (w ++ s) = strip s.
Proof.
  intros H. unfold strip.
  destruct (decide (rstrip s = [])) as [He | Hne].
  - rewrite He. simpl.
    assert (all_space s) as Hs.
    { unfold rstrip in He. apply (f_equal (@rev ascii)) in He.
      rewrite rev_involutive in He. simpl in He.
      destruct (lstrip_cases (rev s)) as [[_ H2] | (u & c & r & _ & _ & _ & Hl)].
      - apply all_space_rev in H2. by rewrite rev_involutive in H2.
      - congruence. }
    rewrite rstrip_all_space; [done|]. by apply Forall_app.
  - rewrite rstrip_app_nonspace by done. by apply lstrip_app_space.
Qed.
End StringFacts.

(** [strip] removes the white space around a text, and nothing else. *)
Lemma strip_spec s :
  exists w1 w2, s = w1 ++ strip s ++ w2 /\ all_space w1 /\ all_space w2 /\
    (forall c r, strip s = c :: r -> is_space c = false) /\
    (forall r c, strip s = r ++ [c] -> is_space c = false).
Proof.
  unfold strip, rstrip.
  destruct (lstrip_cases (rev s)) as [[H1 H2] | (u & c & r & Hs & Hu & Hc & Hl)].
  - rewrite H1. cbn. exists s, []. rewrite app_nil_r.
    apply all_space_rev in H2. rewrite rev_involutive in H2.
    split_and!; try done.
    + constructor.
    + intros [|? ?] ? ?; discriminate.
  - rewrite Hl.
    assert (s = rev (c :: r) ++ rev u) as Hs'.
    { apply (f_equal (@rev ascii)) in Hs.
      by rewrite rev_involutive, rev_app_distr in Hs. }
    destruct (lstrip_cases (rev (c :: r))) as [[_ H2] | (w & c' & r' & Hw & Hws & Hc' & Hl')].
    + exfalso. apply all_space_rev in H2. rewrite rev_involutive in H2.
      inversion H2; congruence.
    + rewrite Hl'. exists w, (rev u). split_and!.
      * rewrite Hs', Hw. by rewrite <- app_assoc.
      * done.
      * by apply all_space_rev.
      * by intros ? ? [= <- <-].
      * intros x d Hx. cbn [rev] in Hw. rewrite Hx in Hw.
        rewrite app_assoc in Hw. apply app_inj_tail in Hw as [_ ->]. done.
Qed.

Section EngineFacts.
Context {R : Type}.
Implicit Types (s w : str) (k : str -> option R).

Lemma star_greedy_sound p s k x :
  star_greedy p s k = Some x ->
  exists w s', s = w ++ s' /\ Forall (fun c => p c = true) w /\ k s' = Some x.
Proof.
  induction s as [|c s IH]; simpl; intros H.
  - exists [], []. by split_and!.
  - destruct (p c) eqn:Hp.
    + destruct (star_greedy p s k) eqn:Hg.
      * destruct (IH H) as (w & s' & -> & Hw & Hk).
        injection H as <-.
        exists (c :: w), s'. split_and!; try done. by constructor.
      * exists [], (c :: s). by split_and!.
    + exists [], (c :: s). by split_and!.
Qed.

Lemma star_greedy_complete p w s' k :
  Forall (fun c => p c = true) w -> is_Some (k s') -> is_Some (star_greedy p (w ++ s') k).
Proof.
  intros Hw Hk. induction Hw as [|c w Hc _ IH]; simpl.
  - destruct s' as [|c s']; simpl; [done|].
    destruct (p c); [|done]. by destruct (star_greedy p s' k).
  - rewrite Hc. destruct IH as [x ->]. done.
Qed.

Lemma star_lazy_sound p s k x :
  star_lazy p s k = Some x ->
  exists w s', s = w ++ s' /\ Forall (fun c => p c = true) w /\ k s' = Some x.
Proof.
  induction s as [|c s IH]; simpl; intros H.
  - destruct (k []) eqn:Hk; [|done]. exists [], []. by split_and!; [| |congruence].
  - destruct (k (c :: s)) eqn:Hk.
    + exists [], (c :: s). split_and!; try done. congruence.
    + destruct (p c) eqn:Hp; [|done].
      destruct (IH H) as (w & s' & -> & Hw & Hk').
      exists (c :: w), s'. split_and!; try done. by constructor.
Qed.

Lemma mt_lit l s g (k : str -> option str -> option R) :
  mt (lit l) s g k =
  if startswith l s then k (drop (length l) s) g else None.
Proof.
  revert s. induction l as [|a l IH]; intros s; simpl.
  - by rewrite drop_0.
  - destruct s as [|b s]; simpl; [done|].
    unfold chr_eq at 1. destruct (Ascii.eqb a b) eqn:Hab; simpl; [|done].
    apply IH.
Qed.

Lemma startswith_spec l s :
  startswith l s = true <-> exists r, s = l ++ r.
Proof.
  revert s. induction l as [|a l IH]; intros s; simpl.
  - split; [by exists s | done].
  - destruct s as [|b s]; simpl.
    + split; [done | by intros [r Hr]].
    + rewrite andb_true_iff, Ascii.eqb_eq, IH. split.
      * intros [-> [r ->]]. by exists r.
      * intros [r Hr]. injection Hr as -> ->. split; [done | by exists r].
Qed.

(** Every successful match ends by calling the continuation on a
    suffix of the text. *)
Lemma mt_suffix r : forall s g (k : str -> option str -> option R) x,
  mt r s g k = Some x ->
  exists a s' g', s = a ++ s' /\ k s' g' = Some x.
Proof.
  induction r as [|p|r1 IH1 r2 IH2|r1 IH1 r2 IH2|p|p|r1 IH1|r1 IH1|r1 IH1|];
    intros s g k x H; simpl in H.
  - by exists [], s, g.
  - destruct s as [|c s]; [done|]. destruct (p c); [|done].
    by exists [c], s, g.
  - apply IH1 in H as (a & s1 & g1 & -> & H).
    apply IH2 in H as (b & s2 & g2 & -> & H).
    exists (a ++ b), s2, g2. by rewrite <- app_assoc.
  - destruct (mt r1 s g k) eqn:H1.
    + injection H as <-. by apply IH1 in H1.
    + by apply IH2 in H.
  - apply star_greedy_sound in H as (w & s' & -> & _ & H). by exists w, s', g.
  - apply star_lazy_sound in H as (w & s' & -> & _ & H). by exists w, s', g.
  - destruct (mt r1 s g k) eqn:H1.
    + injection H as <-. by apply IH1 in H1.
    + by exists [], s, g.
  - apply IH1 in H as (a & s1 & g1 & -> & H). by eexists a, s1, _.
  - destruct (mt r1 s g (fun _ g' => Some g')) eqn:H1; [|done].
    by exists [], s, o.
  - destruct (at_end s); [|done]. by exists [], s, g.
Qed.
End EngineFacts.

Section SearchFacts.
Implicit Types (s a b : str).

Lemma search_from_sound r pre s m :
  search_from r pre s = Some m ->
  exists a b, s = a ++ b /\ m_before m = rev pre ++ a /\
    match_here r b = Some (m_after m, m_group1 m) /\
    (forall a' b', s = a' ++ b' -> length a' < length a -> match_here r b' = None).
Proof.
  revert pre. induction s as [|c s IH]; intros pre; simpl.
  - destruct (match_here r []) as [[s' g]|] eqn:Hm; [|done].
    intros [= <-]. exists [], []. simpl. rewrite app_nil_r.
    split_and!; try done. intros a' b' _ Hl. simpl in Hl. lia.
  - destruct (match_here r (c :: s)) as [[s' g]|] eqn:Hm.
    + intros [= <-]. exists [], (c :: s). simpl. rewrite app_nil_r.
      split_and!; try done. intros a' b' _ Hl. simpl in Hl. lia.
    + intros H. apply IH in H as (a & b & -> & Hb & Hmt & Hmin).
      exists (c :: a), b. split_and!; try done.
      * rewrite Hb. simpl. by rewrite <- app_assoc.
      * intros a' b' Heq Hl. destruct a' as [|c' a'].
        -- simpl in Heq. by subst b'.
        -- simpl in Heq. injection Heq as -> Heq.
           apply (Hmin a' b' Heq). simpl in Hl. lia.
Qed.

Lemma search_from_complete r pre a b :
  is_Some (match_here r b) -> is_Some (search_from r pre (a ++ b)).
Proof.
  intros Hb. revert pre. induction a as [|c a IH]; intros pre; simpl.
  - destruct b as [|c b]; simpl; destruct Hb as [[s' g] ->]; done.
  - destruct (match_here r (c :: a ++ b)) as [[s' g]|]; [done|]. apply IH.
Qed.

Lemma search_from_none r pre s :
  (forall a b, s = a ++ b -> match_here r b = None) -> search_from r pre s = None.
Proof.
  revert pre. induction s as [|c s IH]; intros pre H; simpl.
  - by rewrite (H [] []).
  - rewrite (H [] (c :: s)) by done. apply IH.
    intros a b ->. by apply (H (c :: a) b).
Qed.
End SearchFacts.


Lemma chr_eq_true c d : chr_eq c d = true <-> d = c.
Proof. unfold chr_eq. rewrite Ascii.eqb_eq. split; congruence. Qed.

Lemma startswith_app l r : startswith l (l ++ r) = true.
Proof. apply startswith_spec. by exists r. Qed.

(** [re.sub] of the star pattern deletes the runs of two or more stars. *)
Lemma star_greedy_always {R : Type} p s (f : str -> R) :
  star_greedy p s (fun s' => Some (f s'))
  = Some (f ((fix skip s := match s with c :: r => if p c then skip r else s | [] => [] end) s)).
Proof.
  induction s as [|c s IH]; [done|]. cbn [star_greedy].
  destruct (p c); [|done]. by rewrite IH.
Qed.

Lemma match_here_stars s :
  match_here re_stars s =
  match s with
  | c1 :: c2 :: r =>
      if is_star c1 && is_star c2 then Some (skip_stars r, None) else None
  | _ => None
  end.
Proof.
  unfold match_here, re_stars. cbn [cats mt]. fold star.
  change (chr_eq star) with is_star.
  destruct s as [|c1 [|c2 r]]; [done|by destruct (is_star c1)|].
  destruct (is_star c1); [|done]. destruct (is_star c2); [|done]. cbn [andb].
  apply (star_greedy_always is_star r (fun s' => (s', None))).
Qed.

Lemma skip_stars_length s : length (skip_stars s) <= length s.
Proof. induction s as [|c s IH]; simpl; [done|]. destruct (is_star c); simpl; lia. Qed.

Lemma drop_star_runs_skip n s :
  2 <= n -> drop_star_runs n s = drop_star_runs 0 (skip_stars s).
Proof.
  revert n. induction s as [|c s IH]; intros n Hn.
  - simpl. destruct n as [|[|n]]; [lia|lia|done].
  - cbn [drop_star_runs skip_stars]. destruct (is_star c) eqn:Hc.
    + apply IH. lia.
    + cbn [drop_star_runs]. rewrite Hc. destruct n as [|[|n]]; [lia|lia|done].
Qed.

Lemma is_star_eq c : is_star c = true -> c = star.
Proof. unfold is_star. by intros ?%chr_eq_true. Qed.

Lemma sub_empty_fuel_stars n : forall s,
  length s < n -> sub_empty_fuel n re_stars s = drop_star_runs 0 s.
Proof.
  induction n as [|n IH]; intros s Hs; [lia|].
  cbn [sub_empty_fuel]. rewrite match_here_stars.
  destruct s as [|c1 [|c2 r]]; [done| |]; cbn [length] in Hs.
  - rewrite IH by (cbn [length]; lia). cbn.
    destruct (is_star c1) eqn:H1; [|done]. by apply is_star_eq in H1 as ->.
  - cbn [drop_star_runs].
    destruct (is_star c1) eqn:H1; cbn [andb].
    + destruct (is_star c2) eqn:H2.
      * pose proof (skip_stars_length r) as Hl.
        replace (length (skip_stars r) <? length (c1 :: c2 :: r)) with true
          by (symmetry; apply Nat.ltb_lt; cbn [length]; lia).
        rewrite IH by lia. symmetry. by apply drop_star_runs_skip.
      * rewrite IH by (cbn [length]; lia).
        cbn [drop_star_runs]. rewrite H2. cbn.
        by apply is_star_eq in H1 as ->.
    + rewrite IH by (cbn [length]; lia). cbn [drop_star_runs]. done.
Qed.

Lemma clean_markdown_spec x : clean_markdown x = strip (drop_star_runs 0 x).
Proof. unfold clean_markdown, sub_empty. by rewrite sub_empty_fuel_stars by lia. Qed.

Lemma header_sound s r g :
  match_here re_final_answer_line s = Some (r, g) ->
  exists w1 w2, s = LF :: w1 ++ HDR ++ w2 ++ LF :: r /\ all_space w1 /\ all_space w2.
Proof.
  unfold match_here, re_final_answer_line. cbn [cats mt]. intros H.
  destruct s as [|c s1]; [done|].
  destruct (chr_eq LF c) eqn:Hc; [|done]. apply chr_eq_true in Hc as ->.
  apply star_greedy_sound in H as (w1 & s2 & -> & Hw1 & H).
  rewrite mt_lit in H.
  destruct (startswith (txt "Final Answer:") s2) eqn:Hs; [|done].
  apply startswith_spec in Hs as [s3 ->].
  rewrite drop_app_length in H.
  apply star_greedy_sound in H as (w2 & s4 & -> & Hw2 & H).
  destruct s4 as [|c' s5]; [done|].
  destruct (chr_eq LF c') eqn:Hc'; [|done]. apply chr_eq_true in Hc' as ->.
  injection H as <- <-.
  by exists w1, w2.
Qed.

Lemma header_complete w1 w2 r :
  all_space w1 -> all_space w2 ->
  is_Some (match_here re_final_answer_line (LF :: w1 ++ HDR ++ w2 ++ LF :: r)).
Proof.
  intros H1 H2. unfold match_here, re_final_answer_line. cbn [cats mt].
  replace (chr_eq LF LF) with true by done.
  apply star_greedy_complete; [done|].
  rewrite mt_lit. fold HDR. rewrite startswith_app, drop_app_length.
  apply star_greedy_complete; [done|]. simpl. done.
Qed.

(** The header text begins with a letter and has no line break. *)
Lemma hdr_prefix_cases (k x y : str) :
  HDR ++ x = k ++ y -> k = [] \/ (exists k', k = ascii_of_nat 70 :: k').
Proof.
  destruct k as [|c k]; [by left|]. simpl. intros [= <- _]. right. by eexists.
Qed.

Lemma hdr_no_lf (k x y : str) :
  HDR ++ x = k ++ LF :: y -> exists k', k = HDR ++ k'.
Proof.
  unfold HDR. simpl.
  do 13 (destruct k as [|? k]; simpl; [intros [=]|intros [= <- H]; revert H]).
  intros _. by exists k.
Qed.

Lemma is_space_F : is_space (ascii_of_nat 70) = false.
Proof. reflexivity. Qed.
Lemma contains_app p a b : contains p b = true -> contains p (a ++ b) = true.
Proof.
  intros H. induction a as [|c a IH]; simpl; [done|].
  rewrite IH. by rewrite orb_true_r.
Qed.

Lemma contains_prefix p r : contains p (p ++ r) = true.
Proof. destruct (p ++ r) eqn:E; simpl; rewrite <- ?E, startswith_app; done. Qed.

Lemma F_not_space_member (l : str) :
  all_space l -> ascii_of_nat 70 ∈ LF :: l -> False.
Proof.
  intros Hl Hin. apply elem_of_cons in Hin as [Heq | Hin]; [done|].
  unfold all_space in Hl. rewrite Forall_forall in Hl.
  apply Hl in Hin. by rewrite is_space_F in Hin.
Qed.

Lemma line_ends_intro w y : all_space w -> line_ends (w ++ LF :: y) = true.
Proof.
  induction 1 as [|c w Hc _ IH]; cbn [app line_ends]; [done|].
  by rewrite Hc, IH, orb_true_r.
Qed.

Lemma header_line_here_intro w1 w2 y :
  all_space w1 -> all_space w2 ->
  header_line_here (LF :: w1 ++ HDR ++ w2 ++ LF :: y) = true.
Proof.
  intros H1 H2. cbn [header_line_here]. rewrite lstrip_app_space by done.
  change (lstrip (HDR ++ w2 ++ LF :: y)) with (HDR ++ w2 ++ LF :: y).
  rewrite startswith_app, drop_app_length, line_ends_intro by done. done.
Qed.

Lemma line_ends_elim s :
  line_ends s = true -> exists w y, s = w ++ LF :: y /\ all_space w.
Proof.
  induction s as [|c s IH]; cbn [line_ends]; [done|].
  destruct (Ascii.eqb c LF) eqn:Hc.
  - apply Ascii.eqb_eq in Hc as ->. intros _. exists [], s. split; [done|constructor].
  - cbn [orb]. intros [Hs H]%andb_prop. destruct (IH H) as (w & y & -> & Hw).
    exists (c :: w), y. split; [done|]. by constructor.
Qed.

(** [header_line_here] recognizes the texts the split pattern matches
    at their start. *)
Lemma header_line_here_spec s :
  header_line_here s = true <-> is_Some (match_here re_final_answer_line s).
Proof.
  split.
  - destruct s as [|c r]; [done|]. cbn [header_line_here].
    intros [[Hc Hs]%andb_prop Hl]%andb_prop.
    apply Ascii.eqb_eq in Hc as ->. apply startswith_spec in Hs as [r2 Hr2].
    rewrite Hr2, drop_app_length in Hl. apply line_ends_elim in Hl as (w2 & y & -> & Hw2).
    destruct (lstrip_cases r) as [[Hn _]|(w1 & c' & r' & -> & Hw1 & _ & Hl)].
    + rewrite Hn in Hr2. done.
    + rewrite Hl in Hr2. rewrite Hr2. by apply header_complete.
  - intros [[r g] H]. apply header_sound in H as (w1 & w2 & -> & H1 & H2).
    by apply header_line_here_intro.
Qed.

Lemma has_header_line_intro a s :
  header_line_here s = true -> has_header_line (a ++ s) = true.
Proof.
  intros H. induction a as [|c a IH]; cbn [app].
  - destruct s; cbn [has_header_line]; by rewrite H.
  - cbn [has_header_line]. by rewrite IH, orb_true_r.
Qed.

(** The engine's match and the header line are the same occurrence when
    no header line comes before the latter. *)
Lemma header_position (before ws1 Y a w1 w2 r : str) :
  has_header_line (before ++ [LF]) = false ->
  all_space ws1 -> all_space w1 -> all_space w2 ->
  length a <= length before ->
  a ++ LF :: w1 ++ HDR ++ w2 ++ LF :: r = before ++ LF :: ws1 ++ HDR ++ Y ->
  a ++ LF :: w1 = before ++ LF :: ws1 /\ w2 ++ LF :: r = Y.
Proof.
  intros Hno Hws1 Hw1 Hw2 Hlen Heq.
  replace (a ++ LF :: w1 ++ HDR ++ w2 ++ LF :: r)
    with ((a ++ LF :: w1) ++ HDR ++ w2 ++ LF :: r) in Heq
    by (by rewrite <- app_assoc).
  replace (before ++ LF :: ws1 ++ HDR ++ Y) with ((before ++ LF :: ws1) ++ HDR ++ Y) in Heq
    by (by rewrite <- app_assoc).
  apply app_eq_app in Heq as [k [[H1 H2] | [H1 H2]]].
  - (* the engine's header would start later *)
    destruct (hdr_prefix_cases _ _ _ H2) as [-> | [k' ->]].
    + rewrite app_nil_r in H1. rewrite app_nil_l in H2.
      split; [done|]. by apply app_inv_head in H2.
    + exfalso. rewrite <- app_assoc in H1.
      apply app_eq_app in H1 as [l [[Ha Hl] | [Hb Hl]]].
      * assert (l = []) as ->.
        { apply (f_equal length) in Ha. rewrite length_app in Ha.
          destruct l; [done|]. simpl in Ha. lia. }
        rewrite app_nil_l in Hl. apply (F_not_space_member w1 Hw1).
        rewrite <- Hl. set_solver.
      * apply (F_not_space_member w1 Hw1). rewrite Hl. set_solver.
  - (* the engine's header would start earlier *)
    destruct (hdr_prefix_cases _ _ _ H2) as [-> | [k' ->]].
    + rewrite app_nil_r in H1. rewrite app_nil_l in H2.
      split; [done|]. by apply app_inv_head in H2.
    + exfalso.
      apply app_eq_app in H1 as [l [[Hb Hl] | [Ha Hl]]].
      * (* it would lie in [before], on a line of its own *)
        rewrite Hl in H2. rewrite <- app_assoc in H2.
        change ((LF :: ws1) ++ HDR ++ Y) with (LF :: (ws1 ++ HDR ++ Y)) in H2.
        destruct (hdr_no_lf _ _ _ H2) as [l' ->].
        rewrite <- app_assoc in H2. apply app_inv_head in H2.
        assert (exists w y, all_space w /\ l' ++ [LF] = w ++ LF :: y) as (w & y & Hw & Hy).
        { apply app_eq_app in H2 as [m [[-> Hm] | [-> Hm]]].
          - exists l', []. split; [|done]. by apply Forall_app in Hw2 as [? _].
          - destruct m as [|c0 m'].
            + exists w2, []. split; [done|]. by rewrite app_nil_r.
            + injection Hm as <- _. exists w2, (m' ++ [LF]). split; [done|].
              by rewrite <- app_assoc. }
        assert (has_header_line (before ++ [LF]) = true) as Hyes; [|congruence].
        rewrite Hb, <- !app_assoc. cbn [app].
        apply has_header_line_intro. rewrite Hy.
        by apply header_line_here_intro.
      * apply (F_not_space_member ws1 Hws1). rewrite Hl. set_solver.
Qed.

Lemma split_at_header t before ws1 ws2 after :
  t = before ++ LF :: ws1 ++ HDR ++ ws2 ++ LF :: after ->
  all_space ws1 -> all_space ws2 -> has_header_line (before ++ [LF]) = false ->
  exists p0 p1, split1 re_final_answer_line t = [p0; p1] /\
    strip p0 = strip before /\ strip p1 = strip after.
Proof.
  intros Ht H1 H2 Hno. unfold split1, search.
  destruct (search_from re_final_answer_line [] t) as [m|] eqn:Hs.
  - exists (m_before m), (m_after m). split; [done|].
    apply search_from_sound in Hs as (a & b & Hab & Hbefore & Hm & Hmin).
    simpl in Hbefore.
    apply header_sound in Hm as (w1 & w2 & -> & Hw1 & Hw2).
    assert (length a <= length before) as Hlen.
    { destruct (decide (length a <= length before)) as [|Hgt]; [done|]. exfalso.
      specialize (Hmin before _ Ht ltac:(lia)).
      pose proof (header_complete ws1 ws2 after H1 H2) as [x Hx].
      fold HDR in Hmin. congruence. }
    rewrite Hab in Ht.
    apply header_position in Ht as [Hpre Hpost]; try done.
    rewrite Hbefore. split.
    + rewrite <- (strip_app_space_r a (LF :: w1)) by (by constructor).
      rewrite Hpre. apply strip_app_space_r. by constructor.
    + rewrite <- (strip_app_space_l (w2 ++ [LF]) (m_after m)).
      2:{ apply Forall_app. split; [done | by repeat constructor]. }
      rewrite <- app_assoc. change ([LF] ++ m_after m) with (LF :: m_after m).
      rewrite Hpost.
      replace (ws2 ++ LF :: after) with ((ws2 ++ [LF]) ++ after)
        by (by rewrite <- app_assoc).
      apply strip_app_space_l. apply Forall_app. split; [done | by repeat constructor].
  - exfalso.
    pose proof (search_from_complete re_final_answer_line [] before
                  (LF :: ws1 ++ HDR ++ ws2 ++ LF :: after)
                  (header_complete ws1 ws2 after H1 H2)) as [x Hx].
    rewrite <- Ht in Hx. congruence.
Qed.

(** Property X28.
    The primary parse. When the normalised, trimmed output has a line
    holding only the header [Final Answer:], with a line feed before it
    and one after it, and no such line comes before it, the reasoning is
    the text before the header (a leading [Reasoning:] label stripped)
    and the final answer is the text after it, both with runs of two or
    more stars removed and white space trimmed; the words of the header
    may occur inside the reasoning, and further header lines may
    follow. *)
Theorem parse_primary llm_output before ws1 ws2 after :
  strip (replace_crlf llm_output)
    = before ++ LF :: ws1 ++ txt "Final Answer:" ++ ws2 ++ LF :: after ->
  all_space ws1 -> all_space ws2 ->
  has_header_line (before ++ [LF]) = false ->
  _parse_llm_output llm_output
    = (strip (drop_star_runs 0 (strip_label (strip before))),
       strip (drop_star_runs 0 (strip after))).
Proof.
  intros Ht H1 H2 Hno. unfold _parse_llm_output.
  destruct (split_at_header _ _ _ _ _ Ht H1 H2 Hno) as (p0 & p1 & -> & Hp0 & Hp1).
  rewrite Hp0, Hp1, !clean_markdown_spec. reflexivity.
Qed.


Lemma mt_cat_suffix {R : Type} r1 r2 s g (k : str -> option str -> option R) x :
  mt (Cat r1 r2) s g k = Some x ->
  exists a s1 g1, s = a ++ s1 /\ mt r2 s1 g1 k = Some x.
Proof. intros H. by apply (mt_suffix r1 s g (fun s' g' => mt r2 s' g' k) x) in H. Qed.




Section Citations.
Implicit Types (ds : list Document) (seen : gset str).

Lemma first_pass_step_eq out st d :
  first_pass_step out st d = pass_step (referenced out) st d.
Proof.
  destruct st as [cits seen]. unfold first_pass_step, pass_step, citable, referenced,
    citation, case_title_of, citation_string_of. cbn [fst snd].
  destruct (nonempty (get_text (metadata_or_empty d) "case_title"));
    destruct (nonempty (get_text (metadata_or_empty d) "media_neutral_citation"));
    destruct (bool_decide _); cbn [andb]; try done.
Qed.

Lemma fallback_step_eq st d :
  fallback_step st d = pass_step (fun _ => true) st d.
Proof.
  destruct st as [cits seen]. unfold fallback_step, pass_step, citable,
    citation, case_title_of, citation_string_of. cbn [fst snd].
  by rewrite andb_true_r.
Qed.

Lemma fold_pass sel ds : forall cits seen,
  (fold_left (pass_step sel) ds (cits, seen)).1
  = cits ++ map citation
      (filter (fun d => citation_string_of d ∉ seen)
         (first_per_citation (filter (fun d => citable d && sel d = true) ds))).
Proof.
  induction ds as [|d ds IH]; intros cits seen.
  - simpl. by rewrite app_nil_r.
  - cbn [fold_left]. rewrite filter_cons. unfold pass_step at 2. cbn [fst snd].
    destruct (citable d && sel d) eqn:Hcs.
    + rewrite decide_True by done. cbn [first_per_citation].
      rewrite andb_comm, andb_assoc, (andb_comm (sel d)), Hcs. cbn [andb].
      destruct (bool_decide _) eqn:Hd.
      * apply bool_decide_eq_true in Hd.
        rewrite IH. rewrite filter_cons, decide_True by done. cbn [map].
        rewrite <- app_assoc. cbn [app]. do 3 f_equal.
        rewrite list_filter_filter. apply list_filter_iff. intros e.
        rewrite elem_of_union, elem_of_singleton. tauto.
      * apply bool_decide_eq_false in Hd.
        rewrite IH. rewrite filter_cons, decide_False by done. do 2 f_equal.
        rewrite list_filter_filter. apply list_filter_iff. intros e.
        split; [|by intros [? ?]]. intros He. split; [done|]. intros Heq.
        apply Hd. intros Hin. apply He. by rewrite Heq.
    + rewrite decide_False by done.
      replace (citable d && bool_decide (citation_string_of d ∉ seen) && sel d)
        with false.
      2:{ symmetry. rewrite andb_comm, andb_assoc, (andb_comm (sel d)), Hcs. done. }
      apply IH.
Qed.

Lemma fold_pass_nil sel ds : forall st,
  (fold_left (pass_step sel) ds st).1 = [] -> fold_left (pass_step sel) ds st = st.
Proof.
  induction ds as [|d ds IH]; intros st H; [done|]. cbn [fold_left] in *.
  unfold pass_step at 2 in H. unfold pass_step at 2.
  destruct (citable d && bool_decide _ && sel d); [|by apply IH].
  rewrite fold_pass in H. by destruct (st.1).
Qed.

Lemma fold_left_eq {A B} (f g : A -> B -> A) l :
  (forall a b, f a b = g a b) -> forall a, fold_left f l a = fold_left g l a.
Proof. intros H. induction l as [|b l IH]; intros a; simpl; [done|]. by rewrite H, IH. Qed.

Lemma filter_unseen_empty seen ds :
  seen = ∅ -> filter (fun d => citation_string_of d ∉ seen) ds = ds.
Proof.
  intros ->. induction ds as [|d ds IH]; [done|].
  rewrite filter_cons, decide_True by set_solver. by rewrite IH.
Qed.

Lemma extract_citations_spec ds out :
  _extract_citations ds out = map citation (cited_passages out ds).
Proof.
  unfold _extract_citations, cited_passages.
  rewrite (fold_left_eq _ (pass_step (referenced out)))
    by apply first_pass_step_eq.
  pose proof (fold_pass (referenced out) ds [] ∅) as H1.
  pose proof (fold_pass_nil (referenced out) ds ([], ∅)) as H2.
  set (st := fold_left (pass_step (referenced out)) ds ([], ∅)) in *.
  rewrite filter_unseen_empty in H1 by done. cbn [app] in H1.
  destruct (st.1) as [|c cs] eqn:Hst.
  - rewrite H2 by done.
    destruct (first_per_citation _) as [|? ?] eqn:Hm in H1; [|done].
    rewrite Hm.
    rewrite (fold_left_eq _ (pass_step (fun _ => true)))
      by apply fallback_step_eq.
    rewrite fold_pass. cbn [app].
    rewrite filter_unseen_empty by done. do 2 f_equal.
    apply list_filter_iff. intros d. by rewrite andb_true_r.
  - cbn [fst]. destruct (first_per_citation _) as [|? ?] eqn:Hm; [done|].
    rewrite Hst. done.
Qed.

Lemma first_per_citation_sublist ds : sublist (first_per_citation ds) ds.
Proof.
  induction ds as [|d ds IH]; simpl; [constructor|].
  apply sublist_skip. etrans; [apply sublist_filter|done].
Qed.

Lemma elem_of_map_filter {A B} (f : A -> B) (P : A -> Prop)
    `{!forall x, Decision (P x)} (l : list A) y :
  y ∈ map f (filter P l) -> exists x, y = f x /\ P x /\ x ∈ l.
Proof.
  rewrite list_elem_of_In, in_map_iff. intros (x & <- & Hx).
  apply list_elem_of_In, list_elem_of_filter in Hx as [HP Hx]. by exists x.
Qed.

Lemma NoDup_map_filter {A B} (f : A -> B) (P : A -> Prop)
    `{!forall x, Decision (P x)} (l : list A) :
  NoDup (map f l) -> NoDup (map f (filter P l)).
Proof.
  induction l as [|x l IH]; [done|]. cbn [map]. rewrite NoDup_cons. intros [Hx Hl].
  rewrite filter_cons. destruct (decide (P x)); [|by apply IH].
  cbn [map]. apply NoDup_cons. split; [|by apply IH].
  intros Hin. apply elem_of_map_filter in Hin as (x' & Heq & _ & Hx').
  apply Hx. rewrite Heq. apply list_elem_of_In, in_map, list_elem_of_In. done.
Qed.

Lemma first_per_citation_NoDup ds :
  NoDup (map citation_string_of (first_per_citation ds)).
Proof.
  induction ds as [|d ds IH]; cbn [first_per_citation map]; [constructor|].
  apply NoDup_cons. split.
  - intros Hin. apply elem_of_map_filter in Hin as (e & Heq & Hne & _). by apply Hne.
  - by apply NoDup_map_filter.
Qed.
End Citations.

Section SortFacts.
Context {A : Type} (key : A -> pyfloat).
Implicit Types (l : list A) (x y : A) (a b c v : pyfloat).

Lemma Qlt_bool_true (p q : Q) : Qlt_bool p q = true <-> (p < q)%Q.
Proof.
  unfold Qlt_bool. rewrite negb_true_iff. split.
  - intros H. apply Qnot_le_lt. intros Hle. apply Qle_bool_iff in Hle. congruence.
  - intros H. destruct (Qle_bool q p) eqn:E; [|done].
    apply Qle_bool_iff in E. exfalso. by apply (Qlt_not_le p q).
Qed.

Lemma Qlt_bool_false (p q : Q) : Qlt_bool p q = false <-> (q <= p)%Q.
Proof.
  unfold Qlt_bool. rewrite negb_false_iff. apply Qle_bool_iff.
Qed.

Lemma float_lt_le a b : float_lt a b = true -> float_le a b = true.
Proof.
  destruct a, b; cbn; try done.
  intros H%Qlt_bool_true. by apply Qle_bool_iff, Qlt_le_weak.
Qed.

Lemma float_not_lt_le a b :
  is_nan a = false -> is_nan b = false -> float_lt a b = false -> float_le b a = true.
Proof.
  destruct a, b; cbn; try done.
  intros _ _ H%Qlt_bool_false. by apply Qle_bool_iff.
Qed.

Lemma float_le_trans a b c :
  float_le a b = true -> float_le b c = true -> float_le a c = true.
Proof.
  destruct a, b, c; cbn; try done.
  intros H1%Qle_bool_iff H2%Qle_bool_iff. apply Qle_bool_iff. by eapply Qle_trans.
Qed.

Lemma float_eq_not_lt a b v :
  float_eq a v = true -> float_eq b v = true -> float_lt a b = false.
Proof.
  destruct a, b, v; cbn; try done.
  intros H1%Qeq_bool_iff H2%Qeq_bool_iff. apply Qlt_bool_false.
  rewrite H1, H2. apply Qle_refl.
Qed.

Lemma numbers_no_nan l : numbers key l -> existsb is_nan (map key l) = false.
Proof. induction 1 as [|x l Hx _ IH]; cbn; [done|]. by rewrite Hx, IH. Qed.

Lemma insert_desc_perm x l : Permutation (insert_desc key x l) (x :: l).
Proof.
  induction l as [|y l IH]; simpl; [done|].
  destruct (float_lt (key x) (key y)); [|done].
  rewrite IH. apply perm_swap.
Qed.

Lemma stable_sort_perm l : Permutation (fold_right (insert_desc key) [] l) l.
Proof.
  induction l as [|x l IH]; simpl; [done|].
  rewrite insert_desc_perm. by constructor.
Qed.

Lemma rearrange_perm n : forall picks l, Permutation (rearrange n picks l) l.
Proof.
  induction n as [|n IH]; intros picks l; cbn [rearrange]; [done|].
  destruct (l !! (hd 0 picks mod length l)) as [x|] eqn:Hx; [|done].
  rewrite IH. symmetry. by apply delete_Permutation.
Qed.

Lemma sorted_reverse_perm order l : Permutation (sorted_reverse order key l) l.
Proof.
  unfold sorted_reverse. destruct (existsb is_nan (map key l)).
  - apply rearrange_perm.
  - apply stable_sort_perm.
Qed.

Lemma insert_desc_sorted x l :
  is_nan (key x) = false -> numbers key l ->
  StronglySorted (desc key) l -> StronglySorted (desc key) (insert_desc key x l).
Proof.
  intros Hx Hl. induction 1 as [|y l Hs IH Hy]; simpl.
  - repeat constructor.
  - apply Forall_cons in Hl as [Hny Hl].
    destruct (float_lt (key x) (key y)) eqn:E.
    + constructor; [by apply IH|].
      rewrite List.Forall_forall. intros z Hz.
      apply (Permutation_in _ (insert_desc_perm x l)) in Hz as [<- | Hz].
      * unfold desc. by apply float_lt_le.
      * rewrite List.Forall_forall in Hy. by apply Hy.
    + apply float_not_lt_le in E; [|done..]. constructor; [by constructor|].
      constructor; [done|].
      rewrite List.Forall_forall in Hy |- *. intros z Hz. unfold desc in *.
      eapply float_le_trans; [by apply Hy | done].
Qed.

Lemma stable_sort_numbers l :
  numbers key l -> numbers key (fold_right (insert_desc key) [] l).
Proof.
  unfold numbers. intros H. eapply Permutation_Forall; [|exact H].
  symmetry. apply stable_sort_perm.
Qed.

Lemma sorted_reverse_sorted order l :
  numbers key l -> StronglySorted (desc key) (sorted_reverse order key l).
Proof.
  intros H. unfold sorted_reverse. rewrite numbers_no_nan by done.
  induction H as [|x l Hx Hl IH]; simpl; [constructor|].
  apply insert_desc_sorted; [done| by apply stable_sort_numbers |done].
Qed.

Lemma StronglySorted_take n l : StronglySorted (desc key) l -> StronglySorted (desc key) (take n l).
Proof.
  intros H. revert n. induction H as [|y l Hl IH Hy]; intros [|n]; simpl; try constructor.
  - apply IH.
  - rewrite List.Forall_forall in Hy |- *. intros z Hz. apply Hy.
    apply list_elem_of_In. apply list_elem_of_In in Hz.
    apply elem_of_take in Hz as (i & Hi & _). by eapply list_elem_of_lookup_2.
Qed.

Lemma insert_desc_stable v x l :
  filter (has_key key v) (insert_desc key x l) = filter (has_key key v) (x :: l).
Proof.
  induction l as [|y l IH]; simpl; [done|].
  destruct (float_lt (key x) (key y)) eqn:E; [|done].
  rewrite (filter_cons _ y), IH, !filter_cons.
  destruct (decide (has_key key v x)) as [Hx|Hx]; [|done].
  destruct (decide (has_key key v y)) as [Hy|Hy]; [|done].
  exfalso. unfold has_key in *.
  rewrite (float_eq_not_lt _ _ _ Hx Hy) in E. done.
Qed.

Lemma sorted_reverse_stable order v l :
  numbers key l ->
  filter (has_key key v) (sorted_reverse order key l) = filter (has_key key v) l.
Proof.
  intros H. unfold sorted_reverse. rewrite numbers_no_nan by done. clear H.
  induction l as [|x l IH]; simpl; [done|].
  rewrite insert_desc_stable, !filter_cons, IH. done.
Qed.

Lemma filter_take_prefix (P : A -> Prop) `{!forall x, Decision (P x)} n l :
  filter P (take n l) `prefix_of` filter P l.
Proof.
  rewrite <- (take_drop n l) at 2. rewrite filter_app. by apply prefix_app_r.
Qed.
End SortFacts.

Section RetryFacts.
Context {A : Type}.
Implicit Types (body : M A) (w : world).

Lemma retry_from_inr wait n more body w a w' :
  retry_from wait n more body w = (inr a, w') -> exists w1, body w1 = (inr a, w').
Proof.
  revert n w. induction more as [|more IH]; intros n w; simpl;
    destruct (body w) as [[e|a'] w1] eqn:Hb; intros H; simplify_eq; eauto.
Qed.

Lemma retry_from_inl wait n more body w e w' :
  retry_from wait n more body w = (inl e, w') ->
  exists e' w1, e = RetryError e' /\ body w1 = (inl e', w').
Proof.
  revert n w. induction more as [|more IH]; intros n w; simpl;
    destruct (body w) as [[e0|a'] w1] eqn:Hb; intros H; simplify_eq; eauto.
Qed.

Lemma retry_first_success stop wait body w a w' :
  body w = (inr a, w') -> retry stop wait body w = (inr a, w').
Proof. unfold retry. intros H. destruct (stop - 1); simpl; by rewrite H. Qed.

(** A body that fails without touching the world is run three times,
    with two sleeps in between. *)
Lemma retry_3_pure_failure wait body e :
  (forall w, body w = (inl e, w)) ->
  forall w, retry 3 wait body w
            = (inl (RetryError e), log (Sleep (wait 2)) (log (Sleep (wait 1)) w)).
Proof. intros H w. unfold retry. simpl. by rewrite !H. Qed.
(** Giving up takes three failed attempts, with a sleep after the first
    and after the second. *)
Lemma retry_3_gives_up wait body w e w' :
  retry 3 wait body w = (inl e, w') <->
  exists e1 w1 e2 w2 e3,
    body w = (inl e1, w1) /\
    body (log (Sleep (wait 1)) w1) = (inl e2, w2) /\
    body (log (Sleep (wait 2)) w2) = (inl e3, w') /\
    e = RetryError e3.
Proof.
  unfold retry. cbn [Nat.sub retry_from]. split.
  - destruct (body w) as [[e1|a1] w1] eqn:H1; [|done].
    destruct (body (log _ w1)) as [[e2|a2] w2] eqn:H2; [|done].
    destruct (body (log _ w2)) as [[e3|a3] w3] eqn:H3; [|done].
    intros [= <- <-]. by eexists _, _, _, _, _.
  - intros (e1 & w1 & e2 & w2 & e3 & H1 & H2 & H3 & ->).
    by rewrite H1, H2, H3.
Qed.
End RetryFacts.

Section RerankFacts.
Context (E : env).

Lemma scored_with_scored d x : scored (scored_with d x).
Proof. eexists _, x. split; [reflexivity|]. apply lookup_insert_eq. Qed.

Lemma scored_with_key d x : rerank_key (scored_with d x) = x.
Proof.
  unfold rerank_key, scored_with, metadata_or_empty. cbn. by rewrite lookup_insert_eq.
Qed.

Lemma scored_with_twice d x y : scored_with (scored_with d x) y = scored_with d y.
Proof.
  unfold scored_with. cbn. f_equal. f_equal. unfold metadata_or_empty at 1. cbn.
  apply insert_insert_eq.
Qed.

Lemma score_of_in zipped l x : score_of zipped l = Some x -> x ∈ map snd zipped.
Proof.
  induction zipped as [|[l0 x0] rest IH]; cbn [map snd score_of]; [done|].
  destruct (score_of rest l) as [y|].
  - intros [= <-]. right. by apply IH.
  - destruct (Nat.eqb l l0); [|done]. intros [= <-]. by left.
Qed.

Lemma score_of_elem zipped l :
  l ∈ map fst zipped -> exists x, score_of zipped l = Some x /\ x ∈ map snd zipped.
Proof.
  intros H. assert (is_Some (score_of zipped l)) as [x Hx].
  { induction zipped as [|[l0 x0] rest IH]; cbn [map fst score_of] in *.
    - by apply elem_of_nil in H.
    - destruct (score_of rest l) as [y|]; [done|].
      apply elem_of_cons in H as [->|H]; [by rewrite Nat.eqb_refl|].
      by destruct (IH H). }
  exists x. split; [done|]. by eapply score_of_in.
Qed.

Lemma update_scores_heap zipped : forall w,
  exists w', update_scores zipped w = (inr (map fst zipped), w') /\
    w_trace w' = w_trace w /\ w_next w' = w_next w /\
    forall l, w_heap w' l = match score_of zipped l with
                            | Some x => scored_with (w_heap w l) x
                            | None => w_heap w l
                            end.
Proof.
  induction zipped as [|[l0 x0] rest IH]; intros w; cbn [update_scores map fst].
  - exists w. by split_and!.
  - unfold bind at 1. unfold set_rerank_score at 1.
    fold (scored_with (w_heap w l0) x0).
    destruct (IH (store l0 (scored_with (w_heap w l0) x0) w)) as (w' & Hu & Htr & Hn & Hh).
    exists w'. unfold bind, ret. rewrite Hu. split_and!; try done.
    intros l. rewrite Hh. cbn [score_of store w_heap].
    destruct (score_of rest l) as [y|]; destruct (Nat.eqb l l0) eqn:El; try done.
    + apply Nat.eqb_eq in El as ->. apply scored_with_twice.
    + by apply Nat.eqb_eq in El as ->.
Qed.
End RerankFacts.

Lemma zip_fst_prefix {A B} (l : list A) (k : list B) :
  map fst (zip l k) = take (length k) l.
Proof.
  revert k. induction l as [|a l IH]; intros [|b k]; simpl; try done.
  by rewrite IH.
Qed.

Lemma slice_to_nonneg {A} (n : Z) (l : list A) :
  (0 <= n)%Z -> slice_to n l = take (Z.to_nat n) l.
Proof. intros H. unfold slice_to. destruct (0 <=? n)%Z eqn:E; [done|lia]. Qed.

Section RerankTheorem.
Context (E : env).

(** One attempt of the reranker on a non-empty list, when the model
    answers. *)
Lemma rerank_body_exact cfg query docs w scores :
  nonempty query = true -> docs <> [] ->
  env_predict E (w_trace w) (pairs_of query docs w) = inr scores ->
  exists w',
    rerank_body E cfg query docs w
    = (inr (slice_to (top_n cfg)
              (sorted_reverse (env_sorted_nan E) (fun l => rerank_key (w_heap w' l))
                 (take (length scores) docs))), w') /\
    w_trace w' = Predict (pairs_of query docs w) :: w_trace w /\
    w_next w' = w_next w /\
    forall l, w_heap w' l = match score_of (zip docs scores) l with
                            | Some x => scored_with (w_heap w l) x
                            | None => w_heap w l
                            end.
Proof.
  intros Hq Hd Hp. unfold rerank_body. rewrite Hq. cbn [negb].
  destruct docs as [|d0 docs'] eqn:Hdocs; [done|].
  rewrite <- Hdocs in *. clear Hdocs d0 docs' Hd.
  unfold try_except, bind, get_world, predict. fold (pairs_of query docs w). rewrite Hp.
  destruct (update_scores_heap (zip docs scores) (log (Predict (pairs_of query docs w)) w))
    as (w' & Hu & Htr & Hn & Hh).
  rewrite Hu. unfold ret. exists w'. rewrite zip_fst_prefix. by split_and!.
Qed.

Lemma zip_snd_elem {A B} (l : list A) (k : list B) x : x ∈ map snd (zip l k) -> x ∈ k.
Proof.
  revert k. induction l as [|a l IH]; intros [|b k]; cbn;
    try (intros H; by apply elem_of_nil in H).
  intros [->|H]%elem_of_cons; [by left|]. right. by apply IH.
Qed.

(** What one attempt returns: the passages paired with a score, each
    carrying one of the scores, sorted and cut. *)
Lemma rerank_body_inr cfg query docs w out w' :
  nonempty query = true ->
  rerank_body E cfg query docs w = (inr out, w') ->
  exists scores : list pyfloat,
    out = slice_to (top_n cfg)
            (sorted_reverse (env_sorted_nan E) (fun l => rerank_key (w_heap w' l))
               (take (length scores) docs)) /\
    (docs <> [] -> env_predict E (w_trace w) (pairs_of query docs w) = inr scores) /\
    (forall l, l ∈ take (length scores) docs ->
       scored (w_heap w' l) /\ rerank_key (w_heap w' l) ∈ scores).
Proof.
  intros Hq. destruct docs as [|d0 docs'] eqn:Hdocs.
  - unfold rerank_body. rewrite Hq. cbn [negb]. unfold ret. intros [= <- <-].
    exists []. split_and!; [|done|].
    + unfold slice_to, sorted_reverse. cbn. by destruct (0 <=? top_n cfg)%Z; rewrite take_nil.
    + intros l Hl. cbn in Hl. by apply elem_of_nil in Hl.
  - rewrite <- Hdocs in *. assert (docs <> []) as Hd by (by rewrite Hdocs).
    clear Hdocs d0 docs'.
    destruct (env_predict E (w_trace w) (pairs_of query docs w)) as [e|scores] eqn:Hp.
    + unfold rerank_body. rewrite Hq. cbn [negb].
      destruct docs; [done|].
      unfold try_except, bind, get_world, predict.
      fold (pairs_of query (l :: docs) w). by rewrite Hp.
    + destruct (rerank_body_exact cfg query docs w scores Hq Hd Hp) as (w1 & Hb & _ & _ & Hh).
      rewrite Hb. intros [= <- <-]. exists scores. split_and!; [done..|].
      intros l Hl. rewrite <- zip_fst_prefix in Hl.
      destruct (score_of_elem _ _ Hl) as (x & Hx & Hin). rewrite Hh, Hx.
      split; [apply scored_with_scored|]. rewrite scored_with_key.
      by eapply zip_snd_elem.
Qed.

Lemma rerank_body_returns cfg query docs w scores :
  nonempty query = true ->
  env_predict E (w_trace w) (pairs_of query docs w) = inr scores ->
  exists out w', rerank_body E cfg query docs w = (inr out, w').
Proof.
  intros Hq Hp. destruct docs as [|d0 docs'] eqn:Hdocs.
  - unfold rerank_body. rewrite Hq. by eexists _, _.
  - rewrite <- Hdocs in *. assert (docs <> []) as Hd by (by rewrite Hdocs).
    destruct (rerank_body_exact cfg query docs w scores Hq Hd Hp) as (w' & Hb & _).
    by eexists _, _.
Qed.

Lemma sorted_reverse_elem {A} order (key : A -> pyfloat) (l : list A) x :
  x ∈ sorted_reverse order key l <-> x ∈ l.
Proof.
  rewrite !list_elem_of_In. split; apply Permutation_in;
    [|symmetry]; apply sorted_reverse_perm.
Qed.

Lemma elem_of_slice_to {A} n (l : list A) x : x ∈ slice_to n l -> x ∈ l.
Proof.
  unfold slice_to. destruct (0 <=? n)%Z; intros (i & Hi & _)%elem_of_take;
    by eapply list_elem_of_lookup_2.
Qed.

(** Claim C5, as amended. For a non-empty query and a non-negative
    top-N, the reranker returns whenever the scoring model answers its
    first call, and whatever list it returns has at most top-N passages,
    each carrying a float [rerank_score]; when none of the passages'
    scores (read in the store the call leaves) is NaN, the list is sorted
    by descending score and keeps passages of equal score in input
    order. *)
Theorem rerank_output cfg query docs w :
  nonempty query = true -> (0 <= top_n cfg)%Z ->
  (forall scores,
      env_predict E (w_trace w) (pairs_of query docs w) = inr scores ->
      exists out w', rerank E cfg query docs w = (inr out, w')) /\
  (forall out w',
      rerank E cfg query docs w = (inr out, w') ->
      let key := fun l => rerank_key (w_heap w' l) in
      (Z.of_nat (length out) <= top_n cfg)%Z /\
      Forall (fun l => scored (w_heap w' l)) out /\
      (Forall (fun l => is_nan (key l) = false) docs ->
       StronglySorted (fun a b => float_le (key b) (key a) = true) out /\
       forall v, filter (has_key key v) out `prefix_of` filter (has_key key v) docs)).
Proof.
  intros Hq Hn. split.
  - intros scores Hp.
    destruct (rerank_body_returns cfg query docs w scores Hq Hp) as (out & w' & Hb).
    exists out, w'. by apply retry_first_success.
  - intros out w' Hr key. unfold rerank in Hr.
    apply retry_from_inr in Hr as [w1 Hb].
    apply rerank_body_inr in Hb as (scores & -> & _ & Hsc); [|done].
    fold key. rewrite slice_to_nonneg by done. split_and!.
    + rewrite length_take. lia.
    + apply Forall_forall. intros l Hl. apply Hsc.
      apply elem_of_take in Hl as (i & Hi & _).
      apply list_elem_of_lookup_2 in Hi. by apply sorted_reverse_elem in Hi.
    + intros Hnum.
      assert (numbers key (take (length scores) docs)) as Hnum' by (by apply Forall_take).
      split.
      * apply (StronglySorted_take key). by apply sorted_reverse_sorted.
      * intros v. etrans; [apply filter_take_prefix|].
        rewrite sorted_reverse_stable by done. apply filter_take_prefix.
Qed.

(** Claim C9. For a non-empty query, reranking the empty list returns the
    empty list at once: the world, and with it the trace, is unchanged,
    so the scoring model was not invoked and nothing was retried. *)
Theorem rerank_empty cfg query w :
  nonempty query = true -> rerank E cfg query [] w = (inr [], w).
Proof.
  intros Hq. apply retry_first_success. unfold rerank_body. by rewrite Hq.
Qed.
End RerankTheorem.

Section RouterFacts.
Context (E : env).
Implicit Types (ps : list registered) (w : world) (best : option str).

Lemma called_cons p ps sys usr mt w :
  called (p :: ps) sys usr mt w = called ps sys usr mt (log (call_event p sys usr mt) w).
Proof. reflexivity. Qed.

Lemma traversal_cons p ps sys usr mt best w :
  traversal E (p :: ps) sys usr mt best w =
  let w' := log (call_event p sys usr mt) w in
  match env_provider E (w_trace w) (entry_config p) sys usr mt with
  | Returns (Some r) =>
      if nonempty r then
        if contains (txt "Final Answer:") r then (inr r, w')
        else traversal E ps sys usr mt (if truthy best then best else Some r) w'
      else traversal E ps sys usr mt best w'
  | _ => traversal E ps sys usr mt best w'
  end.
Proof.
  unfold traversal. cbn [reply_seq first_accepted first_usable].
  unfold accepted, usable. cbn [log w_trace].
  destruct (env_provider E (w_trace w) (entry_config p) sys usr mt) as [e|[r|]].
  - destruct (first_accepted _) as [[i r]|]; reflexivity.
  - destruct (nonempty r) eqn:Hr.
    + destruct (contains (txt "Final Answer:") r) eqn:Hc; [reflexivity|].
      destruct (first_accepted _) as [[i r']|]; [reflexivity|].
      destruct (truthy best) eqn:Hb; rewrite ?Hb; [reflexivity|].
      unfold truthy. rewrite Hr. reflexivity.
    + destruct (first_accepted _) as [[i r']|]; reflexivity.
  - destruct (first_accepted _) as [[i r']|]; reflexivity.
Qed.

Lemma try_providers_traversal ps sys usr mt : forall best w,
  try_providers E ps sys usr mt best w = traversal E ps sys usr mt best w.
Proof.
  induction ps as [|p ps IH]; intros best w.
  - unfold traversal. cbn. destruct best as [r|]; [|done].
    unfold truthy. by destruct (nonempty r).
  - rewrite traversal_cons. cbn [try_providers]. unfold call_provider.
    fold (call_event p sys usr mt). cbv zeta.
    destruct (env_provider E (w_trace w) (entry_config p) sys usr mt) as [e|[r|]];
      [apply IH| |apply IH].
    destruct (nonempty r) eqn:Hr; cbn [negb]; [|apply IH].
    destruct (contains (txt "Final Answer:") r); [done|].
    rewrite IH. by destruct (truthy best).
Qed.
End RouterFacts.

Section ShuffleFacts.
Context (E : env) {A : Type}.
Implicit Types (x : list A).

Lemma insert_perm x i (v old : A) :
  x !! i = Some old -> <[i:=v]> x ≡ₚ v :: delete i x.
Proof.
  intros H. apply lookup_lt_Some in H.
  rewrite insert_take_drop, delete_take_drop by done.
  symmetry. apply Permutation_middle.
Qed.

Lemma swap_perm i j x : swap i j x ≡ₚ x.
Proof.
  unfold swap. destruct (x !! i) as [a|] eqn:Hi; [|done].
  destruct (x !! j) as [b|] eqn:Hj; [|done].
  destruct (decide (i = j)) as [->|Hne].
  - assert (a = b) as -> by congruence.
    by rewrite (list_insert_id x j b), (list_insert_id x j b).
  - assert (<[i:=b]> x !! j = Some b) as Hj' by (by rewrite list_lookup_insert_ne).
    rewrite (insert_perm _ j a b Hj').
    pose proof (delete_Permutation _ _ _ Hj') as H1.
    rewrite (insert_perm x i b a Hi) in H1 at 1.
    apply Permutation_cons_inv in H1. rewrite <- H1.
    symmetry. by apply delete_Permutation.
Qed.

(** Shuffling returns a permutation; it only draws random numbers. *)
Lemma shuffle_from_spec i : forall x w,
  exists y evs, shuffle_from E i x w
                = (inr y, mkWorld (evs ++ w_trace w) (w_heap w) (w_next w)) /\
    y ≡ₚ x /\ forallb is_rand evs = true.
Proof.
  induction i as [|i IH]; intros x w; cbn [shuffle_from].
  - exists x, []. unfold ret. by destruct w.
  - unfold bind, randbelow.
    set (j := env_randbelow E (w_trace w) (S (S i)) mod S (S i)).
    destruct (IH (swap (S i) j x) (log (RandBelow (S (S i)) j) w))
      as (y & evs & Hs & Hp & Hevs).
    exists y, (evs ++ [RandBelow (S (S i)) j]). split_and!.
    + rewrite Hs. cbn [log w_trace w_heap w_next]. by rewrite <- app_assoc.
    + by rewrite Hp, swap_perm.
    + rewrite forallb_app, Hevs. done.
Qed.

Lemma shuffle_spec x w :
  exists y evs, shuffle E x w = (inr y, mkWorld (evs ++ w_trace w) (w_heap w) (w_next w)) /\
    y ≡ₚ x /\ forallb is_rand evs = true.
Proof. apply shuffle_from_spec. Qed.
End ShuffleFacts.

Section GenerateFacts.
Context (E : env).
Implicit Types (registry : list registered) (w : world).

Lemma existsb_candidates registry model_id :
  existsb (serves model_id) registry = false <-> candidates registry model_id = [].
Proof.
  unfold candidates. induction registry as [|p ps IH]; [done|].
  cbn [existsb]. rewrite filter_cons.
  destruct (serves model_id p) eqn:Hp; cbn [orb].
  - rewrite decide_True by done. split; done.
  - rewrite decide_False by done. done.
Qed.

Lemma generate_body_no_candidates registry query docs model_id mt w :
  valid_call query model_id mt ->
  candidates registry model_id = [] ->
  generate_body E registry query docs model_id mt w
    = (inl (no_provider_configured model_id), w).
Proof.
  intros (Hq & Hm & Ht) Hc. unfold generate_body. rewrite Hq, Hm. cbn [negb].
  destruct (mt <=? 0)%Z eqn:Hmt; [lia|].
  apply existsb_candidates in Hc. rewrite Hc. done.
Qed.

Lemma generate_body_candidates registry query docs model_id mt w entries :
  valid_call query model_id mt ->
  candidates registry model_id <> [] ->
  context_entries E 0 (map (w_heap w) docs) = inr entries ->
  generate_body E registry query docs model_id mt w =
  bind (shuffle E (candidates registry model_id))
    (fun ps => try_providers E ps (system_prompt_of (join [LF; LF] entries))
                 (user_prompt_of query) mt None) w.
Proof.
  intros (Hq & Hm & Ht) Hc Hctx. unfold generate_body. rewrite Hq, Hm. cbn [negb].
  destruct (mt <=? 0)%Z eqn:Hmt; [lia|].
  destruct (existsb (serves model_id) registry) eqn:Hex.
  2:{ by apply existsb_candidates in Hex. }
  cbn [negb]. unfold bind at 1, get_world. unfold bind at 1, lift. rewrite Hctx.
  by destruct (candidates registry model_id).
Qed.
End GenerateFacts.

Section GenerateTheorems.
Context (E : env).
Implicit Types (registry : list registered) (w : world).

Lemma generate_body_unserved registry query docs model_id mt :
  candidates registry model_id = [] ->
  exists msg, forall w,
    generate_body E registry query docs model_id mt w = (inl (ValueError msg), w).
Proof.
  intros Hc. unfold generate_body.
  destruct (nonempty query); cbn [negb]; [|by eexists].
  destruct (nonempty model_id); cbn [negb]; [|by eexists].
  destruct (mt <=? 0)%Z; [by eexists|].
  apply existsb_candidates in Hc. rewrite Hc. by eexists.
Qed.

(** Claim C8, the failing inputs. When no registered entry serves
    [model_id], a run of the body of [generate] raises a [ValueError]
    (the no-provider one as soon as the other arguments are valid) and
    leaves the world as it was. The caller of [generate] does not get
    that [ValueError]: the retry decorator runs the body three times,
    sleeping in between, and raises the retry error that wraps it, which
    is no [ValueError]. No provider call is added to the trace. *)
Theorem generate_no_provider registry query docs model_id mt w :
  candidates registry model_id = [] ->
  exists msg,
    generate_body E registry query docs model_id mt w = (inl (ValueError msg), w) /\
    (valid_call query model_id mt ->
     ValueError msg = no_provider_configured model_id) /\
    generate E registry query docs model_id mt w
      = (inl (RetryError (ValueError msg)), slept_twice w) /\
    (forall msg', RetryError (ValueError msg) <> ValueError msg') /\
    filter (fun ev => is_provider_call ev = true) (w_trace (slept_twice w))
      = filter (fun ev => is_provider_call ev = true) (w_trace w).
Proof.
  intros Hc.
  destruct (generate_body_unserved registry query docs model_id mt Hc) as [msg Hb].
  exists msg. split_and!; [| | |done|done].
  - apply Hb.
  - intros Hv.
    pose proof (generate_body_no_candidates E registry query docs model_id mt w Hv Hc)
      as H.
    rewrite Hb in H. congruence.
  - unfold generate. by rewrite (retry_3_pure_failure _ _ _ Hb).
Qed.

(** Claim C1. Two providers are registered for [model_id]; the one tried
    first raises, the one tried second returns a non-empty response [r]:
    [generate] returns [r], after exactly those two calls. *)
Theorem generate_falls_back registry query docs model_id mt w entries a b p1 p2 w1 e r :
  valid_call query model_id mt ->
  context_entries E 0 (map (w_heap w) docs) = inr entries ->
  candidates registry model_id = [a; b] ->
  shuffle E [a; b] w = (inr [p1; p2], w1) ->
  let sys := system_prompt_of (join [LF; LF] entries) in
  let usr := user_prompt_of query in
  env_provider E (w_trace w1) (entry_config p1) sys usr mt = Raises e ->
  env_provider E (call_event p1 sys usr mt :: w_trace w1) (entry_config p2) sys usr mt
    = Returns (Some r) ->
  nonempty r = true ->
  generate E registry query docs model_id mt w
    = (inr r, called [p1; p2] sys usr mt w1).
Proof.
  intros Hv Hctx Hc Hs sys usr H1 H2 Hr.
  unfold generate. apply retry_first_success.
  rewrite (generate_body_candidates E registry query docs model_id mt w entries)
    by (done || by rewrite Hc).
  unfold bind. rewrite Hc, Hs. fold sys usr.
  rewrite try_providers_traversal, !traversal_cons. cbv zeta.
  rewrite H1. rewrite traversal_cons. cbv zeta. cbn [log w_trace].
  fold (call_event p1 sys usr mt). rewrite H2, Hr.
  destruct (contains (txt "Final Answer:") r); [done|].
  unfold traversal. cbn. by rewrite Hr.
Qed.

(** Claim C10. For a valid call with at least one candidate, the body of
    [generate] shuffles the candidates into a permutation [ps] and then
    does what [traversal] says: it returns at once only on a non-empty
    response containing [Final Answer:]; otherwise it calls every
    candidate of [ps] and returns the first non-empty response, or fails
    when there is none. *)
Theorem generate_traversal registry query docs model_id mt w entries :
  valid_call query model_id mt ->
  candidates registry model_id <> [] ->
  context_entries E 0 (map (w_heap w) docs) = inr entries ->
  exists ps w1,
    shuffle E (candidates registry model_id) w = (inr ps, w1) /\
    ps ≡ₚ candidates registry model_id /\
    generate_body E registry query docs model_id mt w
      = traversal E ps (system_prompt_of (join [LF; LF] entries))
          (user_prompt_of query) mt None w1.
Proof.
  intros Hv Hc Hctx.
  destruct (shuffle_spec E (candidates registry model_id) w) as (ps & evs & Hs & Hp & _).
  eexists ps, _. split_and!; [done..|].
  rewrite (generate_body_candidates E registry query docs model_id mt w entries) by done.
  unfold bind. rewrite Hs. apply try_providers_traversal.
Qed.

(** Claim C7, the failing inputs. A blank query, an empty output, an
    empty passage list, a non-positive [max_tokens] and an unknown
    [model_id] are each checked three times, with two sleeps of two
    seconds in between, and reach the caller as a [RetryError], not as
    the [ValueError] the check raises. *)
Theorem invalid_input_is_retried (cfg : RerankerConfig) (rcfg : ResponseConfig)
    (docs : list loc) (w : world) :
  let one := [{| reg_model_name := txt "a"; reg_provider := Groq |}] in
  rerank E cfg [] docs w
    = (inl (RetryError (ValueError (txt "Query must be a non-empty string."))),
       slept_twice w) /\
  generate E one [] docs (txt "a") 1 w
    = (inl (RetryError (ValueError (txt "Query must be a non-empty string."))),
       slept_twice w) /\
  generate E one (txt "q") docs (txt "a") 0 w
    = (inl (RetryError (ValueError (txt "max_tokens must be a positive integer."))),
       slept_twice w) /\
  generate E one (txt "q") docs (txt "b") 1 w
    = (inl (RetryError (no_provider_configured (txt "b"))), slept_twice w) /\
  generate_response rcfg [] (txt "x") docs w
    = (inl (RetryError (ValueError (txt "Query must be a non-empty string."))),
       slept_twice w) /\
  generate_response rcfg (txt "q") [] docs w
    = (inl (RetryError (ValueError (txt "LLM output must be a non-empty string."))),
       slept_twice w) /\
  generate_response rcfg (txt "q") (txt "x") [] w
    = (inl (RetryError
              (ValueError (txt "Documents must be a non-empty list of Document objects."))),
       slept_twice w).
Proof.
  cbv zeta. unfold rerank, generate, generate_response.
  split_and!; by apply retry_3_pure_failure.
Qed.
End GenerateTheorems.

(** Closes the goal that the failure just raised names its stage. *)
Ltac stage_named :=
  eexists _, _; split; [reflexivity | by eexists].

Section PipelineFacts.
Context (E : env) (self : pipeline).

Lemma stage_failure_wrapped {A} (s : stage) (m : M A) w e w' :
  stage_retry (try_except m (fun e => raise (RuntimeError (stage_failure s) e))) w
    = (inl e, w') ->
  exists cause, e = RetryError (RuntimeError (stage_failure s) cause).
Proof.
  unfold stage_retry, retry. intros H.
  apply retry_from_inl in H as (e' & w1 & -> & H).
  unfold try_except, raise in H. destruct (m w1) as [[e0|a] w2]; [|done].
  injection H as <- _. by eexists.
Qed.

Lemma run_embedding_failure query w e w' :
  nonempty query = true ->
  run_embedding E self query w = (inl e, w') ->
  exists cause, e = RetryError (RuntimeError (stage_failure StEmbed) cause).
Proof.
  unfold run_embedding. intros ->. cbn [negb]. apply stage_failure_wrapped.
Qed.

Lemma generate_response_body_query cfg query out docs resp :
  generate_response_body cfg query out docs = inr resp -> r_query resp = query.
Proof.
  unfold generate_response_body.
  destruct (negb (nonempty query)); [done|].
  destruct (negb (nonempty out)); [done|].
  destruct docs; [done|].
  destruct (_parse_llm_output out). by intros [= <-].
Qed.

Lemma run_response_formatting_query query out docs w resp w' :
  run_response_formatting self query out docs w = (inr resp, w') ->
  r_query resp = query.
Proof.
  unfold run_response_formatting, stage_retry, retry. intros H.
  apply retry_from_inr in H as [w1 H].
  unfold try_except in H.
  destruct (generate_response _ _ _ _ w1) as [[e|resp'] w2] eqn:Hg; [done|].
  injection H as -> ->.
  unfold generate_response, retry in Hg.
  apply retry_from_inr in Hg as [w3 Hg].
  unfold bind, get_world, lift in Hg.
  destruct (generate_response_body _ _ _ _) eqn:Hb; [done|].
  injection Hg as -> _. by apply generate_response_body_query in Hb.
Qed.

(** Property X29.
    All or nothing, for a non-empty query. When a stage raises after its
    three attempts, [run] raises a failure whose chain of causes holds
    the retry error of that stage and, under it, the stage's own failure
    with the name of the stage, and returns nothing from the stages
    before it; when the five stages return, [run] returns the query, the
    embedding, the reranked passages, the final answer and the
    citations. *)
Theorem run_all_or_nothing query w :
  nonempty query = true ->
  match progress_of E self query w with
  | FailedAt s =>
      exists e w', run E self query w = (inl e, w') /\ names_stage s e
  | Completed embedding reranked_docs formatted_response w' =>
      run E self query w
      = (inr (mkResult query embedding
                (map (fun l => view (w_heap w' l)) reranked_docs)
                (r_final_answer formatted_response)
                (r_citations formatted_response)), w')
  end.
Proof.
  intros Hq. unfold progress_of, run, try_except, bind, names_stage.
  destruct (run_embedding E self query w) as [[e|embedding] w1] eqn:H1.
  { apply run_embedding_failure in H1 as [c ->]; [|done]. stage_named. }
  destruct (run_retrieval E self embedding w1) as [[e|documents] w2] eqn:H2.
  { apply (stage_failure_wrapped StRetrieve) in H2 as [c ->]. stage_named. }
  destruct (run_reranking E self query documents w2) as [[e|reranked] w3] eqn:H3.
  { apply (stage_failure_wrapped StRerank) in H3 as [c ->]. stage_named. }
  destruct (run_generation E self query reranked w3) as [[e|out] w4] eqn:H4.
  { apply (stage_failure_wrapped StGenerate) in H4 as [c ->]. stage_named. }
  destruct (run_response_formatting self query out reranked w4) as [[e|resp] w5] eqn:H5.
  { apply (stage_failure_wrapped StFormat) in H5 as [c ->]. stage_named. }
  apply run_response_formatting_query in H5. unfold get_world, ret. by rewrite H5.
Qed.

Lemma run_blank_query w :
  run E self [] w
  = (inl (RuntimeError "Pipeline failed"
            (RetryError (ValueError (txt "Query must be a non-empty string.")))),
     log (Sleep 2) (log (Sleep 2) w)).
Proof.
  unfold run, try_except, bind, run_embedding, stage_retry.
  by rewrite (retry_3_pure_failure (wait_fixed 2) _
                (ValueError (txt "Query must be a non-empty string."))).
Qed.

(** Claim C6, the failing input. For the empty query the embedding stage
    fails, and what [run] raises is neither the [ValueError] of the
    query check nor a failure that names the stage: the check is retried
    three times, with two sleeps, and [run] wraps the retry error that
    holds it. *)
Theorem run_blank_query_names_no_stage w :
  let e := RuntimeError "Pipeline failed"
             (RetryError (ValueError (txt "Query must be a non-empty string."))) in
  progress_of E self [] w = FailedAt StEmbed /\
  run E self [] w = (inl e, slept_twice w) /\
  (forall s, ~ names_stage s e) /\
  (forall msg, e <> ValueError msg).
Proof.
  cbv zeta. split_and!.
  - unfold progress_of, run_embedding, stage_retry.
    by rewrite (retry_3_pure_failure (wait_fixed 2) _
                  (ValueError (txt "Query must be a non-empty string."))).
  - apply run_blank_query.
  - intros s [cause H]. discriminate H.
  - done.
Qed.
End PipelineFacts.

Lemma cited_passages_sublist out ds : sublist (cited_passages out ds) ds.
Proof.
  unfold cited_passages.
  destruct (first_per_citation (filter _ ds)) as [|d l] eqn:H.
  - etrans; [apply first_per_citation_sublist | apply sublist_filter].
  - rewrite <- H. etrans; [apply first_per_citation_sublist | apply sublist_filter].
Qed.

Lemma cited_passages_NoDup out ds :
  NoDup (map citation_string_of (cited_passages out ds)).
Proof.
  unfold cited_passages.
  destruct (first_per_citation (filter _ ds)) as [|d l] eqn:H.
  - apply first_per_citation_NoDup.
  - rewrite <- H. apply first_per_citation_NoDup.
Qed.

Lemma NoDup_map_take {A B} (f : A -> B) n (l : list A) :
  NoDup (map f l) -> NoDup (map f (take n l)).
Proof.
  revert n. induction l as [|x l IH]; intros [|n]; cbn [take map]; try constructor.
  - inversion H as [|? ? Hx Hl]; subst. intros Hin.
    apply Hx. apply list_elem_of_In in Hin. apply in_map_iff in Hin as (y & <- & Hy).
    apply list_elem_of_In, in_map. apply list_elem_of_In in Hy.
    apply elem_of_take in Hy as (i & Hi & _). apply list_elem_of_In.
    by eapply list_elem_of_lookup_2.
  - inversion H; subst. by apply IH.
Qed.

Lemma generate_response_body_ok cfg query llm_output docs :
  nonempty query = true -> nonempty llm_output = true -> docs <> [] ->
  generate_response_body cfg query llm_output docs
  = inr (mkResponse query (_parse_llm_output llm_output).2
           (slice_to (max_citations cfg) (_extract_citations docs llm_output))).
Proof.
  intros Hq Ho Hd. unfold generate_response_body. rewrite Hq, Ho. cbn [negb].
  destruct docs as [|d ds]; [done|].
  by destruct (_parse_llm_output llm_output).
Qed.

Lemma generate_response_ok cfg query llm_output documents w :
  nonempty query = true -> nonempty llm_output = true -> documents <> [] ->
  generate_response cfg query llm_output documents w
  = (inr (mkResponse query (_parse_llm_output llm_output).2
            (slice_to (max_citations cfg)
               (_extract_citations (map (w_heap w) documents) llm_output))), w).
Proof.
  intros Hq Ho Hd. unfold generate_response. apply retry_first_success.
  unfold bind, get_world, lift. rewrite generate_response_body_ok; try done.
  by destruct documents.
Qed.


(** Claim C4, as amended. For passages whose title and citation string
    are text: the citations of the formatted response are those of the
    first [max_citations] passages of [cited_passages], in passage
    order; there are at most [max_citations] of them and no two of them
    come from passages with the same citation string. *)
Theorem citations_of_response cfg query llm_output documents w :
  nonempty query = true -> nonempty llm_output = true -> documents <> [] ->
  (0 <= max_citations cfg)%Z ->
  forallb text_keys_ok (map (w_heap w) documents) = true ->
  exists resp,
    generate_response cfg query llm_output documents w = (inr resp, w) /\
    let chosen := cited_passages llm_output (map (w_heap w) documents) in
    let n := Z.to_nat (max_citations cfg) in
    r_citations resp = map citation (take n chosen) /\
    (Z.of_nat (length (r_citations resp)) <= max_citations cfg)%Z /\
    NoDup (map citation_string_of (take n chosen)) /\
    sublist (take n chosen) (map (w_heap w) documents).
Proof.
  intros Hq Ho Hd Hmax _.
  eexists. split; [by apply generate_response_ok|].
  cbv zeta. cbn [r_citations]. rewrite slice_to_nonneg by done.
  rewrite extract_citations_spec. split_and!.
  - by rewrite firstn_map.
  - rewrite length_take. lia.
  - apply NoDup_map_take, cited_passages_NoDup.
  - etrans; [apply sublist_take | apply cited_passages_sublist].
Qed.

(** ** The properties on the scenario *)

Import Scenario.

(** Claim C1 on the scenario: the provider tried first times out, the
    second one answers. *)
Lemma generate_falls_back_witness :
  generate env0 registry0 query0 [0; 1] (txt "m") 2048 w0
  = (inr answer0, called [openai_m; groq_m] sys0 usr0 2048 (log (RandBelow 2 0) w0)).
Proof.
  apply (generate_falls_back env0 registry0 query0 [0; 1] (txt "m") 2048 w0 entries0
           groq_m openai_m openai_m groq_m (log (RandBelow 2 0) w0)
           (ServiceError (txt "timeout")) answer0).
  - split_and!; [reflexivity | reflexivity | lia].
  - vm_compute. reflexivity.
  - vm_compute. reflexivity.
  - vm_compute. reflexivity.
  - vm_compute. reflexivity.
  - vm_compute. reflexivity.
  - vm_compute. reflexivity.
Defined.

(** Property X28 on a concrete case: the words of the header occur in
    the reasoning, the header line comes after it. *)
Lemma parse_primary_witness :
  _parse_llm_output
    (py "Reasoning:\nThe **Final Answer:** follows.\n  Final Answer:  \n\nYes, it is.")
  = (txt "The Final Answer: follows.", txt "Yes, it is.").
Proof.
  rewrite (parse_primary _ (py "Reasoning:\nThe **Final Answer:** follows.")
             (txt "  ") (py "  \n") (txt "Yes, it is.")).
  - vm_compute. reflexivity.
  - vm_compute. reflexivity.
  - repeat constructor.
  - repeat constructor.
  - vm_compute. reflexivity.
Defined.


(** Claim C4 on the scenario: two of the passages are referenced, a
    third repeats a citation string. *)
Lemma citations_of_response_witness :
  exists resp,
    generate_response {| max_citations := 2 |} query0 answer0 [0; 1; 2; 3] w0
      = (inr resp, w0) /\
    r_citations resp
      = [txt "Foss v Harbottle [1843] 67 ER 189";
         txt "Edwards v Halliwell [1950] 2 All ER 1064"].
Proof.
  destruct (citations_of_response {| max_citations := 2 |} query0 answer0 [0; 1; 2; 3] w0)
    as (resp & Hr & Hc & _);
    [reflexivity | reflexivity | discriminate | simpl; lia | vm_compute; reflexivity |].
  exists resp. split; [exact Hr|]. rewrite Hc. vm_compute. reflexivity.
Defined.

(** Claim C4 as stated fails: two passages with different citation
    strings can yield the same citation text, which is then listed
    twice. *)
Lemma citations_repeat_a_string :
  let d1 := mkDocument [] (Some (Scenario.meta "A B" "C")) None in
  let d2 := mkDocument [] (Some (Scenario.meta "A" "B C")) None in
  generate_response_body {| max_citations := 5 |} (txt "q") (txt "no case is named") [d1; d2]
    = inr (mkResponse (txt "q") no_answer_sentinel [txt "A B C"; txt "A B C"]) /\
  ~ NoDup [txt "A B C"; txt "A B C"].
Proof.
  split; [vm_compute; reflexivity|].
  intros H. apply NoDup_cons in H as [H _]. apply H. by left.
Qed.

(** Claim C5 on the scenario: four passages scored 1/2, 3, 3, 2 and a
    top-N of three. *)
Lemma rerank_output_witness :
  exists w',
    rerank env0 (reranker_config pipeline0) query0 [0; 1; 2; 3] w0 = (inr [1; 2; 3], w') /\
    StronglySorted
      (fun a b => float_le (rerank_key (w_heap w' b)) (rerank_key (w_heap w' a)) = true)
      [1; 2; 3].
Proof.
  destruct (rerank_output env0 (reranker_config pipeline0) query0 [0; 1; 2; 3] w0)
    as [_ Hout]; [reflexivity | simpl; lia |].
  destruct (rerank env0 (reranker_config pipeline0) query0 [0; 1; 2; 3] w0)
    as [r w'] eqn:Hr.
  assert (r = inr [1; 2; 3]) as ->.
  { apply (f_equal fst) in Hr. vm_compute in Hr. congruence. }
  exists w'. split; [reflexivity|].
  destruct (Hout _ _ eq_refl) as (_ & _ & Hs). apply Hs.
  apply (f_equal snd) in Hr. cbn [snd] in Hr. subst w'.
  repeat constructor.
Defined.

(** Claim C5 as stated fails for a negative top-N: with [top_n = -1] the
    slice drops the last passage only, and three passages come back. *)
Lemma rerank_negative_top_n :
  let cfg := {| reranker_model_name := txt "cross-encoder"; top_n := -1 |} in
  (rerank env0 cfg query0 [0; 1; 2; 3] w0).1 = inr [1; 2; 3] /\
  ~ (Z.of_nat (length [1; 2; 3]) <= top_n cfg)%Z.
Proof. cbv zeta. split; [vm_compute; reflexivity | simpl; lia]. Qed.

(** With a NaN among the scores the output need not be in descending
    order: here the passage scored 1 comes before the one scored 2. *)
Example rerank_nan_score :
  exists w',
    rerank Cases.env_nan (reranker_config pipeline0) query0 [0; 1; 2] w0
      = (inr [0; 1; 2], w') /\
    map (fun l => rerank_key (w_heap w' l)) [0; 1; 2] = [Num 1; NaN; Num 2].
Proof.
  destruct (rerank Cases.env_nan (reranker_config pipeline0) query0 [0; 1; 2] w0)
    as [r w'] eqn:Hr.
  pose proof (f_equal fst Hr) as H1. pose proof (f_equal snd Hr) as H2.
  cbn [fst snd] in H1, H2. subst w'. vm_compute in H1. subst r.
  exists (rerank Cases.env_nan (reranker_config pipeline0) query0 [0; 1; 2] w0).2.
  split; [reflexivity|]. vm_compute. reflexivity.
Qed.

(** Claim C9 on the scenario. *)
Lemma rerank_empty_witness :
  rerank env0 (reranker_config pipeline0) query0 [] w0 = (inr [], w0).
Proof. apply rerank_empty. reflexivity. Defined.

(** Claim C8 on the scenario: no entry serves the requested model. *)
Lemma generate_no_provider_witness :
  generate env0 registry0 query0 [0] (txt "unknown-model") 2048 w0
  = (inl (RetryError (no_provider_configured (txt "unknown-model"))), slept_twice w0).
Proof.
  destruct (generate_no_provider env0 registry0 query0 [0] (txt "unknown-model") 2048 w0)
    as (msg & _ & Hm & Hg & _); [vm_compute; reflexivity|].
  rewrite Hg, Hm; [reflexivity|]. split_and!; [reflexivity | reflexivity | lia].
Defined.

(** Claim C10 on the scenario. *)
Lemma generate_traversal_witness :
  exists ps w1,
    shuffle env0 (candidates registry0 (txt "m")) w0 = (inr ps, w1) /\
    ps ≡ₚ [groq_m; openai_m] /\
    generate_body env0 registry0 query0 [0; 1] (txt "m") 2048 w0
      = traversal env0 ps sys0 usr0 2048 None w1.
Proof.
  apply (generate_traversal env0 registry0 query0 [0; 1] (txt "m") 2048 w0 entries0).
  - split_and!; [reflexivity | reflexivity | lia].
  - vm_compute. discriminate.
  - vm_compute. reflexivity.
Defined.

(** Property X29 on the scenario. *)
Lemma run_all_or_nothing_witness :
  match progress_of env0 pipeline0 query0 w0 with
  | FailedAt s =>
      exists e w', run env0 pipeline0 query0 w0 = (inl e, w') /\ names_stage s e
  | Completed embedding reranked_docs formatted_response w' =>
      run env0 pipeline0 query0 w0
      = (inr (mkResult query0 embedding
                (map (fun l => view (w_heap w' l)) reranked_docs)
                (r_final_answer formatted_response)
                (r_citations formatted_response)), w')
  end.
Proof. apply run_all_or_nothing. reflexivity. Defined.

(** The formatter on a few outputs, as Python's [re] treats them. *)
Example parse_examples :
  _parse_llm_output (py "Reasoning:\nThe **court** held X.\nFinal Answer:\nYes, it is.")
    = (txt "The court held X.", txt "Yes, it is.") /\
  _parse_llm_output (py "x\nFinal Answer:\ny\nFinal Answer:\nz")
    = (txt "x", py "y\nFinal Answer:\nz") /\
  _parse_llm_output (py "Analysis: foo\nAnswer: bar\n\nbaz") = (txt "foo", txt "bar") /\
  _parse_llm_output (py "Conclusion: X\nmore") = (py "Conclusion: X\nmore", txt "X") /\
  _parse_llm_output (py "Conclusion: X\nRest")
    = (py "Conclusion: X\nRest", no_answer_sentinel) /\
  _parse_llm_output (py "Reasoning: a\nFinal Answer: yes") = (txt "a", no_answer_sentinel).
Proof. vm_compute. repeat split. Qed.

(** The end-to-end scenario: five passages retrieved, three kept, the
    answer with both headers, the citations drawn from the kept passages
    the answer refers to. *)
Example scenario_completes :
  exists res w',
    run env0 pipeline0 query0 w0 = (inr res, w') /\
    res_query res = query0 /\
    map v_content (res_documents res)
      = [txt "Edwards v Halliwell"; txt "Burland v Earle"; txt "Prudential v Newman"] /\
    res_final_answer res
      = txt "Fraud on the minority is the exception, see Foss v Harbottle [1843] 67 ER 189." /\
    res_citations res = [txt "Edwards v Halliwell [1950] 2 All ER 1064"].
Proof.
  destruct (run env0 pipeline0 query0 w0) as [[e|res] w'] eqn:Hr.
  - apply (f_equal fst) in Hr. vm_compute in Hr. discriminate Hr.
  - exists res, w'. split; [reflexivity|].
    apply (f_equal fst) in Hr. vm_compute in Hr. injection Hr as <-.
    vm_compute. done.
Qed.

(** * Further properties *)

Section ExtendsFacts.
Context (P : event -> Prop).

Lemma extends_refl w : extends P w w.
Proof. by exists []. Qed.

Lemma extends_trans w1 w2 w3 : extends P w1 w2 -> extends P w2 w3 -> extends P w1 w3.
Proof.
  intros (e1 & H1 & F1 & Hh1 & Hn1) (e2 & H2 & F2 & Hh2 & Hn2).
  exists (e2 ++ e1). split_and!.
  - by rewrite H2, H1, app_assoc.
  - by apply Forall_app.
  - congruence.
  - congruence.
Qed.

Lemma extends_log ev w : P ev -> extends P w (log ev w).
Proof. intros H. exists [ev]. split_and!; try done. by apply Forall_singleton. Qed.

Lemma extends_mk evs w :
  Forall P evs -> extends P w (mkWorld (evs ++ w_trace w) (w_heap w) (w_next w)).
Proof. intros H. by exists evs. Qed.

Lemma extends_retry_from {A} wait n more (body : M A) w :
  (forall s, P (Sleep s)) ->
  (forall w1, extends P w w1 -> extends P w1 (body w1).2) ->
  extends P w (retry_from wait n more body w).2.
Proof.
  intros HS. revert n w. induction more as [|more IH]; intros n w Hb; cbn [retry_from].
  - pose proof (Hb w (extends_refl w)) as H0.
    destruct (body w) as [[e|a] w1]; exact H0.
  - pose proof (Hb w (extends_refl w)) as H0.
    destruct (body w) as [[e|a] w1]; [|exact H0]. cbn [snd] in H0.
    assert (extends P w (log (Sleep (wait n)) w1)) as H1.
    { eapply extends_trans; [exact H0|]. apply extends_log, HS. }
    eapply extends_trans; [exact H1|]. apply IH.
    intros w2 H2. apply Hb. by eapply extends_trans.
Qed.

Lemma retry_from_inr_inv {A} (Inv : world -> Prop) wait n more (body : M A) w a w' :
  (forall w1 s, Inv w1 -> Inv (log (Sleep s) (body w1).2)) ->
  Inv w ->
  retry_from wait n more body w = (inr a, w') ->
  exists w1, Inv w1 /\ body w1 = (inr a, w').
Proof.
  intros Hstep. revert n w. induction more as [|more IH]; intros n w Hw; cbn [retry_from].
  - destruct (body w) as [[e|a'] w1] eqn:Hb; intros H; simplify_eq. eauto.
  - destruct (body w) as [[e|a'] w1] eqn:Hb; intros H.
    + apply IH in H; [done|]. specialize (Hstep w (wait n) Hw). by rewrite Hb in Hstep.
    + simplify_eq. eauto.
Qed.
End ExtendsFacts.

Section RouterMore.
Context (E : env).
Implicit Types (ps : list registered) (w : world) (best : option str).

Lemma called_extends P ps sys usr mt w :
  Forall (fun p => P (call_event p sys usr mt)) ps ->
  extends P w (called ps sys usr mt w).
Proof.
  revert w. induction ps as [|p ps IH]; intros w H; [apply extends_refl|].
  rewrite called_cons. apply Forall_cons in H as [Hp H].
  eapply extends_trans; [by apply extends_log|]. by apply IH.
Qed.

Lemma try_providers_extends P ps sys usr mt best w :
  Forall (fun p => P (call_event p sys usr mt)) ps ->
  extends P w (try_providers E ps sys usr mt best w).2.
Proof.
  intros H. rewrite try_providers_traversal. unfold traversal.
  destruct (first_accepted _) as [[i r]|]; cbn [snd].
  - apply called_extends. by apply Forall_take.
  - by apply called_extends.
Qed.

(** What the loop returns is non-empty, and is the remembered response
    or the response to one of the calls the loop made. *)
Lemma try_providers_inr ps sys usr mt : forall best w r w',
  try_providers E ps sys usr mt best w = (inr r, w') ->
  nonempty r = true /\
  (best = Some r \/
   exists p tr later earlier, p ∈ ps /\
     w_trace w' = later ++ call_event p sys usr mt :: tr /\
     tr = earlier ++ w_trace w /\
     env_provider E tr (entry_config p) sys usr mt = Returns (Some r)).
Proof.
  induction ps as [|p ps IH]; intros best w r w'; cbn [try_providers].
  - destruct best as [b|]; [|done]. destruct (nonempty b) eqn:Hb; [|done].
    unfold ret. intros [= <- <-]. split; [done|by left].
  - unfold call_provider. fold (call_event p sys usr mt).
    set (w1 := log (call_event p sys usr mt) w).
    assert (forall best', try_providers E ps sys usr mt best' w1 = (inr r, w') ->
              nonempty r = true /\
              (best' = Some r \/
               exists p0 tr later earlier, p0 ∈ p :: ps /\
                 w_trace w' = later ++ call_event p0 sys usr mt :: tr /\
                 tr = earlier ++ w_trace w /\
                 env_provider E tr (entry_config p0) sys usr mt = Returns (Some r))) as Hk.
    { intros best' Ht. apply IH in Ht as [Hn Ht]. split; [done|].
      destruct Ht as [Ht|(p0 & tr & later & earlier & Hp0 & Hw & Htr & Ht)]; [by left|].
      right. exists p0, tr, later, (earlier ++ [call_event p sys usr mt]).
      split_and!; [by right|done| |done].
      rewrite Htr. unfold w1. cbn [log w_trace]. by rewrite <- app_assoc. }
    assert (forall best', try_providers E ps sys usr mt best' w1 = (inr r, w') ->
              exists later, w_trace w' = later ++ call_event p sys usr mt :: w_trace w)
      as Hext.
    { intros best' Ht.
      pose proof (try_providers_extends (fun _ => True) ps sys usr mt best' w1) as Hx.
      rewrite Ht in Hx. destruct Hx as (evs & Hx & _); [by apply Forall_forall|].
      by exists evs. }
    destruct (env_provider E (w_trace w) (entry_config p) sys usr mt) as [e|[resp|]] eqn:Hp;
      [apply Hk| |apply Hk].
    destruct (nonempty resp) eqn:Hr; cbn [negb]; [|apply Hk].
    destruct (contains (txt "Final Answer:") resp).
    { intros [= <- <-]. split; [done|]. right.
      exists p, (w_trace w), [], []. split_and!; [by left|done..]. }
    destruct (truthy best); cbn [negb]; [apply Hk|].
    intros Ht. destruct (Hext _ Ht) as [later Hl].
    apply Hk in Ht as [Hn Ht]. split; [done|]. right.
    destruct Ht as [[= <-]|Ht]; [|done].
    exists p, (w_trace w), later, []. split_and!; [by left|done..].
Qed.
End RouterMore.

Section GenerateMore.
Context (E : env).
Implicit Types (registry : list registered) (w : world).

Lemma is_rand_router registry model_id sys usr mt evs :
  forallb is_rand evs = true -> Forall (router_event registry model_id sys usr mt) evs.
Proof.
  intros H. apply Forall_forall. intros ev Hev.
  rewrite forallb_forall in H. apply list_elem_of_In in Hev.
  specialize (H ev Hev). by destruct ev.
Qed.

Lemma candidates_elem registry model_id p :
  p ∈ candidates registry model_id <-> p ∈ registry /\ reg_model_name p = model_id.
Proof.
  unfold candidates. rewrite list_elem_of_filter. unfold serves.
  rewrite bool_decide_eq_true. tauto.
Qed.

Lemma generate_body_extends registry query docs model_id mt w :
  extends (router_event registry model_id
             (system_prompt_of (context_of E (map (w_heap w) docs)))
             (user_prompt_of query) mt)
    w (generate_body E registry query docs model_id mt w).2.
Proof.
  unfold generate_body.
  destruct (negb (nonempty query)); [apply extends_refl|].
  destruct (negb (nonempty model_id)); [apply extends_refl|].
  destruct (mt <=? 0)%Z; [apply extends_refl|].
  destruct (negb (existsb (serves model_id) registry)); [apply extends_refl|].
  unfold bind at 1, get_world. unfold bind at 1, lift. unfold context_of.
  destruct (context_entries E 0 (map (w_heap w) docs)) as [e|entries]; [apply extends_refl|].
  destruct (candidates registry model_id) as [|c cs] eqn:Hc; [apply extends_refl|].
  unfold bind.
  destruct (shuffle_spec E (c :: cs) w) as (y & evs & Hs & Hp & Hevs). rewrite Hs.
  eapply extends_trans; [by apply extends_mk, is_rand_router|].
  apply try_providers_extends. apply Forall_forall. intros p Hp'.
  assert (p ∈ candidates registry model_id) as Hin.
  { rewrite Hc. apply list_elem_of_In. apply (Permutation_in _ Hp). by apply list_elem_of_In. }
  apply candidates_elem in Hin as [Hin Hm].
  cbn. split; [|done]. by exists p.
Qed.

Lemma generate_body_heap registry query docs model_id mt w :
  w_heap (generate_body E registry query docs model_id mt w).2 = w_heap w.
Proof. by destruct (generate_body_extends registry query docs model_id mt w) as (? & ? & ? & ? & ?). Qed.

Lemma generate_body_inr registry query docs model_id mt w r w' :
  generate_body E registry query docs model_id mt w = (inr r, w') ->
  nonempty r = true /\
  exists p tr later earlier, p ∈ registry /\ reg_model_name p = model_id /\
    let sys := system_prompt_of (context_of E (map (w_heap w) docs)) in
    let usr := user_prompt_of query in
    w_trace w' = later ++ call_event p sys usr mt :: tr /\
    tr = earlier ++ w_trace w /\
    env_provider E tr (entry_config p) sys usr mt = Returns (Some r).
Proof.
  unfold generate_body.
  destruct (negb (nonempty query)); [done|].
  destruct (negb (nonempty model_id)); [done|].
  destruct (mt <=? 0)%Z; [done|].
  destruct (negb (existsb (serves model_id) registry)); [done|].
  unfold bind at 1, get_world. unfold bind at 1, lift. unfold context_of.
  destruct (context_entries E 0 (map (w_heap w) docs)) as [e|entries]; [done|].
  destruct (candidates registry model_id) as [|c cs] eqn:Hc; [done|].
  unfold bind.
  destruct (shuffle_spec E (c :: cs) w) as (y & evs & Hs & Hp & Hevs). rewrite Hs.
  intros H.
  apply try_providers_inr in H
    as [Hn [H|(p & tr & later & earlier & Hin & Hw & Htr & H)]]; [done|].
  split; [done|]. exists p, tr, later, (earlier ++ evs).
  assert (p ∈ candidates registry model_id) as Hin'.
  { rewrite Hc. apply list_elem_of_In. apply (Permutation_in _ Hp). by apply list_elem_of_In. }
  apply candidates_elem in Hin' as [? ?]. cbv zeta. split_and!; [done..| |done].
  rewrite Htr. cbn [w_trace]. by rewrite app_assoc.
Qed.
End GenerateMore.

Section GenerateExtras.
Context (E : env).
Implicit Types (registry : list registered) (w : world).

(** Property X2.
    The router talks to nobody else. Whatever [generate] does and however
    it ends, the events it adds are sleeps, random draws and calls of
    registered providers of [model_id], each call carrying the system
    prompt built from the passages, the user prompt built from the query
    and the given token limit; the store is not touched. *)
Theorem generate_calls_only_candidates registry query docs model_id mt w :
  extends (router_event registry model_id
             (system_prompt_of (context_of E (map (w_heap w) docs)))
             (user_prompt_of query) mt)
    w (generate E registry query docs model_id mt w).2.
Proof.
  unfold generate, retry. apply extends_retry_from; [done|].
  intros w1 (evs & _ & _ & Hh & _).
  pose proof (generate_body_extends E registry query docs model_id mt w1) as H.
  by rewrite Hh in H.
Qed.

(** Property X3.
    What [generate] returns is never empty and never made up: it is the
    non-empty completion that a registered provider of [model_id] gave
    to a call of this run. The call, made with the prompts of this run,
    is in the trace the run leaves, after the events that were there
    before it, and [r] is what the provider answered at that point. *)
Theorem generate_returns_provider_text registry query docs model_id mt w r w' :
  generate E registry query docs model_id mt w = (inr r, w') ->
  nonempty r = true /\
  exists p tr later earlier, p ∈ registry /\ reg_model_name p = model_id /\
    let sys := system_prompt_of (context_of E (map (w_heap w) docs)) in
    let usr := user_prompt_of query in
    w_trace w' = later ++ ProviderCall (entry_config p) sys usr mt :: tr /\
    tr = earlier ++ w_trace w /\
    env_provider E tr (entry_config p) sys usr mt = Returns (Some r).
Proof.
  unfold generate, retry. intros H.
  apply (retry_from_inr_inv
           (fun w1 => w_heap w1 = w_heap w /\ exists evs, w_trace w1 = evs ++ w_trace w))
    in H as (w1 & [Hh [evs Hevs]] & H).
  - apply generate_body_inr in H
      as (Hn & p & tr & later & earlier & Hp & Hm & Hw & Htr & Hr).
    rewrite Hh in Hw, Hr. split; [done|].
    exists p, tr, later, (earlier ++ evs). split_and!; [done..| |done].
    rewrite Htr, Hevs. by rewrite app_assoc.
  - intros w1 s [Hh [evs Hevs]]. cbn [log w_heap w_trace].
    destruct (generate_body_extends E registry query docs model_id mt w1)
      as (evs' & Ht' & _ & Hh' & _).
    split; [congruence|]. exists (Sleep s :: evs' ++ evs).
    rewrite Ht', Hevs. cbn. by rewrite app_assoc.
  - split; [done|]. by exists [].
Qed.
End GenerateExtras.

Section AllFail.
Context (E : env).
Implicit Types (registry : list registered) (w : world).

Lemma provider_calls_called ps sys usr mt w :
  length (provider_calls (w_trace (called ps sys usr mt w)))
  = length ps + length (provider_calls (w_trace w)).
Proof.
  revert w. induction ps as [|p ps IH]; intros w; [done|].
  rewrite called_cons, IH. unfold provider_calls, call_event. cbn. lia.
Qed.

Lemma sleeps_called ps sys usr mt w :
  sleeps (w_trace (called ps sys usr mt w)) = sleeps (w_trace w).
Proof.
  revert w. induction ps as [|p ps IH]; intros w; [done|].
  by rewrite called_cons, IH.
Qed.

Lemma filter_rand_app (f : event -> bool) evs tr :
  (forall ev, is_rand ev = true -> f ev = false) ->
  forallb is_rand evs = true -> List.filter f (evs ++ tr) = List.filter f tr.
Proof.
  intros Hf. induction evs as [|ev evs IH]; [done|]. cbn [forallb app List.filter].
  intros [H1 H2]%andb_prop. by rewrite (Hf ev H1), IH.
Qed.

Lemma reply_seq_unusable ps sys usr mt tr :
  (forall tr p sys usr mt, usable (env_provider E tr p sys usr mt) = None) ->
  first_accepted (reply_seq E ps sys usr mt tr) = None /\
  first_usable (reply_seq E ps sys usr mt tr) = None.
Proof.
  intros H. revert tr. induction ps as [|p ps IH]; intros tr; [done|].
  cbn [reply_seq first_accepted first_usable]. unfold accepted. rewrite H.
  destruct (IH (call_event p sys usr mt :: tr)) as [-> ->]. done.
Qed.

Lemma generate_body_all_fail registry query docs model_id mt w entries :
  valid_call query model_id mt ->
  candidates registry model_id <> [] ->
  context_entries E 0 (map (w_heap w) docs) = inr entries ->
  (forall tr p sys usr mt, usable (env_provider E tr p sys usr mt) = None) ->
  exists w', generate_body E registry query docs model_id mt w
             = (inl (RuntimeErrorMsg all_failed_msg), w') /\
    w_heap w' = w_heap w /\
    length (provider_calls (w_trace w'))
    = length (candidates registry model_id) + length (provider_calls (w_trace w)) /\
    sleeps (w_trace w') = sleeps (w_trace w).
Proof.
  intros Hv Hc Hctx Hfail.
  rewrite (generate_body_candidates E registry query docs model_id mt w entries) by done.
  unfold bind.
  destruct (shuffle_spec E (candidates registry model_id) w) as (y & evs & Hs & Hp & Hevs).
  rewrite Hs, try_providers_traversal. unfold traversal.
  destruct (reply_seq_unusable y (system_prompt_of (join [LF; LF] entries))
              (user_prompt_of query) mt
              (w_trace (mkWorld (evs ++ w_trace w) (w_heap w) (w_next w))) Hfail) as [-> ->].
  cbn [truthy]. eexists. split; [reflexivity|]. split_and!.
  - by destruct (called_extends (fun _ => True) y (system_prompt_of (join [LF; LF] entries))
                   (user_prompt_of query) mt
                   (mkWorld (evs ++ w_trace w) (w_heap w) (w_next w)))
      as (? & ? & ? & ? & ?); [by apply Forall_forall|].
  - rewrite provider_calls_called. cbn [w_trace]. unfold provider_calls at 1.
    rewrite filter_rand_app by (done || by intros []).
    by rewrite (Permutation_length Hp).
  - rewrite sleeps_called. cbn [w_trace]. unfold sleeps at 1.
    by rewrite filter_rand_app by (done || by intros []).
Qed.

(** Property X4.
    When every provider fails or answers with nothing, the retry policy
    of [generate] runs the whole traversal three times: each candidate is
    called once per attempt, there are two sleeps of two seconds, and the
    caller gets the retry error that wraps "All LLM providers failed". *)
Theorem generate_all_providers_fail registry query docs model_id mt w entries :
  valid_call query model_id mt ->
  candidates registry model_id <> [] ->
  context_entries E 0 (map (w_heap w) docs) = inr entries ->
  (forall tr p sys usr mt, usable (env_provider E tr p sys usr mt) = None) ->
  exists w',
    generate E registry query docs model_id mt w
    = (inl (RetryError (RuntimeErrorMsg all_failed_msg)), w') /\
    length (provider_calls (w_trace w'))
    = 3 * length (candidates registry model_id) + length (provider_calls (w_trace w)) /\
    sleeps (w_trace w') = [Sleep 2; Sleep 2] ++ sleeps (w_trace w).
Proof.
  intros Hv Hc Hctx Hfail.
  destruct (generate_body_all_fail registry query docs model_id mt w entries)
    as (w1 & H1 & Hh1 & Hn1 & Hs1); try done.
  destruct (generate_body_all_fail registry query docs model_id mt
              (log (Sleep 2) w1) entries) as (w2 & H2 & Hh2 & Hn2 & Hs2); try done.
  { cbn [log w_heap]. by rewrite Hh1. }
  destruct (generate_body_all_fail registry query docs model_id mt
              (log (Sleep 2) w2) entries) as (w3 & H3 & Hh3 & Hn3 & Hs3); try done.
  { cbn [log w_heap] in *. by rewrite Hh2, Hh1. }
  exists w3. unfold generate, retry. cbn [Nat.sub retry_from].
  change (wait_exponential 1 2 10 1) with 2. change (wait_exponential 1 2 10 2) with 2.
  rewrite H1, H2, H3. split; [done|]. split.
  - rewrite Hn3. cbn [log w_trace provider_calls List.filter is_provider_call].
    fold (provider_calls (w_trace w2)). rewrite Hn2.
    cbn [log w_trace provider_calls List.filter is_provider_call].
    fold (provider_calls (w_trace w1)). rewrite Hn1. lia.
  - rewrite Hs3. cbn [log w_trace sleeps List.filter is_sleep].
    fold (sleeps (w_trace w2)). rewrite Hs2.
    cbn [log w_trace sleeps List.filter is_sleep].
    fold (sleeps (w_trace w1)). by rewrite Hs1.
Qed.

Lemma context_entries_none i ds :
  (exists d, d ∈ ds /\ metadata d = None) ->
  context_entries E i ds = inl (AttributeError "'NoneType' object has no attribute 'get'").
Proof.
  intros (d & Hd & Hm). revert i. induction ds as [|d0 ds IH]; intros i.
  - by apply elem_of_nil in Hd.
  - cbn [context_entries]. unfold context_entry at 1.
    destruct (metadata d0) as [md|] eqn:Hd0; [|done].
    apply elem_of_cons in Hd as [->|Hd]; [congruence|].
    by rewrite (IH Hd).
Qed.

(** Property X5.
    A passage whose [metadata] is [None] stops [generate] before any
    provider is called: building the context raises [AttributeError] on
    each of the three attempts. *)
Theorem generate_passage_without_metadata registry query docs model_id mt w l :
  valid_call query model_id mt ->
  candidates registry model_id <> [] ->
  l ∈ docs -> metadata (w_heap w l) = None ->
  generate E registry query docs model_id mt w
  = (inl (RetryError (AttributeError "'NoneType' object has no attribute 'get'")),
     slept_twice w).
Proof.
  intros (Hq & Hm & Ht) Hc Hl Hmd.
  assert (forall w1, w_heap w1 = w_heap w ->
            generate_body E registry query docs model_id mt w1
            = (inl (AttributeError "'NoneType' object has no attribute 'get'"), w1)) as Hb.
  { intros w1 Hh. unfold generate_body. rewrite Hq, Hm. cbn [negb].
    destruct (mt <=? 0)%Z eqn:Hmt; [lia|].
    destruct (existsb (serves model_id) registry) eqn:Hex.
    2:{ by apply existsb_candidates in Hex. }
    cbn [negb]. unfold bind at 1, get_world. unfold bind at 1, lift.
    rewrite context_entries_none; [done|].
    exists (w_heap w l). split; [|done]. rewrite Hh.
    apply list_elem_of_fmap. by exists l. }
  unfold generate, retry. cbn [Nat.sub retry_from].
  by rewrite !Hb.
Qed.
End AllFail.

Section InitFacts.
Context (E : env).

Lemma kind_name_of s k : kind_of s = Some k -> kind_name k = s.
Proof.
  unfold kind_of. repeat case_bool_decide; intros ?; simplify_eq; done.
Qed.

Lemma register_clients_spec configs : forall acc,
  map entry_config (register_clients E configs acc)
  = map entry_config acc ++ filter (fun c => configured E c = true) configs.
Proof.
  induction configs as [|c configs IH]; intros acc; cbn [register_clients].
  - by rewrite filter_nil, app_nil_r.
  - rewrite filter_cons. destruct (decide (configured E c = true)) as [Hc|Hc].
    + unfold configured in Hc. apply andb_prop in Hc as [[H1 H2]%andb_prop H3].
      rewrite H1. cbn [negb].
      destruct (kind_of (provider c)) as [k|] eqn:Hk; [|done].
      destruct (env_client_init E (provider c)); [done|].
      rewrite IH, map_app, <- app_assoc. cbn [map app].
      unfold entry_config at 2. cbn. rewrite (kind_name_of _ _ Hk). by destruct c.
    + unfold configured in Hc.
      destruct (truthy (env_getenv E (upper (provider c) ++ txt "_API_KEY")));
        cbn [negb andb] in *; [|apply IH].
      destruct (kind_of (provider c)) as [k|]; [|apply IH].
      destruct (env_client_init E (provider c)); [apply IH|done].
Qed.

(** Property X1.
    The registry [_initialize_clients] builds is the list of the
    configured entries that have an API key in the environment, name one
    of the four supported providers and whose client could be built, in
    configuration order; when there is no such entry the constructor
    raises [ValueError]. *)
Theorem initialize_clients_registry config :
  match _initialize_clients E config with
  | inr ps =>
      map entry_config ps = filter (fun c => configured E c = true) (providers config)
      /\ 0 < length ps
  | inl e =>
      e = no_valid_providers
      /\ filter (fun c => configured E c = true) (providers config) = []
  end.
Proof.
  unfold _initialize_clients.
  pose proof (register_clients_spec (providers config) []) as H. cbn [map app] in H.
  destruct (register_clients E (providers config) []) as [|p ps].
  - split; [done|]. by rewrite <- H.
  - split; [done|]. cbn. lia.
Qed.
End InitFacts.

Section RerankMore.
Context (E : env).

Lemma slice_to_submseteq {A} n (l : list A) : slice_to n l ⊆+ l.
Proof. unfold slice_to. destruct (0 <=? n)%Z; apply sublist_submseteq, sublist_take. Qed.

Lemma slice_to_length {A} n (l : list A) :
  Z.of_nat (length (slice_to n l)) = slice_length n (Z.of_nat (length l)).
Proof.
  unfold slice_to, slice_length. destruct (0 <=? n)%Z eqn:Hn; rewrite length_take; lia.
Qed.

(** Property X7.
    How many passages the reranker returns, and which. When the model
    answers with [scores], the call returns passages of the input (none
    more often than the input holds it), as many as the slice [[:top_n]]
    keeps of the passages that were paired with a score: [top_n] at
    most, all but the last [-top_n] when [top_n] is negative. *)
Theorem rerank_returns_input_passages cfg query docs w scores :
  nonempty query = true ->
  env_predict E (w_trace w) (pairs_of query docs w) = inr scores ->
  exists out w',
    rerank E cfg query docs w = (inr out, w') /\
    out ⊆+ docs /\
    Z.of_nat (length out)
    = slice_length (top_n cfg) (Z.of_nat (length docs) `min` Z.of_nat (length scores)).
Proof.
  intros Hq Hp. destruct docs as [|d0 docs'] eqn:Hdocs.
  - exists [], w. split; [|split; [done|]].
    + apply retry_first_success. unfold rerank_body. by rewrite Hq.
    + unfold slice_length. cbn. destruct (0 <=? top_n cfg)%Z eqn:Hn; lia.
  - rewrite <- Hdocs in *. assert (docs <> []) as Hd by (by rewrite Hdocs).
    destruct (rerank_body_exact E cfg query docs w scores Hq Hd Hp) as (w' & Hb & _).
    eexists _, w'. split; [by apply retry_first_success|]. split.
    + etrans; [apply slice_to_submseteq|].
      rewrite (sorted_reverse_perm _ _ _). apply sublist_submseteq, sublist_take.
    + rewrite slice_to_length. f_equal.
      rewrite (Permutation_length (sorted_reverse_perm _ _ _)), length_take. lia.
Qed.

(** Property X8.
    The reranker writes scores and nothing else. When the model answers,
    it was invoked once, on one (query, content) pair per passage; no
    object of the store changes its content, its retrieval score or any
    metadata entry other than [rerank_score]; and every passage that was
    paired with a score carries one of the returned scores under
    [rerank_score], also the passages the slice cut off. *)
Theorem rerank_writes_scores cfg query docs w scores :
  nonempty query = true -> docs <> [] ->
  env_predict E (w_trace w) (pairs_of query docs w) = inr scores ->
  exists out w',
    rerank E cfg query docs w = (inr out, w') /\
    w_trace w' = Predict (pairs_of query docs w) :: w_trace w /\
    w_next w' = w_next w /\
    (forall l,
       content (w_heap w' l) = content (w_heap w l) /\
       score (w_heap w' l) = score (w_heap w l) /\
       forall k, k <> "rerank_score" ->
         metadata_or_empty (w_heap w' l) !! k = metadata_or_empty (w_heap w l) !! k) /\
    (forall l, l ∈ take (length scores) docs ->
       exists x, x ∈ scores /\
         metadata_or_empty (w_heap w' l) !! "rerank_score" = Some (VFloat x)).
Proof.
  intros Hq Hd Hp.
  destruct (rerank_body_exact E cfg query docs w scores Hq Hd Hp)
    as (w' & Hb & Htr & Hn & Hh).
  eexists _, w'. split; [by apply retry_first_success|]. split_and!; [done..| |].
  - intros l. rewrite Hh. destruct (score_of (zip docs scores) l) as [x|]; [|done].
    split_and!; [done..|]. intros k Hk. unfold scored_with, metadata_or_empty at 1.
    cbn [metadata]. by rewrite lookup_insert_ne.
  - intros l Hl. rewrite <- zip_fst_prefix in Hl.
    destruct (score_of_elem _ _ Hl) as (x & Hx & Hin). rewrite Hh, Hx.
    exists x. split; [by eapply zip_snd_elem|].
    unfold scored_with, metadata_or_empty at 1. cbn [metadata]. apply lookup_insert_eq.
Qed.

(** Property X9.
    When the scoring model keeps raising [e], the reranker invokes it
    three times, sleeping two seconds after the first and after the
    second failure, and gives up with the retry error that wraps
    "Reranking failed: e"; no passage is modified. *)
Theorem rerank_model_failure cfg query docs w e :
  nonempty query = true -> docs <> [] ->
  (forall tr, env_predict E tr (pairs_of query docs w) = inl e) ->
  let call := Predict (pairs_of query docs w) in
  rerank E cfg query docs w
  = (inl (RetryError (RuntimeError "Reranking failed" e)),
     log call (log (Sleep 2) (log call (log (Sleep 2) (log call w))))).
Proof.
  intros Hq Hd Hp. cbv zeta.
  assert (forall w1, w_heap w1 = w_heap w ->
            rerank_body E cfg query docs w1
            = (inl (RuntimeError "Reranking failed" e),
               log (Predict (pairs_of query docs w)) w1)) as Hb.
  { intros w1 Hh. unfold rerank_body. rewrite Hq. cbn [negb].
    destruct docs as [|d0 docs'] eqn:Hdocs; [done|]. rewrite <- Hdocs in *.
    unfold try_except, bind, get_world, predict.
    assert (map (fun l => (query, content (w_heap w1 l))) docs = pairs_of query docs w) as ->.
    { unfold pairs_of. by rewrite Hh. }
    by rewrite Hp. }
  unfold rerank, retry. cbn [Nat.sub retry_from].
  change (wait_exponential 1 2 10 1) with 2. change (wait_exponential 1 2 10 2) with 2.
  by rewrite !Hb.
Qed.
End RerankMore.

Section TidyFacts.
Implicit Types (s p : str).

Lemma strip_idemp s : strip (strip s) = strip s.
Proof.
  destruct (strip_spec s) as (w1 & w2 & Hs & H1 & H2 & _).
  rewrite Hs at 2. rewrite strip_app_space_l by done. by rewrite strip_app_space_r.
Qed.

Lemma startswith_app_l p a b : startswith p a = true -> startswith p (a ++ b) = true.
Proof. rewrite !startswith_spec. intros [r ->]. exists (r ++ b). by rewrite app_assoc. Qed.

Lemma contains_app_l p a b : contains p a = true -> contains p (a ++ b) = true.
Proof.
  induction a as [|c a IH]; cbn [contains app].
  - rewrite orb_false_r. intros H. destruct p; [|done]. by destruct b.
  - intros [H|H]%orb_prop.
    + change (c :: a ++ b) with ((c :: a) ++ b). by rewrite startswith_app_l.
    + rewrite IH by done. apply orb_true_r.
Qed.

Lemma contains_strip p s : contains p (strip s) = true -> contains p s = true.
Proof.
  intros H. destruct (strip_spec s) as (w1 & w2 & Hs & _). rewrite Hs.
  by apply contains_app, contains_app_l.
Qed.

Lemma startswith_star_pair c d r :
  startswith (txt "**") (c :: d :: r) = is_star c && is_star d.
Proof.
  change (txt "**") with [star; star]. cbn [startswith].
  change (Ascii.eqb star c) with (is_star c). change (Ascii.eqb star d) with (is_star d).
  by rewrite andb_true_r.
Qed.

Lemma contains_star_pair_cons c r :
  contains (txt "**") (c :: r)
  = match r with d :: _ => is_star c && is_star d | [] => false end
    || contains (txt "**") r.
Proof.
  cbn [contains]. f_equal. destruct r as [|d r]; [|apply startswith_star_pair].
  change (txt "**") with [star; star]. cbn [startswith]. apply andb_false_r.
Qed.

Lemma drop_star_runs_no_pair s : forall n,
  contains (txt "**") (drop_star_runs n s) = false.
Proof.
  induction s as [|c s IH]; intros n; cbn [drop_star_runs].
  - by destruct (n =? 1).
  - destruct (is_star c) eqn:Hc; [apply IH|].
    assert (contains (txt "**") (c :: drop_star_runs 0 s) = false) as H0.
    { rewrite contains_star_pair_cons, IH, Hc. by destruct (drop_star_runs 0 s). }
    destruct (n =? 1); [|done].
    cbn [app]. by rewrite contains_star_pair_cons, H0, Hc, andb_false_r.
Qed.

Lemma clean_markdown_tidy x : tidy (clean_markdown x).
Proof.
  rewrite clean_markdown_spec. split; [apply strip_idemp|].
  destruct (contains (txt "**") (strip (drop_star_runs 0 x))) eqn:H; [|done].
  apply contains_strip in H. by rewrite drop_star_runs_no_pair in H.
Qed.
End TidyFacts.

Lemma parse_clean llm_output :
  exists r f, _parse_llm_output llm_output = (clean_markdown r, clean_markdown f).
Proof.
  unfold _parse_llm_output.
  destruct (match split1 _ _ with [p0; p1] => _ | _ => _ end) as [reasoning final_answer].
  by eexists _, _.
Qed.

(** Property X11.
    Whatever the model wrote, both texts the parser returns are tidy:
    they have no white space around them and no run of two or more
    stars is left in them. *)
Theorem parse_output_tidy llm_output :
  tidy (_parse_llm_output llm_output).1 /\ tidy (_parse_llm_output llm_output).2.
Proof.
  destruct (parse_clean llm_output) as (r & f & ->). split; apply clean_markdown_tidy.
Qed.

Section LineEnds.
Implicit Types (s : str).

Lemma to_crlf_head s : match to_crlf s with c :: _ => c <> LF | [] => True end.
Proof.
  destruct s as [|c s]; [done|]. cbn [to_crlf].
  destruct (Ascii.eqb c LF) eqn:Hc; [done|]. by apply Ascii.eqb_neq in Hc.
Qed.

Lemma replace_crlf_to_crlf s : replace_crlf (to_crlf s) = s.
Proof.
  induction s as [|c s IH]; [done|]. cbn [to_crlf].
  destruct (Ascii.eqb c LF) eqn:Hc.
  - apply Ascii.eqb_eq in Hc as ->. cbn [replace_crlf].
    replace (Ascii.eqb CR CR && Ascii.eqb LF LF) with true by done. by rewrite IH.
  - cbn [replace_crlf]. pose proof (to_crlf_head s) as Hh.
    destruct (to_crlf s) as [|d r] eqn:Hs.
    + by rewrite <- IH.
    + assert (Ascii.eqb d LF = false) as -> by (by apply Ascii.eqb_neq).
      rewrite andb_false_r. by rewrite IH.
Qed.

Lemma replace_crlf_no_cr s : CR ∉ s -> replace_crlf s = s.
Proof.
  induction s as [|c s IH]; [done|]. intros H.
  apply not_elem_of_cons in H as [Hc Hs]. cbn [replace_crlf].
  destruct s as [|d r]; [done|].
  assert (Ascii.eqb c CR = false) as -> by (by apply Ascii.eqb_neq).
  cbn [andb]. by rewrite IH.
Qed.
End LineEnds.

(** Property X12.
    Line ends do not matter to the parser: a text without carriage
    returns and the same text with Windows line ends give the same
    reasoning and the same final answer. *)
Theorem parse_windows_line_ends s :
  CR ∉ s -> _parse_llm_output (to_crlf s) = _parse_llm_output s.
Proof.
  intros H. unfold _parse_llm_output.
  by rewrite replace_crlf_to_crlf, replace_crlf_no_cr.
Qed.

Section CitationsMore.

Lemma first_per_citation_nil ds : first_per_citation ds = [] <-> ds = [].
Proof. by destruct ds. Qed.

Lemma filter_false_nil {A} (f : A -> bool) (l : list A) :
  Forall (fun x => f x = false) l -> filter (fun x => f x = true) l = [].
Proof.
  induction 1 as [|x l Hx _ IH]; [done|].
  rewrite filter_cons, decide_False; [done|]. by rewrite Hx.
Qed.

Lemma cited_passages_nil out ds :
  cited_passages out ds = [] <-> Forall (fun d => citable d = false) ds.
Proof.
  unfold cited_passages.
  destruct (first_per_citation (filter _ ds)) as [|d l] eqn:H.
  - rewrite first_per_citation_nil. split.
    + intros Hf. apply Forall_forall. intros d Hd.
      destruct (citable d) eqn:Hc; [|done].
      assert (d ∈ filter (fun d => citable d = true) ds) as Hin
        by (by apply list_elem_of_filter).
      rewrite Hf in Hin. by apply elem_of_nil in Hin.
    + apply filter_false_nil.
  - split; [done|]. intros Hf. exfalso.
    assert (d ∈ first_per_citation
                  (filter (fun d => citable d && referenced out d = true) ds)) as Hd
      by (rewrite H; by left).
    pose proof (first_per_citation_sublist
                  (filter (fun d => citable d && referenced out d = true) ds)) as Hs.
    apply (elem_of_sublist _ _ _ Hd) in Hs. clear Hd. rename Hs into Hd.
    apply list_elem_of_filter in Hd as [Hc Hd].
    rewrite Forall_forall in Hf. rewrite (Hf d Hd) in Hc. done.
Qed.

(** Property X14.
    At least one citation is given whenever one can be: for a positive
    [max_citations], the citation list of the response is empty exactly
    when no passage has both a case title and a citation string. *)
Theorem response_cites_when_citable cfg query llm_output documents w :
  nonempty query = true -> nonempty llm_output = true -> documents <> [] ->
  (0 < max_citations cfg)%Z ->
  forallb text_keys_ok (map (w_heap w) documents) = true ->
  exists resp,
    generate_response cfg query llm_output documents w = (inr resp, w) /\
    (r_citations resp = [] <->
     Forall (fun d => citable d = false) (map (w_heap w) documents)).
Proof.
  intros Hq Ho Hd Hmax _.
  eexists. split; [by apply generate_response_ok|].
  cbn [r_citations]. rewrite slice_to_nonneg by lia.
  rewrite extract_citations_spec, <- (cited_passages_nil llm_output).
  destruct (cited_passages llm_output (map (w_heap w) documents)) as [|d l].
  { cbn [map]. by rewrite take_nil. }
  destruct (Z.to_nat (max_citations cfg)) as [|n] eqn:Hn; [lia|]. done.
Qed.

(** Property X16.
    A negative [max_citations] does not mean "no citations": the slice
    [citations[:max_citations]] then drops the last [-max_citations]
    citations and keeps the others. *)
Theorem response_negative_max_citations cfg query llm_output documents w :
  nonempty query = true -> nonempty llm_output = true -> documents <> [] ->
  (max_citations cfg < 0)%Z ->
  forallb text_keys_ok (map (w_heap w) documents) = true ->
  exists resp,
    generate_response cfg query llm_output documents w = (inr resp, w) /\
    let chosen := cited_passages llm_output (map (w_heap w) documents) in
    r_citations resp
    = map citation (take (length chosen - Z.to_nat (- max_citations cfg)) chosen).
Proof.
  intros Hq Ho Hd Hmax _.
  eexists. split; [by apply generate_response_ok|].
  cbv zeta. cbn [r_citations]. unfold slice_to.
  destruct (0 <=? max_citations cfg)%Z eqn:Hn; [lia|].
  rewrite extract_citations_spec, length_map. by rewrite firstn_map.
Qed.
End CitationsMore.

Section FallbackAnswer.
Implicit Types (s X Y : str) (g : option str).

Lemma not_r_spec d : chr_not_nocase (ascii_of_nat 82) d = negb (is_letter_r d).
Proof. by destruct d as [[] [] [] [] [] [] [] []]. Qed.

Lemma search_header_none t :
  contains HDR t = false -> search re_final_answer_line t = None.
Proof.
  intros H. apply search_from_none. intros a b ->.
  destruct (match_here re_final_answer_line b) as [[r g]|] eqn:Hm; [|done].
  apply header_sound in Hm as (w1 & w2 & -> & _).
  rewrite contains_app in H; [done|].
  change (LF :: w1 ++ HDR ++ w2 ++ LF :: r) with ((LF :: w1) ++ HDR ++ w2 ++ LF :: r).
  apply contains_app, contains_prefix.
Qed.

(** The two ways the fallback pattern can end, tried on a line break:
    the match keeps the group it was given. *)
Lemma fallback_tail_sound s g x :
  mt (Alt (cats [Chr (chr_eq LF); Star is_space; Eos])
          (cats [Chr (chr_eq LF); Star is_space; Chr (chr_not_nocase (ascii_of_nat 82))]))
     s g (fun s' g' => Some (s', g')) = Some x ->
  x.2 = g /\ exists r, s = LF :: r.
Proof.
  cbn [cats mt]. destruct s as [|c s]; [done|].
  destruct (chr_eq LF c) eqn:Hc; [|done]. apply chr_eq_true in Hc as ->.
  intros H. split; [|by eexists].
  destruct (star_greedy is_space s (fun s' => if at_end s' then Some (s', g) else None))
    as [y|] eqn:H1.
  - injection H as <-. apply star_greedy_sound in H1 as (w & s' & _ & _ & H1).
    destruct (at_end s'); [|done]. by injection H1 as <-.
  - apply star_greedy_sound in H as (w & s' & _ & _ & H).
    destruct s' as [|c' s']; [done|].
    destruct (chr_not_nocase (ascii_of_nat 82) c'); [|done]. by injection H as <-.
Qed.

Lemma fallback_tail_complete d Y g :
  is_letter_r d = false ->
  is_Some (mt (Alt (cats [Chr (chr_eq LF); Star is_space; Eos])
                   (cats [Chr (chr_eq LF); Star is_space;
                          Chr (chr_not_nocase (ascii_of_nat 82))]))
              (LF :: d :: Y) g (fun s' g' => Some (s', g'))).
Proof.
  intros Hd. cbn [cats mt]. replace (chr_eq LF LF) with true by done.
  destruct (star_greedy is_space (d :: Y) (fun s' => if at_end s' then Some (s', g) else None));
    [done|].
  apply (star_greedy_complete is_space [] (d :: Y)); [done|].
  rewrite not_r_spec, Hd. done.
Qed.

(** The lazy group runs to the first line break at which the rest of the
    pattern matches. *)
Lemma star_lazy_to_line_end {R} X rest (kk : str -> option R) x :
  LF ∉ X ->
  (forall s', match s' with c :: _ => c <> LF | [] => True end -> kk s' = None) ->
  kk (LF :: rest) = Some x ->
  star_lazy chr_any (X ++ LF :: rest) kk = Some x.
Proof.
  intros HX Hk Hx. induction X as [|c X IH]; cbn [app].
  - cbn [star_lazy]. by rewrite Hx.
  - apply not_elem_of_cons in HX as [Hc HX]. cbn [star_lazy].
    rewrite (Hk (c :: X ++ LF :: rest)) by (cbn; congruence).
    cbn. by apply IH.
Qed.

Lemma mt_group_lazy {R} (tl : regex) s g (k : str -> option str -> option R) :
  mt (Cat (Group (StarLazy chr_any)) tl) s g k
  = star_lazy chr_any s (fun s' => mt tl s' (Some (take (length s - length s') s)) k).
Proof. reflexivity. Qed.

(** The front of the fallback pattern on a text that starts with the
    label, a colon, a space and then the answer. *)
Lemma mt_conclusion_label {R} (r : regex) c rest (k : str -> option str -> option R) x :
  is_space c = false ->
  mt r (c :: rest) None k = Some x ->
  mt (Cat re_answer_words
        (Cat (Opt (Chr (chr_eq (ascii_of_nat 58))))
           (Cat (Star is_space) (Cat (Opt (Chr (chr_eq LF))) r))))
     (txt "Conclusion: " ++ c :: rest) None k = Some x.
Proof.
  intros Hc Hx.
  assert (chr_eq LF c = false) as Hne.
  { unfold chr_eq. apply Ascii.eqb_neq. by intros <-. }
  change (mt (Cat re_answer_words ?r0) (txt "Conclusion: " ++ ?t) None ?k0)
    with (mt r0 (":"%char :: " "%char :: t) None k0).
  cbn [mt]. replace (chr_eq (ascii_of_nat 58) ":"%char) with true by done.
  cbn [star_greedy]. replace (is_space " "%char) with true by done.
  rewrite Hc, Hne, Hx. done.
Qed.

Lemma conclusion_match c X d Y :
  is_space c = false -> LF ∉ X -> is_letter_r d = false ->
  exists s', match_here re_fallback_answer (txt "Conclusion: " ++ (c :: X) ++ LF :: d :: Y)
             = Some (s', Some (c :: X)).
Proof.
  intros Hc HX Hd.
  assert (c <> LF) as Hne by (intros ->; done).
  destruct (fallback_tail_complete d Y (Some (c :: X)) Hd) as [[s' g'] Hs'].
  pose proof (fallback_tail_sound _ _ _ Hs') as [Hg _]. cbn in Hg. subst g'.
  exists s'. unfold match_here, re_fallback_answer. cbn [cats].
  change ((c :: X) ++ LF :: d :: Y) with (c :: X ++ LF :: d :: Y).
  apply mt_conclusion_label; [done|]. rewrite mt_group_lazy.
  change (c :: X ++ LF :: d :: Y) with ((c :: X) ++ LF :: d :: Y).
  apply star_lazy_to_line_end.
  - by apply not_elem_of_cons.
  - intros s1 Hs1.
    destruct (mt _ s1 _ _) as [y|] eqn:Hy; [|done].
    apply fallback_tail_sound in Hy as [_ [r ->]]. done.
  - replace (length ((c :: X) ++ LF :: d :: Y) - length (LF :: d :: Y)) with (length (c :: X))
      by (rewrite length_app; lia).
    by rewrite take_app_length.
Qed.
End FallbackAnswer.

(** Property X13.
    The fallback finds an answer that is followed by a further line. For
    a text without the [Final Answer:] header that, once trimmed, starts
    with [Conclusion: X] on its first line, the next line starting with
    a character other than R or r, the final answer is [X], trimmed and
    cleared of star runs. *)
Theorem parse_conclusion_before_next_line llm_output c X d Y :
  strip (replace_crlf llm_output) = txt "Conclusion: " ++ (c :: X) ++ LF :: d :: Y ->
  is_space c = false -> LF ∉ X -> is_letter_r d = false ->
  contains HDR (strip (replace_crlf llm_output)) = false ->
  (_parse_llm_output llm_output).2 = clean_markdown (strip (c :: X)).
Proof.
  intros Ht Hc HX Hd Hh. unfold _parse_llm_output, split1.
  rewrite (search_header_none _ Hh).
  destruct (conclusion_match c X d Y Hc HX Hd) as [s' Hm]. rewrite <- Ht in Hm.
  assert (search re_fallback_answer (strip (replace_crlf llm_output))
          = Some (MatchObj [] s' (Some (c :: X)))) as ->.
  { unfold search. destruct (strip (replace_crlf llm_output)); cbn [search_from];
      by rewrite Hm. }
  by destruct (search re_fallback_reasoning _).
Qed.

Section HeaderOnFirstLine.
Implicit Types (s : str) (g : option str).

Lemma hdr_without_lf : LF ∉ HDR.
Proof. apply (bool_decide_unpack _). vm_compute. exact I. Qed.

(** A text with one line feed has one place where a line feed stands. *)
Lemma one_lf_split (x y a z : str) : LF ∉ x -> LF ∉ y -> x ++ LF :: y = a ++ LF :: z -> a = x /\ z = y.
Proof.
  intros Hx Hy H. apply app_eq_app in H as [l [[-> Hl] | [-> Hl]]].
  - destruct l as [|c l]; [rewrite app_nil_r; by injection Hl as ->|].
    injection Hl as <- _. exfalso. apply Hx. set_solver.
  - destruct l as [|c l]; [rewrite app_nil_r; by injection Hl as ->|].
    injection Hl as <- ->. exfalso. apply Hy. set_solver.
Qed.

Lemma search_header_one_lf (x y : str) :
  LF ∉ x -> LF ∉ y -> search re_final_answer_line (x ++ LF :: y) = None.
Proof.
  intros Hx Hy. apply search_from_none. intros a b Hab.
  destruct (match_here re_final_answer_line b) as [[r g]|] eqn:Hm; [|done].
  apply header_sound in Hm as (w1 & w2 & -> & _).
  apply one_lf_split in Hab as [_ <-]; [|done..].
  exfalso. apply Hy. set_solver.
Qed.

(** Neither way of ending the fallback pattern applies at a line feed
    that is followed by the letter R. *)
Lemma fallback_tail_none c rest g :
  is_space c = false -> is_letter_r c = true ->
  mt (Alt (cats [Chr (chr_eq LF); Star is_space; Eos])
          (cats [Chr (chr_eq LF); Star is_space; Chr (chr_not_nocase (ascii_of_nat 82))]))
     (LF :: c :: rest) g (fun s' g' => Some (s', g')) = None.
Proof.
  intros Hc Hr. cbn [cats mt]. replace (chr_eq LF LF) with true by done.
  cbn [star_greedy]. rewrite Hc, not_r_spec, Hr. cbn [negb].
  assert (at_end (c :: rest) = false) as ->; [|done].
  destruct rest; [|done]. cbn. apply Ascii.eqb_neq. by intros ->.
Qed.

Lemma star_lazy_here {R} p s (kk : str -> option R) x :
  kk s = Some x -> star_lazy p s kk = Some x.
Proof. intros H. destruct s; cbn [star_lazy]; by rewrite H. Qed.

Lemma fallback_answer_tail s x :
  match_here re_fallback_answer s = Some x ->
  exists a s5 g5, s = a ++ s5 /\
    mt (Alt (cats [Chr (chr_eq LF); Star is_space; Eos])
            (cats [Chr (chr_eq LF); Star is_space; Chr (chr_not_nocase (ascii_of_nat 82))]))
       s5 g5 (fun s' g' => Some (s', g')) = Some x.
Proof.
  unfold match_here, re_fallback_answer. cbn [cats]. intros H.
  apply mt_cat_suffix in H as (a1 & s1 & g1 & -> & H).
  apply mt_cat_suffix in H as (a2 & s2 & g2 & -> & H).
  apply mt_cat_suffix in H as (a3 & s3 & g3 & -> & H).
  apply mt_cat_suffix in H as (a4 & s4 & g4 & -> & H).
  apply mt_cat_suffix in H as (a5 & s5 & g5 & -> & H).
  exists (a1 ++ a2 ++ a3 ++ a4 ++ a5), s5, g5. split; [|done].
  by rewrite <- !app_assoc.
Qed.

Lemma search_fallback_before_r (x : str) c rest :
  LF ∉ x -> LF ∉ c :: rest -> is_space c = false -> is_letter_r c = true ->
  search re_fallback_answer (x ++ LF :: c :: rest) = None.
Proof.
  intros Hx Hy Hc Hr. apply search_from_none. intros a b Hab.
  destruct (match_here re_fallback_answer b) as [m|] eqn:Hm; [|done].
  apply fallback_answer_tail in Hm as (a' & s5 & g5 & -> & Hm).
  destruct (fallback_tail_sound _ _ _ Hm) as [_ [r ->]].
  rewrite app_assoc in Hab. apply one_lf_split in Hab as [_ ->]; [|done..].
  by rewrite fallback_tail_none in Hm.
Qed.

(** The front of the fallback pattern on a text that starts with the
    header on a line of its own: the label and the colon are read, and
    since no line feed follows the answer the group has to start at the
    line feed that ends the header line. *)
Lemma mt_header_label {R} (r : regex) c rest (k : str -> option str -> option R) x :
  is_space c = false ->
  mt r (c :: rest) None k = None ->
  mt r (LF :: c :: rest) None k = Some x ->
  mt (Cat re_answer_words
        (Cat (Opt (Chr (chr_eq (ascii_of_nat 58))))
           (Cat (Star is_space) (Cat (Opt (Chr (chr_eq LF))) r))))
     (HDR ++ LF :: c :: rest) None k = Some x.
Proof.
  intros Hc Hno Hx.
  assert (chr_eq LF c = false) as Hne.
  { unfold chr_eq. apply Ascii.eqb_neq. by intros <-. }
  change (mt (Cat re_answer_words ?r0) (HDR ++ ?t) None ?k0)
    with (match mt r0 (":"%char :: t) None k0 with
          | Some y => Some y
          | None => mt (Alt (lit_nocase (txt "Answer")) (lit_nocase (txt "Conclusion")))
                      (HDR ++ t) None (fun s' g' => mt r0 s' g' k0)
          end).
  cbn [mt]. replace (chr_eq (ascii_of_nat 58) ":"%char) with true by done.
  cbn [star_greedy]. replace (is_space LF) with true by done.
  replace (chr_eq LF LF) with true by done.
  rewrite Hc, Hne, Hno, Hx. done.
Qed.

Lemma header_first_line_match c rest :
  is_space c = false -> LF ∉ c :: rest -> is_letter_r c = false ->
  exists s', match_here re_fallback_answer (HDR ++ LF :: c :: rest) = Some (s', Some []).
Proof.
  intros Hc Hy Hr.
  destruct (fallback_tail_complete c rest (Some []) Hr) as [[s' g'] Hs'].
  pose proof (fallback_tail_sound _ _ _ Hs') as [Hg _]. cbn in Hg. subst g'.
  exists s'. unfold match_here, re_fallback_answer. cbn [cats].
  apply mt_header_label; [done| |].
  - rewrite mt_group_lazy.
    destruct (star_lazy _ _ _) as [y|] eqn:Hl; [|done].
    apply star_lazy_sound in Hl as (w & s1 & Hs1 & _ & Hl).
    apply fallback_tail_sound in Hl as [_ [r ->]].
    exfalso. apply Hy. rewrite Hs1. set_solver.
  - rewrite mt_group_lazy. apply star_lazy_here.
    replace (length (LF :: c :: rest) - length (LF :: c :: rest)) with 0 by lia.
    exact Hs'.
Qed.
End HeaderOnFirstLine.

(** Claim C2, the failing inputs. When the header [Final Answer:] is the
    first line of the trimmed output and the answer is the one line that
    follows it, the answer is lost: the final answer comes back empty,
    or as the sentinel when the answer starts with the letter R. *)
Theorem parse_header_first_line_loses_answer llm_output c rest :
  strip (replace_crlf llm_output) = HDR ++ LF :: c :: rest ->
  is_space c = false -> LF ∉ rest ->
  (_parse_llm_output llm_output).2
  = if is_letter_r c then no_answer_sentinel else [].
Proof.
  intros Ht Hc Hrest.
  assert (LF ∉ c :: rest) as Hy.
  { apply not_elem_of_cons. split; [by intros <-|done]. }
  unfold _parse_llm_output, split1.
  rewrite Ht, search_header_one_lf by (done || apply hdr_without_lf).
  destruct (is_letter_r c) eqn:Hr.
  - rewrite search_fallback_before_r by (done || apply hdr_without_lf).
    destruct (search re_fallback_reasoning _); vm_compute; reflexivity.
  - destruct (header_first_line_match c rest Hc Hy Hr) as [s' Hm].
    assert (search re_fallback_answer (HDR ++ LF :: c :: rest)
            = Some (MatchObj [] s' (Some []))) as ->.
    { unfold search. change (HDR ++ LF :: c :: rest)
        with ("F"%char :: tl HDR ++ LF :: c :: rest) in *.
      cbn [search_from]. by rewrite Hm. }
    by destruct (search re_fallback_reasoning _).
Qed.

(** Claim C2 at its failing input: the header on the first line, the
    answer on the second. *)
Lemma parse_header_first_line_witness :
  (_parse_llm_output (py "Final Answer:\nYes")).2 = [].
Proof.
  apply (parse_header_first_line_loses_answer _ "Y"%char (txt "es")).
  - vm_compute. reflexivity.
  - reflexivity.
  - apply (bool_decide_unpack _). vm_compute. exact I.
Defined.

Section Blank.
Implicit Types (s : str).

Lemma strip_nil_iff s : strip s = [] <-> all_space s.
Proof.
  split.
  - intros H. destruct (strip_spec s) as (w1 & w2 & Hs & H1 & H2 & _).
    rewrite Hs, H. cbn [app]. by apply Forall_app.
  - intros H. unfold strip. by rewrite rstrip_all_space.
Qed.

Lemma nonempty_strip s : nonempty (strip s) = false <-> all_space s.
Proof. rewrite <- strip_nil_iff. by destruct (strip s). Qed.
End Blank.

Section EmbedMore.
Context (E : env).

Lemma wait_exponential_1 : wait_exponential 1 2 10 1 = 2.
Proof. reflexivity. Qed.
Lemma wait_exponential_2 : wait_exponential 1 2 10 2 = 2.
Proof. reflexivity. Qed.

Lemma embed_body_blank cfg texts input_type w :
  texts = [] \/ (exists t, t ∈ texts /\ all_space t) ->
  embed_body E cfg texts input_type w = (inl texts_rejected, w).
Proof.
  intros H. unfold embed_body.
  assert (match texts with [] => true | _ => false end
          || negb (forallb (fun t => nonempty (strip t)) texts) = true) as ->; [|done].
  destruct H as [->|(t & Ht & Hs)]; [done|].
  apply orb_true_iff. right. apply negb_true_iff.
  destruct (forallb _ texts) eqn:Hf; [|done].
  rewrite forallb_forall in Hf. apply list_elem_of_In in Ht.
  specialize (Hf t Ht). apply nonempty_strip in Hs. congruence.
Qed.

(** Property X17.
    The embedding client rejects an empty list of texts, and any text
    that is empty or white space only, without calling the embedding
    service: the check fails on each of the three attempts and the
    caller gets the retry error after two sleeps of two seconds. *)
Theorem embed_rejects_blank_text cfg texts input_type w :
  texts = [] \/ (exists t, t ∈ texts /\ all_space t) ->
  embed E cfg texts input_type w = (inl (RetryError texts_rejected), slept_twice w).
Proof.
  intros H. unfold embed.
  rewrite (retry_3_pure_failure _ _ texts_rejected); [done|].
  intros w1. by apply embed_body_blank.
Qed.
End EmbedMore.

Section RetrieveMore.
Context (E : env).

Lemma new_documents_spec ms : forall w,
  let kept := List.filter has_metadata ms in
  exists w',
    new_documents ms w = (inr (seq (w_next w) (length kept)), w') /\
    w_trace w' = w_trace w /\
    w_next w' = w_next w + length kept /\
    map (w_heap w') (seq (w_next w) (length kept)) = map passage_of kept /\
    (forall l, l < w_next w -> w_heap w' l = w_heap w l).
Proof.
  induction ms as [|m ms IH]; intros w; cbn [new_documents List.filter].
  - exists w. cbn. split_and!; try done; lia.
  - destruct (has_metadata m) eqn:Hm.
    + unfold bind at 1, new_document at 1. fold (passage_of m).
      set (w1 := mkWorld _ _ _).
      destruct (IH w1) as (w' & Hn & Htr & Hnx & Hh & Hold).
      exists w'. unfold bind, ret. rewrite Hn. cbn [length seq map w_next] in *.
      subst w1. cbn [w_next w_trace w_heap] in *. split_and!; try done.
      * lia.
      * f_equal; [|done]. rewrite Hold by lia. by rewrite Nat.eqb_refl.
      * intros l Hl. rewrite Hold by lia.
        destruct (Nat.eqb l (w_next w)) eqn:El; [|done]. apply Nat.eqb_eq in El. lia.
    + apply IH.
Qed.

(** Property X18.
    What [retrieve] returns when the index answers: one new passage per
    match that has metadata, in the order of the index, holding the
    text found under ["text"] in the metadata (or the empty text), the
    metadata and the score of the match; matches without metadata are
    left out, the passages already in the store are not touched, and
    the index was queried once. *)
Theorem retrieve_new_passages cfg query_embedding w ms :
  query_embedding <> [] ->
  env_index_query E (w_trace w) query_embedding (retrieval_top_k cfg) = inr ms ->
  Forall (fun m => text_key_ok (default ∅ (match_metadata m)) "text" = true) ms ->
  let kept := List.filter has_metadata ms in
  exists out w',
    retrieve E cfg query_embedding w = (inr out, w') /\
    out = seq (w_next w) (length kept) /\
    map (w_heap w') out = map passage_of kept /\
    (forall l, l < w_next w -> w_heap w' l = w_heap w l) /\
    w_trace w' = IndexQuery query_embedding (retrieval_top_k cfg) :: w_trace w.
Proof.
  intros Hq Hi _ kept.
  destruct (new_documents_spec ms
              (log (IndexQuery query_embedding (retrieval_top_k cfg)) w))
    as (w' & Hn & Htr & Hnx & Hh & Hold).
  exists (seq (w_next w) (length kept)), w'. split; [|by split_and!].
  apply retry_first_success. unfold retrieve_body.
  destruct query_embedding as [|x v]; [done|].
  unfold try_except, bind. rewrite Hi. cbn [log w_next] in Hn. by rewrite Hn.
Qed.
End RetrieveMore.

Lemma retry_3_failure_with {A} wait (body : M A) e (f : world -> world) :
  (forall w, body w = (inl e, f w)) ->
  forall w, retry 3 wait body w
            = (inl (RetryError e),
               f (log (Sleep (wait 2)) (f (log (Sleep (wait 1)) (f w))))).
Proof. intros H w. unfold retry. cbn [Nat.sub retry_from]. by rewrite !H. Qed.

Section NestedRetries.
Context (E : env) (self : pipeline).

Lemma run_embedding_fails_with query e (f : world -> world) :
  nonempty query = true ->
  (forall w, embed E (embedding_config self) [query] (txt "query") w = (inl e, f w)) ->
  forall w, run E self query w
            = (inl (RuntimeError "Pipeline failed"
                      (RetryError (RuntimeError "Embedding failed" e))),
               f (log (Sleep 2) (f (log (Sleep 2) (f w))))).
Proof.
  intros Hn He w. unfold run, try_except at 1, bind at 1.
  unfold run_embedding, stage_retry. rewrite Hn. cbn [negb].
  rewrite (retry_3_failure_with _ _ (RuntimeError "Embedding failed" e) f); [done|].
  intros w1. unfold try_except, bind. by rewrite He.
Qed.

(** Property X21.
    A query of white space only passes the pipeline's own check and is
    rejected by the embedding client, three times on each of the three
    attempts of the stage: [run] fails naming the embedding stage after
    eight sleeps of two seconds, and no outside service is called. *)
Theorem run_whitespace_query query w :
  query <> [] -> all_space query ->
  run E self query w
  = (inl (RuntimeError "Pipeline failed"
            (RetryError (RuntimeError "Embedding failed" (RetryError texts_rejected)))),
     slept 8 w).
Proof.
  intros Hq Hs.
  assert (nonempty query = true) as Hn by (by destruct query).
  rewrite (run_embedding_fails_with query (RetryError texts_rejected) slept_twice); [done|done|].
  intros w1. unfold embed.
  rewrite (retry_3_pure_failure _ _ texts_rejected); [done|].
  intros w2. apply embed_body_blank. right. exists query. split; [by left|done].
Qed.

Lemma embed_body_service_down cfg query w e :
  ~ all_space query ->
  (forall tr, env_embed E tr [query] (txt "query") = inl e) ->
  embed_body E cfg [query] (txt "query") w
  = (inl (RuntimeError "Embedding failed" e), log (EmbedCall [query] (txt "query")) w).
Proof.
  intros Hs He. unfold embed_body. cbn [forallb].
  destruct (nonempty (strip query)) eqn:Hn.
  2:{ by apply nonempty_strip in Hn. }
  cbn [andb negb orb]. rewrite bool_decide_eq_true_2 by done.
  cbn [andb negb orb]. unfold try_except. by rewrite He.
Qed.

(** Property X22.
    Retries multiply. When the embedding service keeps failing with
    [e], the client's three attempts are repeated by each of the three
    attempts of the stage: the service is called nine times, with eight
    sleeps of two seconds, before [run] fails naming the embedding
    stage. *)
Theorem run_embedding_service_down query w e :
  ~ all_space query ->
  (forall tr, env_embed E tr [query] (txt "query") = inl e) ->
  let attempts := failed_embed_attempts query in
  run E self query w
  = (inl (RuntimeError "Pipeline failed"
            (RetryError (RuntimeError "Embedding failed"
               (RetryError (RuntimeError "Embedding failed" e))))),
     mkWorld (attempts ++ Sleep 2 :: attempts ++ Sleep 2 :: attempts ++ w_trace w)
       (w_heap w) (w_next w)).
Proof.
  intros Hs He. cbv zeta.
  assert (nonempty query = true) as Hn.
  { destruct query; [|done]. exfalso. apply Hs. constructor. }
  set (call := EmbedCall [query] (txt "query")).
  rewrite (run_embedding_fails_with query
             (RetryError (RuntimeError "Embedding failed" e))
             (fun w => log call (log (Sleep 2) (log call (log (Sleep 2) (log call w))))));
    [done|done|].
  intros w1. unfold embed.
  rewrite (retry_3_failure_with _ _ (RuntimeError "Embedding failed" e) (log call)); [done|].
  intros w2. by apply embed_body_service_down.
Qed.
End NestedRetries.

Lemma extends_weaken (P Q : event -> Prop) w w' :
  (forall ev, P ev -> Q ev) -> extends P w w' -> extends Q w w'.
Proof.
  intros H (evs & Ht & Hf & Hh & Hn). exists evs. split_and!; try done.
  by eapply Forall_impl.
Qed.

Lemma extends_heap P w w' : extends P w w' -> w_heap w' = w_heap w.
Proof. by intros (? & ? & ? & ? & ?). Qed.

Section Frames.
Context (E : env) (self : pipeline).

Lemma stage_retry_extends {A} P (m : M A) s w :
  (forall n, P (Sleep n)) ->
  (forall w1, extends P w w1 -> extends P w1 (m w1).2) ->
  extends P w (stage_retry (try_except m (fun e => raise (RuntimeError s e))) w).2.
Proof.
  intros HS Hm. unfold stage_retry, retry. apply extends_retry_from; [done|].
  intros w1 H1. specialize (Hm w1 H1). unfold try_except.
  by destruct (m w1) as [[e|a] w2].
Qed.

Lemma generate_any registry query docs model_id mt w :
  extends any_event w (generate E registry query docs model_id mt w).2.
Proof.
  unfold generate, retry. apply extends_retry_from; [done|]. intros w1 _.
  eapply extends_weaken; [|apply generate_body_extends]. done.
Qed.

Lemma run_generation_any query docs w :
  extends any_event w (run_generation E self query docs w).2.
Proof.
  unfold run_generation. apply stage_retry_extends; [done|]. intros w1 _.
  unfold bind, get_world. apply generate_any.
Qed.

Lemma generate_response_any cfg query out docs w :
  extends any_event w (generate_response cfg query out docs w).2.
Proof.
  unfold generate_response, retry. apply extends_retry_from; [done|]. intros w1 _.
  unfold bind, get_world, lift. destruct (generate_response_body _ _ _ _); apply extends_refl.
Qed.

Lemma run_response_formatting_any query out docs w :
  extends any_event w (run_response_formatting self query out docs w).2.
Proof.
  unfold run_response_formatting. apply stage_retry_extends; [done|]. intros w1 _.
  apply generate_response_any.
Qed.

Lemma stage_retry_inr {A} (m : M A) s w a w' :
  stage_retry (try_except m (fun e => raise (RuntimeError s e))) w = (inr a, w') ->
  exists w1, m w1 = (inr a, w').
Proof.
  unfold stage_retry, retry. intros H. apply retry_from_inr in H as [w1 H].
  exists w1. unfold try_except in H. by destruct (m w1) as [[e|a'] w2].
Qed.

(** A formatted response comes from one run of the formatter's body on
    the passages as the store has them. *)
Lemma run_response_formatting_inr query out docs w resp w' :
  run_response_formatting self query out docs w = (inr resp, w') ->
  w_heap w' = w_heap w /\
  generate_response_body (response_config self) query out (map (w_heap w) docs) = inr resp.
Proof.
  intros H.
  pose proof (run_response_formatting_any query out docs w) as Hf.
  rewrite H in Hf. apply extends_heap in Hf. cbn [snd] in Hf. split; [done|].
  unfold run_response_formatting, stage_retry, retry in H.
  apply (retry_from_inr_inv (fun w1 => w_heap w1 = w_heap w)) in H as (w1 & Hh1 & H);
    [| |done].
  2:{ intros w1 n Hh. cbn [log w_heap]. rewrite <- Hh. apply (extends_heap any_event).
      unfold try_except.
      pose proof (generate_response_any (response_config self) query out docs w1) as Hg.
      by destruct (generate_response _ _ _ _ w1) as [[e|a] w2]. }
  unfold try_except in H.
  destruct (generate_response _ _ _ _ w1) as [[e|a] w2] eqn:Hg; [done|].
  injection H as -> ->.
  unfold generate_response, retry in Hg.
  apply (retry_from_inr_inv (fun w2 => w_heap w2 = w_heap w)) in Hg as (w2 & Hh2 & Hg);
    [| |done].
  2:{ intros w2 n Hh. cbn [log w_heap]. unfold bind, get_world, lift.
      by destruct (generate_response_body _ _ _ _). }
  unfold bind, get_world, lift in Hg.
  destruct (generate_response_body _ _ _ (map (w_heap w2) docs)) as [e|r] eqn:Hb; [done|].
  injection Hg as -> ->. by rewrite <- Hh2.
Qed.

Lemma generate_response_body_inr cfg query out docs resp :
  generate_response_body cfg query out docs = inr resp ->
  nonempty query = true /\ docs <> [] /\
  resp = mkResponse query (_parse_llm_output out).2
           (slice_to (max_citations cfg) (_extract_citations docs out)).
Proof.
  unfold generate_response_body.
  destruct (nonempty query); [|done]. destruct (nonempty out); [|done]. cbn [negb].
  destruct docs as [|d ds]; [done|].
  destruct (_parse_llm_output out) as [r f]. by intros [= <-].
Qed.

Lemma run_reranking_inr query docs w out w' :
  nonempty query = true ->
  run_reranking E self query docs w = (inr out, w') ->
  exists (scores : list pyfloat) w1,
    out = slice_to (top_n (reranker_config self))
            (sorted_reverse (env_sorted_nan E) (fun l => rerank_key (w_heap w' l))
               (take (length scores) docs)) /\
    (docs <> [] -> env_predict E (w_trace w1) (pairs_of query docs w1) = inr scores) /\
    (forall l, l ∈ take (length scores) docs ->
       scored (w_heap w' l) /\ rerank_key (w_heap w' l) ∈ scores).
Proof.
  intros Hq H. unfold run_reranking in H. apply stage_retry_inr in H as [w1 H].
  unfold rerank, retry in H. apply retry_from_inr in H as [w2 H].
  apply rerank_body_inr in H as (scores & H); [|done]. by exists scores, w2.
Qed.

Lemma new_documents_none ms w :
  Forall (fun m => has_metadata m = false) ms -> new_documents ms w = (inr [], w).
Proof.
  induction 1 as [|m ms Hm _ IH]; [done|]. cbn [new_documents]. by rewrite Hm.
Qed.

Lemma run_retrieval_none embedding w docs w' :
  (forall tr v k ms, env_index_query E tr v k = inr ms ->
                     Forall (fun m => has_metadata m = false) ms) ->
  run_retrieval E self embedding w = (inr docs, w') -> docs = [].
Proof.
  intros Hidx H. unfold run_retrieval in H. apply stage_retry_inr in H as [w1 H].
  unfold retrieve, retry in H. apply retry_from_inr in H as [w2 H].
  unfold retrieve_body in H. destruct embedding as [|x v]; [done|].
  unfold try_except, bind in H.
  destruct (env_index_query E (w_trace w2) (x :: v) _) as [e|ms] eqn:Hi; [done|].
  rewrite new_documents_none in H by (by eapply Hidx). by injection H as <- _.
Qed.

Lemma run_reranking_nil query w out w' :
  run_reranking E self query [] w = (inr out, w') -> out = [].
Proof.
  intros H. unfold run_reranking in H. apply stage_retry_inr in H as [w1 H].
  unfold rerank, retry in H. apply retry_from_inr in H as [w2 H].
  unfold rerank_body in H. destruct (negb (nonempty query)); [done|].
  by injection H as <- _.
Qed.
End Frames.

Section RunMore.
Context (E : env) (self : pipeline).

(** Property X23.
    No passage, no answer. When no match of the index has metadata, no
    passage is retrieved and [run] never returns a result: if the
    earlier stages get through, the formatter rejects the empty list of
    passages, whatever the model answered. *)
Theorem run_without_passages_fails query w :
  (forall tr v k ms, env_index_query E tr v k = inr ms ->
                     Forall (fun m => has_metadata m = false) ms) ->
  exists e w', run E self query w = (inl e, w').
Proof.
  intros Hidx. unfold run, try_except, bind, raise.
  destruct (run_embedding E self query w) as [[e|embedding] w1] eqn:H1; [by eexists _, _|].
  destruct (run_retrieval E self embedding w1) as [[e|documents] w2] eqn:H2;
    [by eexists _, _|].
  apply run_retrieval_none in H2 as ->; [|done].
  destruct (run_reranking E self query [] w2) as [[e|reranked] w3] eqn:H3;
    [by eexists _, _|].
  apply run_reranking_nil in H3 as ->.
  destruct (run_generation E self query [] w3) as [[e|out] w4] eqn:H4; [by eexists _, _|].
  destruct (run_response_formatting self query out [] w4) as [[e|resp] w5] eqn:H5;
    [by eexists _, _|].
  apply run_response_formatting_inr in H5 as [_ H5].
  by apply generate_response_body_inr in H5 as (_ & ? & _).
Qed.

Lemma StronglySorted_map {A B} (f : A -> B) (R : B -> B -> Prop) l :
  StronglySorted (fun x y => R (f x) (f y)) l -> StronglySorted R (map f l).
Proof.
  induction 1 as [|x l Hl IH Hx]; cbn [map]; constructor; [done|].
  apply Forall_forall. intros y Hy. apply list_elem_of_In, in_map_iff in Hy as (z & <- & Hz).
  rewrite Forall_forall in Hx. apply Hx. by apply list_elem_of_In.
Qed.

Lemma StronglySorted_impl {A} (R1 R2 : A -> A -> Prop) l :
  (forall a b, R1 a b -> R2 a b) -> StronglySorted R1 l -> StronglySorted R2 l.
Proof.
  intros H. induction 1 as [|x l Hl IH Hx]; constructor; [done|].
  eapply Forall_impl; [exact Hx|]. intros y. apply H.
Qed.

Lemma slice_to_take {A} n (l : list A) : exists k, slice_to n l = take k l.
Proof. unfold slice_to. destruct (0 <=? n)%Z; by eexists. Qed.

(** Property X24.
    What a result of [run] looks like. It echoes the query; its
    documents are at least one and (for a non-negative top-N) at most
    top-N, and each carries a float [rerank_score]; when the scoring
    model never returns NaN they come in descending order of that
    score; its final answer has no white space around it and no run of
    stars; and (for a non-negative max-citations) it gives at most
    max-citations citations. *)
Theorem run_result_shape query w res w' :
  run E self query w = (inr res, w') ->
  res_query res = query /\
  res_documents res <> [] /\
  ((0 <= top_n (reranker_config self))%Z ->
   (Z.of_nat (length (res_documents res)) <= top_n (reranker_config self))%Z) /\
  Forall (fun v => scored (doc_of_view v)) (res_documents res) /\
  (scores_are_numbers E ->
   StronglySorted
     (fun a b => float_le (rerank_key (doc_of_view b)) (rerank_key (doc_of_view a)) = true)
     (res_documents res)) /\
  tidy (res_final_answer res) /\
  ((0 <= max_citations (response_config self))%Z ->
   (Z.of_nat (length (res_citations res)) <= max_citations (response_config self))%Z).
Proof.
  unfold run, try_except, bind, raise.
  destruct (run_embedding E self query w) as [[e|embedding] w1] eqn:H1; [done|].
  destruct (run_retrieval E self embedding w1) as [[e|documents] w2] eqn:H2; [done|].
  destruct (run_reranking E self query documents w2) as [[e|reranked] w3] eqn:H3; [done|].
  destruct (run_generation E self query reranked w3) as [[e|out] w4] eqn:H4; [done|].
  destruct (run_response_formatting self query out reranked w4) as [[e|resp] w5] eqn:H5;
    [done|].
  unfold get_world, ret. intros [= <- <-]. cbn [res_query res_documents res_final_answer
                                                 res_citations].
  apply run_response_formatting_inr in H5 as [Hh5 H5].
  apply generate_response_body_inr in H5 as (Hq & Hd & ->).
  cbn [r_query r_final_answer r_citations].
  assert (w_heap w4 = w_heap w3) as Hh4.
  { pose proof (run_generation_any E self query reranked w3) as Hf. rewrite H4 in Hf.
    by apply extends_heap in Hf. }
  apply run_reranking_inr in H3 as (scores & wr & Hout & Hp & Hsc); [|done].
  assert (forall l, view (w_heap w5 l) = view (w_heap w3 l)) as Hv
    by (intros l; by rewrite Hh5, Hh4).
  assert (forall l, doc_of_view (view (w_heap w3 l)) = w_heap w3 l) as Hdv
    by (intros l; by destruct (w_heap w3 l)).
  destruct (slice_to_take (top_n (reranker_config self))
              (sorted_reverse (env_sorted_nan E) (fun l => rerank_key (w_heap w3 l))
                 (take (length scores) documents))) as [k Hk].
  split_and!.
  - done.
  - destruct reranked; [|done]. by destruct Hd.
  - intros Hn. rewrite length_map, Hout, slice_to_nonneg, length_take by done. lia.
  - apply Forall_forall. intros v Hv'.
    apply list_elem_of_fmap in Hv' as (l & -> & Hl). rewrite Hv, Hdv. apply Hsc.
    rewrite Hout in Hl. apply elem_of_slice_to in Hl. by apply sorted_reverse_elem in Hl.
  - intros Hnum. apply StronglySorted_map.
    eapply (StronglySorted_impl
              (fun a b => float_le (rerank_key (w_heap w3 b)) (rerank_key (w_heap w3 a)) = true)).
    { intros a b. by rewrite !Hv, !Hdv. }
    rewrite Hout, Hk.
    apply (StronglySorted_take (fun l => rerank_key (w_heap w3 l))), sorted_reverse_sorted.
    apply Forall_forall. intros l Hl. destruct (Hsc l Hl) as [_ Hin].
    destruct documents as [|d0 ds]; [by rewrite take_nil in Hl; apply elem_of_nil in Hl|].
    specialize (Hp ltac:(done)). apply Hnum in Hp. rewrite Forall_forall in Hp. by apply Hp.
  - destruct (parse_clean out) as (r & f & ->). apply clean_markdown_tidy.
  - intros Hn. rewrite slice_to_nonneg, length_take by done. lia.
Qed.
Lemma cited_passages_citable out ds d :
  d ∈ cited_passages out ds -> d ∈ ds /\ citable d = true.
Proof.
  intros Hd. split; [by eapply elem_of_sublist, cited_passages_sublist|].
  unfold cited_passages in Hd.
  destruct (first_per_citation (filter _ ds)) as [|m l] eqn:Hm.
  - pose proof (elem_of_sublist _ _ _ Hd (first_per_citation_sublist _)) as H.
    by apply list_elem_of_filter in H as [? _].
  - rewrite <- Hm in Hd.
    pose proof (elem_of_sublist _ _ _ Hd (first_per_citation_sublist _)) as H.
    apply list_elem_of_filter in H as [H _]. by apply andb_prop in H as [? _].
Qed.

(** Property X25.
    A result cites only what it returns: every citation of a result of
    [run] is the citation text of one of the result's own documents,
    one that has both a case title and a citation string. *)
Theorem run_cites_returned_documents query w res w' :
  run E self query w = (inr res, w') ->
  forallb text_keys_ok (map doc_of_view (res_documents res)) = true ->
  Forall (fun c => exists v, v ∈ res_documents res /\ citable (doc_of_view v) = true /\
                             c = citation (doc_of_view v))
    (res_citations res).
Proof.
  unfold run, try_except, bind, raise.
  destruct (run_embedding E self query w) as [[e|embedding] w1] eqn:H1; [done|].
  destruct (run_retrieval E self embedding w1) as [[e|documents] w2] eqn:H2; [done|].
  destruct (run_reranking E self query documents w2) as [[e|reranked] w3] eqn:H3; [done|].
  destruct (run_generation E self query reranked w3) as [[e|out] w4] eqn:H4; [done|].
  destruct (run_response_formatting self query out reranked w4) as [[e|resp] w5] eqn:H5;
    [done|].
  unfold get_world, ret. intros [= <- <-] _. cbn [res_documents res_citations].
  apply run_response_formatting_inr in H5 as [Hh5 H5].
  apply generate_response_body_inr in H5 as (Hq & Hd & ->). cbn [r_citations].
  apply Forall_forall. intros c Hc. apply elem_of_slice_to in Hc.
  rewrite extract_citations_spec in Hc.
  apply list_elem_of_fmap in Hc as (d & -> & Hd').
  apply cited_passages_citable in Hd' as [Hin Hcit].
  apply list_elem_of_fmap in Hin as (l & -> & Hl).
  exists (view (w_heap w5 l)).
  assert (doc_of_view (view (w_heap w5 l)) = w_heap w4 l) as ->
    by (rewrite Hh5; by destruct (w_heap w4 l)).
  split_and!; try done. apply list_elem_of_fmap. by exists l.
Qed.
End RunMore.

Section CitationsMentioned.


(** Property X15.
    When the model's output refers to a passage that can be cited, the
    response cites only passages the output refers to: the fallback to
    all passages is not used. *)
Theorem response_cites_only_mentioned cfg query llm_output documents w d0 :
  nonempty query = true -> nonempty llm_output = true -> documents <> [] ->
  forallb text_keys_ok (map (w_heap w) documents) = true ->
  d0 ∈ map (w_heap w) documents -> citable d0 = true -> referenced llm_output d0 = true ->
  exists resp,
    generate_response cfg query llm_output documents w = (inr resp, w) /\
    Forall (fun c => exists d, d ∈ map (w_heap w) documents /\ citable d = true /\
                               referenced llm_output d = true /\ c = citation d)
      (r_citations resp).
Proof.
  intros Hq Ho Hd _ Hin Hc Hr.
  eexists. split; [by apply generate_response_ok|].
  cbn [r_citations]. rewrite extract_citations_spec.
  apply Forall_forall. intros c Hcin. apply elem_of_slice_to in Hcin.
  apply list_elem_of_fmap in Hcin as (d & -> & Hdin).
  unfold cited_passages in Hdin.
  set (ms := filter (fun d => citable d && referenced llm_output d = true)
               (map (w_heap w) documents)) in *.
  assert (d0 ∈ ms) as Hd0.
  { apply list_elem_of_filter. split; [|done]. by rewrite Hc, Hr. }
  destruct (first_per_citation ms) as [|m l] eqn:Hm.
  { apply (proj1 (first_per_citation_nil ms)) in Hm. rewrite Hm in Hd0.
    by apply elem_of_nil in Hd0. }
  rewrite <- Hm in Hdin.
  pose proof (elem_of_sublist _ _ _ Hdin (first_per_citation_sublist ms)) as Hdm.
  apply list_elem_of_filter in Hdm as [Hcr Hdm].
  apply andb_prop in Hcr as [? ?]. by exists d.
Qed.
End CitationsMentioned.

Section ContextAfterRerank.
Context (E : env).

Lemma context_entries_ok ds : forall i,
  Forall (fun d => is_Some (metadata d)) ds ->
  exists entries, context_entries E i ds = inr entries /\ length entries = length ds.
Proof.
  induction ds as [|d ds IH]; intros i H; [by exists []|].
  apply Forall_cons in H as [[md Hmd] H]. cbn [context_entries].
  unfold context_entry at 1. rewrite Hmd.
  destruct (IH (S i) H) as (entries & -> & Hl).
  eexists. split; [done|]. cbn. by rewrite Hl.
Qed.

(** Property X10.
    Every passage the reranker returns has metadata, so the context
    [generate] builds from them never raises: it has one entry per
    passage. *)
Theorem reranked_passages_have_context cfg query docs w out w' :
  nonempty query = true ->
  rerank E cfg query docs w = (inr out, w') ->
  exists entries,
    context_entries E 0 (map (w_heap w') out) = inr entries /\
    length entries = length out.
Proof.
  intros Hq H. unfold rerank, retry in H. apply retry_from_inr in H as [w1 H].
  apply rerank_body_inr in H as (scores & -> & _ & Hsc); [|done].
  destruct (context_entries_ok
              (map (w_heap w')
                 (slice_to (top_n cfg)
                    (sorted_reverse (env_sorted_nan E) (fun l => rerank_key (w_heap w' l))
                       (take (length scores) docs)))) 0) as (entries & He & Hl).
  - apply Forall_forall. intros d Hd. apply list_elem_of_fmap in Hd as (l & -> & Hl).
    apply elem_of_slice_to in Hl. apply sorted_reverse_elem in Hl.
    destruct (Hsc l Hl) as [(md & x & Hmd & _) _]. by exists md.
  - exists entries. split; [done|]. by rewrite Hl, length_map.
Qed.
End ContextAfterRerank.

Section FirstEntry.
Context (E : env).

(** Property X6.
    The pipeline asks for the model of the first configured entry. When
    that entry could not be registered and no registered entry has its
    model name, the router fails every call with "No provider
    configured", although it was built with other providers: the check
    fails on each of the three attempts and no provider is called. *)
Theorem first_entry_unusable_blocks_generation config registry m query docs mt w :
  _initialize_clients E config = inr registry ->
  configured_model_id config = Some m ->
  (forall c, c ∈ providers config -> configured E c = true -> model_name c <> m) ->
  nonempty query = true -> (0 < mt)%Z ->
  generate E registry query docs m mt w
  = (inl (RetryError (no_provider_configured m)), slept_twice w).
Proof.
  intros Hi Hm Hnone Hq Hmt.
  assert (nonempty m = true) as Hn.
  { unfold configured_model_id in Hm. destruct (providers config) as [|c ?]; [done|].
    destruct (nonempty (model_name c)) eqn:Hc; [|done]. by injection Hm as <-. }
  assert (map entry_config registry
          = filter (fun c => configured E c = true) (providers config)) as Hreg.
  { unfold _initialize_clients in Hi.
    pose proof (register_clients_spec E (providers config) []) as H. cbn [map app] in H.
    destruct (register_clients E (providers config) []); [done|]. by injection Hi as <-. }
  assert (candidates registry m = []) as Hc.
  { destruct (candidates registry m) as [|p ps] eqn:Hps; [done|]. exfalso.
    assert (p ∈ candidates registry m) as Hp by (rewrite Hps; by left).
    apply candidates_elem in Hp as [Hp Hpm].
    assert (entry_config p ∈ map entry_config registry) as Hin
      by (apply list_elem_of_fmap; by exists p).
    rewrite Hreg in Hin. apply list_elem_of_filter in Hin as [Hcfg Hin].
    by apply (Hnone _ Hin Hcfg). }
  unfold generate.
  rewrite (retry_3_pure_failure _ _ (no_provider_configured m)); [done|].
  intros w1. by apply generate_body_no_candidates.
Qed.
End FirstEntry.

Section GenerationPrompts.
Context (E : env) (self : pipeline).

(** Property X20.
    What the generation stage sends. Through all its attempts the stage
    only sleeps, draws random numbers and calls registered providers of
    the pipeline's model, with the configured token limit; the user
    prompt of every call is "Query: " followed by the whole
    chain-of-thought prompt, and the system prompt holds the passages a
    second time, in the router's own layout. *)
Theorem run_generation_prompts query docs w :
  let passages := map (w_heap w) docs in
  extends (router_event (llm_registry self) (model_id self)
             (system_prompt_of (context_of E passages))
             (user_prompt_of (cot_format E query passages))
             (max_tokens self))
    w (run_generation E self query docs w).2.
Proof.
  cbv zeta. unfold run_generation. apply stage_retry_extends; [done|].
  intros w1 Hw1. apply extends_heap in Hw1. unfold bind, get_world.
  rewrite Hw1. unfold generate, retry. apply extends_retry_from; [done|].
  intros w2 Hw2. apply extends_heap in Hw2.
  pose proof (generate_body_extends E (llm_registry self)
                (cot_format E query (map (w_heap w) docs)) docs (model_id self)
                (max_tokens self) w2) as H.
  by rewrite Hw2, Hw1 in H.
Qed.
End GenerationPrompts.

Section PromptShape.
Context (E : env).
Implicit Types (s : str).

Lemma strip_kept s c r c' r' :
  s = c :: r -> s = r' ++ [c'] -> is_space c = false -> is_space c' = false ->
  strip s = s.
Proof.
  intros H1 H2 Hc Hc'. unfold strip, rstrip.
  assert (lstrip (rev s) = rev s) as ->.
  { rewrite H2, rev_app_distr. cbn. by rewrite Hc'. }
  rewrite rev_involutive, H1. cbn. by rewrite Hc.
Qed.

Lemma framed_app a b :
  framed a -> framed b -> framed (a ++ b).
Proof.
  intros [x ->] [y ->]. exists (x ++ [dash; LF; LF; LF; dash] ++ y).
  repeat (rewrite <- ?app_assoc; cbn [app]). done.
Qed.

Lemma context_block_framed d : framed (context_block E d).
Proof.
  unfold context_block, framed.
  set (md := metadata_or_empty d).
  exists (txt "-- Start of Context from Case: "
          ++ get_shown E md "case_title" (txt "Unknown Case")
          ++ SP :: get_shown E md "media_neutral_citation" (txt "No Citation")
          ++ txt " ---" ++ [LF] ++ [LF] ++ txt "[Chunk "
          ++ get_shown E md "chunk_sequence" (txt "N/A") ++ txt "]"
          ++ LF :: content d ++ [LF] ++ txt "--- End of Context from Case: "
          ++ get_shown E md "case_title" (txt "Unknown Case")
          ++ SP :: get_shown E md "media_neutral_citation" (txt "No Citation")
          ++ txt " --").
  cbn [txt list_ascii_of_string app].
  repeat (rewrite <- ?app_assoc; cbn [app]). done.
Qed.

Lemma context_blocks_framed d ds : framed (concat (map (context_block E) (d :: ds))).
Proof.
  revert d. induction ds as [|d' ds IH]; intros d; cbn [map concat].
  - rewrite app_nil_r. apply context_block_framed.
  - apply framed_app; [apply context_block_framed|apply IH].
Qed.

(** Property X19.
    The context of the prompt is the passages' blocks, one after the
    other, less the two line feeds in front and the line feed at the
    end: trimming takes nothing from a passage, whatever white space its
    content begins or ends with. *)
Theorem format_context_keeps_blocks docs :
  docs <> [] ->
  concat (map (context_block E) docs) = [LF; LF] ++ _format_context_string E docs ++ [LF].
Proof.
  intros Hd. destruct docs as [|d ds]; [done|].
  unfold _format_context_string.
  destruct (context_blocks_framed d ds) as [body ->].
  rewrite (strip_app_space_l [LF; LF]) by (by repeat constructor).
  rewrite (strip_app_space_r _ [LF]) by (by repeat constructor).
  by rewrite (strip_kept (dash :: body ++ [dash]) dash (body ++ [dash]) dash (dash :: body)).
Qed.
End PromptShape.

Section ApiFacts.
Import Api.
Context (E : env) (A : api_env) (pipeline : Pipeline.pipeline).

(** Property X26.
    An unknown user is answered with status 500, never 404: the
    handler of [verify_user] catches the 404 it has just raised. The
    same happens when the database raises. The pipeline is not run and
    no chat row is written. *)
Theorem process_query_unknown_user request aw :
  api_select_user A (aw_db aw) (req_user_id request) = inr []
  \/ (exists e, api_select_user A (aw_db aw) (req_user_id request) = inl e) ->
  process_query E A pipeline request aw
  = (inl (HTTPException 500 "Internal server error"),
     mkApiWorld (aw_world aw) (SelectUser (req_user_id request) :: aw_db aw)).
Proof.
  intros H. unfold process_query, verify_user.
  destruct H as [-> | [e ->]]; reflexivity.
Qed.

(** Property X27.
    The handler returns an answer only when it has stored it. A
    response without an error carries the final answer and the
    citations of a completed run of the pipeline, and the chat row
    with them is the latest write to the database. A response with an
    error carries no answer and no citation, also when the pipeline
    had completed and only the write failed. *)
Theorem process_query_answer_is_stored request aw response aw' :
  process_query E A pipeline request aw = (inr response, aw') ->
  match qr_error response with
  | None =>
      exists result w' db,
        run E pipeline (req_query request) (aw_world aw) = (inr result, w') /\
        qr_final_answer response = res_final_answer result /\
        qr_citations response = res_citations result /\
        aw_db aw' = InsertChat (mkChat (req_user_id request) (req_query request)
                                  (res_final_answer result) (res_citations result)
                                  [] (txt "now()")) :: db
  | Some _ => qr_final_answer response = [] /\ qr_citations response = []
  end.
Proof.
  unfold process_query, verify_user.
  destruct (api_select_user A (aw_db aw) (req_user_id request)) as [e|[|row data]];
    [done|done|].
  cbn [aw_world aw_db].
  destruct (run E pipeline (req_query request) (aw_world aw)) as [[e|result] w2] eqn:Hr.
  { intros [= <- <-]. done. }
  destruct (api_insert_chat A _ _) as [e|].
  { intros [= <- <-]. done. }
  intros [= <- <-]. cbn. by eexists _, _, _.
Qed.
End ApiFacts.

Import Cases.

(** Property X3 on a concrete case. *)
Lemma generate_returns_provider_text_witness :
  exists w',
    generate env0 registry0 query0 [0; 1] (txt "m") 2048 w0 = (inr answer0, w') /\
    nonempty answer0 = true /\
    exists p tr later earlier, p ∈ registry0 /\ reg_model_name p = txt "m" /\
      let sys := system_prompt_of (context_of env0 (map (w_heap w0) [0; 1])) in
      let usr := user_prompt_of query0 in
      w_trace w' = later ++ ProviderCall (entry_config p) sys usr 2048 :: tr /\
      tr = earlier ++ w_trace w0 /\
      env_provider env0 tr (entry_config p) sys usr 2048 = Returns (Some answer0).
Proof.
  destruct (generate env0 registry0 query0 [0; 1] (txt "m") 2048 w0) as [r w'] eqn:H.
  assert (r = inr answer0) as ->.
  { apply (f_equal fst) in H. vm_compute in H. rewrite <- H. vm_compute. reflexivity. }
  exists w'. split; [reflexivity|].
  exact (generate_returns_provider_text env0 registry0 query0 [0; 1] (txt "m") 2048
           w0 answer0 w' H).
Defined.

(** Property X4 on a concrete case. *)
Lemma generate_all_providers_fail_witness :
  exists w',
    generate env_down registry0 query0 [0; 1] (txt "m") 2048 w0
    = (inl (RetryError (RuntimeErrorMsg all_failed_msg)), w') /\
    length (provider_calls (w_trace w'))
    = 3 * length (candidates registry0 (txt "m")) + length (provider_calls (w_trace w0)) /\
    sleeps (w_trace w') = [Sleep 2; Sleep 2] ++ sleeps (w_trace w0).
Proof.
  apply (generate_all_providers_fail env_down registry0 query0 [0; 1] (txt "m") 2048 w0
           entries0).
  - split_and!; [reflexivity | reflexivity | lia].
  - vm_compute. discriminate.
  - vm_compute. reflexivity.
  - intros. reflexivity.
Defined.

(** Property X5 on a concrete case. *)
Lemma generate_passage_without_metadata_witness :
  generate env0 registry0 query0 [0; 7] (txt "m") 2048 w0
  = (inl (RetryError (AttributeError "'NoneType' object has no attribute 'get'")),
     slept_twice w0).
Proof.
  apply (generate_passage_without_metadata env0 registry0 query0 [0; 7] (txt "m") 2048 w0 7).
  - split_and!; [reflexivity | reflexivity | lia].
  - vm_compute. discriminate.
  - apply list_elem_of_further, list_elem_of_here.
  - reflexivity.
Defined.

(** Property X7 on a concrete case. *)
Lemma rerank_returns_input_passages_witness :
  exists out w',
    rerank env0 (reranker_config pipeline0) query0 [0; 1; 2; 3] w0 = (inr out, w') /\
    out ⊆+ [0; 1; 2; 3] /\
    Z.of_nat (length out)
    = slice_length 3 (Z.min (Z.of_nat (length [0; 1; 2; 3])) (Z.of_nat (length scores0))).
Proof.
  apply (rerank_returns_input_passages env0 (reranker_config pipeline0) query0
           [0; 1; 2; 3] w0 scores0).
  - reflexivity.
  - vm_compute. reflexivity.
Defined.

(** Property X8 on a concrete case. *)
Lemma rerank_writes_scores_witness :
  exists out w',
    rerank env0 (reranker_config pipeline0) query0 [0; 1; 2; 3] w0 = (inr out, w') /\
    w_trace w' = Predict (pairs_of query0 [0; 1; 2; 3] w0) :: w_trace w0 /\
    content (w_heap w' 1) = txt "Edwards v Halliwell" /\
    metadata_or_empty (w_heap w' 1) !! "case_title"
      = Some (VStr (txt "Edwards v Halliwell")) /\
    exists x, x ∈ scores0 /\
      metadata_or_empty (w_heap w' 1) !! "rerank_score" = Some (VFloat x).
Proof.
  destruct (rerank_writes_scores env0 (reranker_config pipeline0) query0 [0; 1; 2; 3] w0
              scores0) as (out & w' & Hr & Htr & _ & Hframe & Hsc).
  - reflexivity.
  - discriminate.
  - vm_compute. reflexivity.
  - exists out, w'. destruct (Hframe 1) as (Hc & _ & Hk). split_and!.
    + exact Hr.
    + exact Htr.
    + rewrite Hc. reflexivity.
    + rewrite Hk by discriminate. vm_compute. reflexivity.
    + apply Hsc. apply list_elem_of_further, list_elem_of_here.
Defined.

(** Property X9 on a concrete case. *)
Lemma rerank_model_failure_witness :
  let call := Predict (pairs_of query0 [0; 1] w0) in
  rerank env_down (reranker_config pipeline0) query0 [0; 1] w0
  = (inl (RetryError (RuntimeError "Reranking failed" down)),
     log call (log (Sleep 2) (log call (log (Sleep 2) (log call w0))))).
Proof.
  apply (rerank_model_failure env_down (reranker_config pipeline0) query0 [0; 1] w0 down).
  - reflexivity.
  - discriminate.
  - intros. reflexivity.
Defined.

(** Property X12 on a concrete case. *)
Lemma parse_windows_line_ends_witness :
  _parse_llm_output (to_crlf (py "Reasoning:\nfoo\nFinal Answer:\nbar"))
  = _parse_llm_output (py "Reasoning:\nfoo\nFinal Answer:\nbar").
Proof.
  apply parse_windows_line_ends.
  apply (bool_decide_unpack _). vm_compute. exact I.
Defined.

(** Property X14 on a concrete case. *)
Lemma response_cites_when_citable_witness :
  exists resp,
    generate_response {| max_citations := 2 |} query0 answer0 [0; 1] w0 = (inr resp, w0) /\
    (r_citations resp = [] <->
     Forall (fun d => citable d = false) (map (w_heap w0) [0; 1])).
Proof.
  apply (response_cites_when_citable {| max_citations := 2 |} query0 answer0 [0; 1] w0).
  - reflexivity.
  - reflexivity.
  - discriminate.
  - simpl. lia.
  - vm_compute. reflexivity.
Defined.

(** Property X16 on a concrete case. *)
Lemma response_negative_max_citations_witness :
  exists resp,
    generate_response {| max_citations := -1 |} query0 answer0 [0; 1; 2; 3] w0
    = (inr resp, w0) /\
    let chosen := cited_passages answer0 (map (w_heap w0) [0; 1; 2; 3]) in
    r_citations resp
    = map citation (take (length chosen - Z.to_nat (- max_citations {| max_citations := -1 |}))
                      chosen).
Proof.
  apply (response_negative_max_citations {| max_citations := -1 |} query0 answer0
           [0; 1; 2; 3] w0).
  - reflexivity.
  - reflexivity.
  - discriminate.
  - simpl. lia.
  - vm_compute. reflexivity.
Defined.

(** Property X13 on a concrete case. *)
Lemma parse_conclusion_before_next_line_witness :
  (_parse_llm_output (py "Conclusion: The appeal fails.\nIt is dismissed.")).2
  = clean_markdown (strip (txt "The appeal fails.")).
Proof.
  apply (parse_conclusion_before_next_line _ "T"%char (txt "he appeal fails.")
           "I"%char (txt "t is dismissed.")).
  - vm_compute. reflexivity.
  - reflexivity.
  - apply (bool_decide_unpack _). vm_compute. exact I.
  - reflexivity.
  - vm_compute. reflexivity.
Defined.

(** Property X17 on a concrete case. *)
Lemma embed_rejects_blank_text_witness :
  embed env0 (embedding_config pipeline0) [txt "  "] (txt "query") w0
  = (inl (RetryError texts_rejected), slept_twice w0).
Proof.
  apply embed_rejects_blank_text. right. exists (txt "  ").
  split; [apply list_elem_of_here | repeat constructor].
Defined.

(** Property X18 on a concrete case. *)
Lemma retrieve_new_passages_witness :
  let kept := List.filter has_metadata index0 in
  exists out w',
    retrieve env0 (retrieval_config pipeline0) [1 # 1; 0 # 1] w0 = (inr out, w') /\
    out = seq (w_next w0) (length kept) /\
    map (w_heap w') out = map passage_of kept /\
    (forall l, l < w_next w0 -> w_heap w' l = w_heap w0 l) /\
    w_trace w'
    = IndexQuery [1 # 1; 0 # 1] (retrieval_top_k (retrieval_config pipeline0)) :: w_trace w0.
Proof.
  apply (retrieve_new_passages env0 (retrieval_config pipeline0) [1 # 1; 0 # 1] w0 index0).
  - discriminate.
  - reflexivity.
  - repeat constructor.
Defined.

(** Property X21 on a concrete case. *)
Lemma run_whitespace_query_witness :
  run env0 pipeline0 (txt "  ") w0
  = (inl (RuntimeError "Pipeline failed"
            (RetryError (RuntimeError "Embedding failed" (RetryError texts_rejected)))),
     slept 8 w0).
Proof.
  apply run_whitespace_query; [discriminate | repeat constructor].
Defined.

(** Property X22 on a concrete case. *)
Lemma run_embedding_service_down_witness :
  let attempts := failed_embed_attempts query0 in
  run env_down pipeline0 query0 w0
  = (inl (RuntimeError "Pipeline failed"
            (RetryError (RuntimeError "Embedding failed"
               (RetryError (RuntimeError "Embedding failed" down))))),
     mkWorld (attempts ++ Sleep 2 :: attempts ++ Sleep 2 :: attempts ++ w_trace w0)
       (w_heap w0) (w_next w0)).
Proof.
  apply (run_embedding_service_down env_down pipeline0 query0 w0 down).
  - intros H. inversion H as [|c r Hc Hr]. discriminate Hc.
  - intros. reflexivity.
Defined.

(** Property X23 on a concrete case. *)
Lemma run_without_passages_fails_witness :
  exists e w', run env_bare pipeline0 query0 w0 = (inl e, w').
Proof.
  apply (run_without_passages_fails env_bare pipeline0 query0 w0).
  intros tr v k ms H. injection H as <-. repeat constructor.
Defined.

(** Property X24 on a concrete case. *)
Lemma run_result_shape_witness :
  exists res w',
    run env0 pipeline0 query0 w0 = (inr res, w') /\
    res_query res = query0 /\
    res_documents res <> [] /\
    (Z.of_nat (length (res_documents res)) <= top_n (reranker_config pipeline0))%Z /\
    Forall (fun v => scored (doc_of_view v)) (res_documents res) /\
    StronglySorted
      (fun a b => float_le (rerank_key (doc_of_view b)) (rerank_key (doc_of_view a)) = true)
      (res_documents res) /\
    tidy (res_final_answer res) /\
    (Z.of_nat (length (res_citations res)) <= max_citations (response_config pipeline0))%Z.
Proof.
  destruct (run env0 pipeline0 query0 w0) as [[e|res] w'] eqn:Hr.
  - apply (f_equal fst) in Hr. vm_compute in Hr. discriminate Hr.
  - exists res, w'. split; [reflexivity|].
    destruct (run_result_shape env0 pipeline0 query0 w0 res w' Hr)
      as (H1 & H2 & H3 & H4 & H5 & H6 & H7).
    split_and!; [done | done | | done | | done |].
    + apply H3. simpl. lia.
    + apply H5. intros tr pairs scores [= <-]. apply Forall_take. repeat constructor.
    + apply H7. simpl. lia.
Defined.

(** Property X15 on a concrete case. *)
Lemma response_cites_only_mentioned_witness :
  exists resp,
    generate_response {| max_citations := 2 |} query0 answer0 [0; 1; 2] w0 = (inr resp, w0) /\
    Forall (fun c => exists d, d ∈ map (w_heap w0) [0; 1; 2] /\ citable d = true /\
                               referenced answer0 d = true /\ c = citation d)
      (r_citations resp).
Proof.
  apply (response_cites_only_mentioned {| max_citations := 2 |} query0 answer0 [0; 1; 2] w0
           (heap0 0)).
  - reflexivity.
  - reflexivity.
  - discriminate.
  - vm_compute. reflexivity.
  - apply list_elem_of_here.
  - vm_compute. reflexivity.
  - vm_compute. reflexivity.
Defined.

(** Property X10 on a concrete case. *)
Lemma reranked_passages_have_context_witness :
  exists out w' entries,
    rerank env0 (reranker_config pipeline0) query0 [0; 1; 2; 3] w0 = (inr out, w') /\
    context_entries env0 0 (map (w_heap w') out) = inr entries /\
    length entries = length out.
Proof.
  destruct (rerank env0 (reranker_config pipeline0) query0 [0; 1; 2; 3] w0)
    as [[e|out] w'] eqn:Hr.
  - apply (f_equal fst) in Hr. vm_compute in Hr. discriminate Hr.
  - destruct (reranked_passages_have_context env0 (reranker_config pipeline0) query0
                [0; 1; 2; 3] w0 out w' eq_refl Hr) as (entries & He & Hl).
    exists out, w', entries. by split_and!.
Defined.

(** Property X6 on a concrete case. *)
Lemma first_entry_unusable_blocks_generation_witness :
  _initialize_clients env_down config_ab = inr [openai_b] /\
  configured_model_id config_ab = Some (txt "a") /\
  generate env_down [openai_b] query0 [0; 1] (txt "a") 2048 w0
  = (inl (RetryError (no_provider_configured (txt "a"))), slept_twice w0).
Proof.
  split; [vm_compute; reflexivity|]. split; [reflexivity|].
  apply (first_entry_unusable_blocks_generation env_down config_ab).
  - vm_compute. reflexivity.
  - reflexivity.
  - intros c Hc Hcfg Hm.
    apply elem_of_cons in Hc as [->|Hc]; [discriminate Hcfg|].
    apply list_elem_of_singleton in Hc as ->. discriminate Hm.
  - reflexivity.
  - lia.
Defined.

(** Property X26 on a concrete case. *)
Lemma process_query_unknown_user_witness :
  Api.process_query env0 db0 pipeline0
    {| Api.req_query := query0; Api.req_user_id := txt "nobody" |} aw0
  = (inl (Api.HTTPException 500 "Internal server error"),
     Api.mkApiWorld w0 [Api.SelectUser (txt "nobody")]).
Proof.
  apply (process_query_unknown_user env0 db0 pipeline0
           {| Api.req_query := query0; Api.req_user_id := txt "nobody" |} aw0).
  left. reflexivity.
Defined.

(** Property X27 on a concrete case. *)
Lemma process_query_answer_is_stored_witness :
  exists response aw',
    Api.process_query env0 db0 pipeline0
      {| Api.req_query := query0; Api.req_user_id := txt "u1" |} aw0
    = (inr response, aw') /\
    Api.qr_error response = None /\
    exists result w' db,
      run env0 pipeline0 query0 w0 = (inr result, w') /\
      Api.qr_final_answer response = res_final_answer result /\
      Api.qr_citations response = res_citations result /\
      Api.aw_db aw'
      = Api.InsertChat (Api.mkChat (txt "u1") query0 (res_final_answer result)
                          (res_citations result) [] (txt "now()")) :: db.
Proof.
  destruct (Api.process_query env0 db0 pipeline0
              {| Api.req_query := query0; Api.req_user_id := txt "u1" |} aw0)
    as [[e|response] aw'] eqn:Hp.
  - apply (f_equal fst) in Hp. vm_compute in Hp. discriminate Hp.
  - exists response, aw'. split; [reflexivity|].
    assert (Api.qr_error response = None) as He.
    { apply (f_equal fst) in Hp. vm_compute in Hp. injection Hp as <-. reflexivity. }
    split; [exact He|].
    pose proof (process_query_answer_is_stored env0 db0 pipeline0 _ _ _ _ Hp) as H.
    rewrite He in H. exact H.
Defined.

(** Property X25 on a concrete case. *)
Lemma run_cites_returned_documents_witness :
  exists res w',
    run env0 pipeline0 query0 w0 = (inr res, w') /\
    Forall (fun c => exists v, v ∈ res_documents res /\ citable (doc_of_view v) = true /\
                               c = citation (doc_of_view v))
      (res_citations res).
Proof.
  destruct (run env0 pipeline0 query0 w0) as [[e|res] w'] eqn:Hr.
  - apply (f_equal fst) in Hr. vm_compute in Hr. discriminate Hr.
  - exists res, w'. split; [reflexivity|].
    apply (run_cites_returned_documents env0 pipeline0 query0 w0 res w' Hr).
    apply (f_equal fst) in Hr. vm_compute in Hr. injection Hr as <-.
    vm_compute. reflexivity.
Defined.

(** Property X19 on a concrete case. *)
Lemma format_context_keeps_blocks_witness :
  concat (map (context_block env0) [heap0 0; heap0 1])
  = [LF; LF] ++ _format_context_string env0 [heap0 0; heap0 1] ++ [LF].
Proof. apply format_context_keeps_blocks. discriminate. Defined.
